(** * archcheck tracking core: a shallow embedding and its properties

    The C sources under [src/c] are embedded module by module:
    [interning.c], [frame.c], [barrier.c], [callback.c] and [_tracking.c].
    Part I holds the definitions, Part II the theorems.

    Conventions of the embedding.
    - [abort()] (reached through [REQUIRE], [ENSURE], [UNREACHABLE] of
      [tracking/invariants.h]) is the [Abort] outcome of [result].
    - [malloc], [realloc], [strdup] and the table insertion of the
      creation map may fail.  Their answers are read from a [heap]
      oracle: a list of booleans consumed one per allocation, an
      exhausted list meaning that the allocation succeeds.
    - [size_t], [int] and [int64_t] counters are unbounded numbers: the
      wrap-around of a counter would need more than 2^31 nested sections
      or 2^61 array slots.  The 64-bit wrap-around of the FNV-1a hash is
      written out. *)

From Stdlib Require Import ZArith NArith List String Ascii Bool Lia.
From stdpp Require Import base list gmap.
Import ListNotations.

Local Open Scope nat_scope.

(* ====================================================================== *)
(** * Part I: definitions                                                   *)
(* ====================================================================== *)

(** ** Outcomes: a value, or the process aborted *)

Inductive result (A : Type) : Type :=
| Ret (a : A)
| Abort (msg : string).

Arguments Ret {A} a.
Arguments Abort {A} msg.

Definition rbind {A B : Type} (m : result A) (k : A -> result B) : result B :=
  match m with
  | Ret a => k a
  | Abort msg => Abort msg
  end.

Notation "'LET' p <- m 'IN' k" := (rbind m (fun x => let 'p := x in k))
  (at level 10, p pattern, m at level 100, k at level 200, only parsing).

(** [REQUIRE(cond, msg)] of [tracking/invariants.h]. *)
Definition REQUIRE (cond : bool) (msg : string) : result unit :=
  if cond then Ret tt else Abort msg.

(** ** The allocator oracle *)

Definition heap : Type := list bool.

Definition alloc (h : heap) : bool * heap :=
  match h with
  | [] => (true, [])
  | ok :: h' => (ok, h')
  end.

(** An oracle under which no allocation fails. *)
Definition allocs_ok (h : heap) : Prop := forall b, b ∈ h -> b = true.

(* ---------------------------------------------------------------------- *)
(** ** interning.c                                                          *)
(* ---------------------------------------------------------------------- *)

Module Interning.

(** A C string is its content: the bytes before the terminator, none of
    them zero. *)

Definition FNV_OFFSET : N := 14695981039346656037%N.
Definition FNV_PRIME : N := 1099511628211%N.
Definition UINT64_MODULUS : N := (2 ^ 64)%N.

Fixpoint fnv1a_loop (hash : N) (s : string) : N :=
  match s with
  | EmptyString => hash
  | String c s' =>
      let hash := N.lxor hash (N_of_ascii c) in
      let hash := ((hash * FNV_PRIME) mod UINT64_MODULUS)%N in
      fnv1a_loop hash s'
  end.

Definition fnv1a_hash (s : string) : N := fnv1a_loop FNV_OFFSET s.

Definition STRING_TABLE_INITIAL_CAPACITY : nat := 1024.

(** [g_table].  [strings] holds the slots [strings[0 .. strings_count)];
    slot [i] owns the copy made by the [i]-th [strdup], which is never
    moved or freed before [string_table_destroy].  A bucket holds an
    offset into [strings], or [None] for [STRING_TABLE_EMPTY]. *)
Record StringTable : Type := {
  strings : list string;
  strings_capacity : nat;
  buckets : list (option nat);
  initialized : bool
}.

Definition strings_count (T : StringTable) : nat := length (strings T).
Definition buckets_capacity (T : StringTable) : nat := length (buckets T).

(** The [const char*] that [string_intern] returns is the pointer kept in
    a slot of [strings]; distinct slots keep distinct live allocations, so
    two returned pointers are equal exactly when their slots are.  A
    handle is that slot, [None] is [nullptr]. *)
Definition handle : Type := nat.

Definition g_table_zero : StringTable :=
  {| strings := []; strings_capacity := 0; buckets := []; initialized := false |}.

(** The [do ... while (idx != start)] loop of [find_bucket].  [fuel] only
    makes the recursion structural: the loop body runs at most
    [buckets_capacity] times before [idx] is back at [start]. *)
Fixpoint find_bucket_loop (strs : list string) (bkts : list (option nat))
    (s : string) (start : nat) (fuel : nat) (idx : nat) : result (nat * bool) :=
  match fuel with
  | 0 => Abort "hash table full"
  | S fuel' =>
      match bkts !! idx with
      | None => Abort "bucket index out of range"
      | Some None => Ret (idx, false)
      | Some (Some entry) =>
          match strs !! entry with
          | None => Abort "string offset out of range"
          | Some str =>
              if String.eqb str s then Ret (idx, true)
              else
                let idx' := (idx + 1) mod length bkts in
                if idx' =? start then Abort "hash table full"
                else find_bucket_loop strs bkts s start fuel' idx'
          end
      end
  end.

Definition find_bucket (T : StringTable) (s : string) (hash : N) : result (nat * bool) :=
  let idx := N.to_nat (hash mod N.of_nat (buckets_capacity T))%N in
  find_bucket_loop (strings T) (buckets T) s idx (buckets_capacity T) idx.

Definition set_buckets (bkts : list (option nat)) (T : StringTable) : StringTable :=
  {| strings := strings T; strings_capacity := strings_capacity T;
     buckets := bkts; initialized := initialized T |}.

(** One round of the rehash loop of [resize_buckets]: [g_table.buckets]
    already is the new array. *)
Definition rehash_entry (T : StringTable) (entry : option nat) : result StringTable :=
  match entry with
  | None => Ret T
  | Some e =>
      match strings T !! e with
      | None => Abort "string offset out of range"
      | Some s =>
          LET (bucket, _) <- find_bucket T s (fnv1a_hash s) IN
          Ret (set_buckets (<[bucket := Some e]> (buckets T)) T)
      end
  end.

Fixpoint rehash_all (T : StringTable) (old_buckets : list (option nat)) : result StringTable :=
  match old_buckets with
  | [] => Ret T
  | entry :: rest => LET T' <- rehash_entry T entry IN rehash_all T' rest
  end.

Definition resize_buckets (T : StringTable) (h : heap) : result (StringTable * heap) :=
  let old_capacity := buckets_capacity T in
  let new_capacity := old_capacity * 2 in
  let '(ok, h) := alloc h in
  LET _ <- REQUIRE ok "bucket allocation failed" IN
  let new_buckets := replicate new_capacity None in
  let old_buckets := buckets T in
  LET T' <- rehash_all (set_buckets new_buckets T) old_buckets IN
  Ret (T', h).

Definition ensure_strings_capacity (T : StringTable) (h : heap) : result (StringTable * heap) :=
  if strings_count T <? strings_capacity T then Ret (T, h)
  else
    let new_capacity := strings_capacity T * 2 in
    let new_capacity := if new_capacity =? 0 then 256 else new_capacity in
    let '(ok, h) := alloc h in
    LET _ <- REQUIRE ok "strings array allocation failed" IN
    Ret ({| strings := strings T; strings_capacity := new_capacity;
            buckets := buckets T; initialized := initialized T |}, h).

(** [while (capacity < initial_capacity) capacity *= 2], with [size_t] as
    a natural number: as the code computes it while the capacity and its
    byte count stay below 2^64, that is for requests up to 2^60. *)
Fixpoint round_up_pow2 (fuel capacity initial_capacity : nat) : nat :=
  if capacity <? initial_capacity then
    match fuel with
    | 0 => capacity
    | S fuel' => round_up_pow2 fuel' (capacity * 2) initial_capacity
    end
  else capacity.

(** [mutex_rc] is what [pthread_mutex_init] returns. *)
Definition string_table_init (initial_capacity : nat) (mutex_rc : Z)
    (T : StringTable) (h : heap) : result (StringTable * heap) :=
  if initialized T then Ret (T, h)
  else
    let initial_capacity :=
      if initial_capacity =? 0 then STRING_TABLE_INITIAL_CAPACITY else initial_capacity in
    let capacity := round_up_pow2 initial_capacity 1 initial_capacity in
    let '(ok, h) := alloc h in
    LET _ <- REQUIRE ok "bucket allocation failed" IN
    let '(ok, h) := alloc h in
    LET _ <- REQUIRE ok "strings array allocation failed" IN
    LET _ <- REQUIRE (mutex_rc =? 0)%Z "mutex init failed" IN
    Ret ({| strings := []; strings_capacity := 256;
            buckets := replicate capacity None; initialized := true |}, h).

Definition string_table_destroy (T : StringTable) : StringTable :=
  if negb (initialized T) then T else g_table_zero.

(** [load > STRING_TABLE_LOAD_FACTOR] with
    [load = (double)(strings_count + 1) / (double)buckets_capacity] and the
    factor 0.75: the comparison of the quotient with 3/4, which the
    double division decides exactly for capacities below 2^52. *)
Definition load_exceeded (T : StringTable) : bool :=
  3 * buckets_capacity T <? 4 * (strings_count T + 1).

Definition string_intern (s : option string) (T : StringTable) (h : heap)
  : result (option handle * StringTable * heap) :=
  match s with
  | None => Ret (None, T, h)
  | Some s =>
      LET _ <- REQUIRE (initialized T) "StringTable not initialized" IN
      let hash := fnv1a_hash s in
      LET (bucket, found) <- find_bucket T s hash IN
      if found then
        match buckets T !! bucket with
        | Some (Some entry) => Ret (Some entry, T, h)
        | _ => Abort "bucket index out of range"
        end
      else
        LET (T, h, bucket) <-
          (if load_exceeded T then
             LET (T, h) <- resize_buckets T h IN
             LET (bucket, found) <- find_bucket T s hash IN
             LET _ <- REQUIRE (negb found) "string appeared during resize" IN
             Ret (T, h, bucket)
           else Ret (T, h, bucket)) IN
        LET (T, h) <- ensure_strings_capacity T h IN
        let '(ok, h) := alloc h in
        LET _ <- REQUIRE ok "strdup failed" IN
        let string_idx := strings_count T in
        Ret (Some string_idx,
             {| strings := strings T ++ [s]; strings_capacity := strings_capacity T;
                buckets := <[bucket := Some string_idx]> (buckets T);
                initialized := initialized T |},
             h)
  end.

Definition string_table_count (T : StringTable) : nat := strings_count T.

Definition string_table_is_initialized (T : StringTable) : bool := initialized T.

Definition string_table_lookup (idx : nat) (T : StringTable) : result string :=
  LET _ <- REQUIRE (initialized T) "string_table_lookup: table not initialized" IN
  LET _ <- REQUIRE (idx <? strings_count T) "string_table_lookup: index out of bounds" IN
  match strings T !! idx with
  | Some s => Ret s
  | None => Abort "string offset out of range"
  end.

(** A session's calls, one after the other: the mutex of [string_intern]
    makes every interleaving of the threads' calls such a sequence. *)
Fixpoint intern_all (l : list (option string)) (T : StringTable) (h : heap)
  : result (list (option handle) * StringTable * heap) :=
  match l with
  | [] => Ret ([], T, h)
  | s :: l' =>
      LET (r, T, h) <- string_intern s T h IN
      LET (rs, T, h) <- intern_all l' T h IN
      Ret (r :: rs, T, h)
  end.

(** *** Vocabulary of the interning theorems *)

(** The offsets stored in the buckets, in bucket order. *)
Definition entries (bkts : list (option nat)) : list nat := omap id bkts.

(** [hash % buckets_capacity], where the probing for [s] starts. *)
Definition start_index (bkts : list (option nat)) (s : string) : nat :=
  N.to_nat (fnv1a_hash s mod N.of_nat (length bkts))%N.

(** [find_bucket] on the two arrays, with the hash of [s] itself. *)
Definition probe (strs : list string) (bkts : list (option nat)) (s : string)
  : result (nat * bool) :=
  find_bucket_loop strs bkts s (start_index bkts s) (length bkts) (start_index bkts s).

(** The index over the offsets [present]: [strings[]] has no duplicate,
    the buckets hold exactly the offsets of [present], each once and each
    within [strings[]], an empty bucket is left, and probing for a stored
    string finds it. *)
Record index_ok (strs : list string) (bkts : list (option nat)) (present : list nat) : Prop := {
  ok_strings : NoDup strs;
  ok_entries : entries bkts ≡ₚ present;
  ok_present : NoDup present;
  ok_range : forall e, e ∈ present -> e < length strs;
  ok_room : length present < length bkts;
  ok_find : forall e s, e ∈ present -> strs !! e = Some s ->
            exists b, probe strs bkts s = Ret (b, true)
}.

(** The table of a session: every slot of [strings[]] is indexed and the
    load stays at or below 3/4. *)
Record table_ok (T : StringTable) : Prop := {
  tok_index : index_ok (strings T) (buckets T) (seq 0 (strings_count T));
  tok_load : 4 * strings_count T <= 3 * buckets_capacity T;
  tok_init : initialized T = true
}.

(** The part of [string_intern] after the bucket for a new string is known. *)
Definition store_new (s : string) (bucket : nat) (T : StringTable) (h : heap)
  : result (option handle * StringTable * heap) :=
  LET (T, h) <- ensure_strings_capacity T h IN
  let '(ok, h) := alloc h in
  LET _ <- REQUIRE ok "strdup failed" IN
  let string_idx := strings_count T in
  Ret (Some string_idx,
       {| strings := strings T ++ [s]; strings_capacity := strings_capacity T;
          buckets := <[bucket := Some string_idx]> (buckets T);
          initialized := initialized T |},
       h).

(** What a call of [string_intern] on a string owes: a handle that
    denotes the string in a table that extends the old one, or an abort
    that an allocation failure explains. *)
Definition intern_post (s : string) (T : StringTable) (h : heap)
    (out : result (option handle * StringTable * heap)) : Prop :=
  match out with
  | Ret (r, T', h') =>
      table_ok T' /\
      (exists e, r = Some e /\ strings T' !! e = Some s) /\
      (exists ext, strings T' = strings T ++ ext) /\
      (allocs_ok h -> allocs_ok h')
  | Abort _ => ~ allocs_ok h
  end.

(** The same for a sequence of calls. *)
Definition intern_all_post (l : list (option string)) (T : StringTable) (h : heap)
    (out : result (list (option handle) * StringTable * heap)) : Prop :=
  match out with
  | Ret (hs, T', h') =>
      table_ok T' /\
      (exists ext, strings T' = strings T ++ ext) /\
      (forall i s, l !! i = Some (Some s) ->
         exists e, hs !! i = Some (Some e) /\ strings T' !! e = Some s) /\
      (forall i, l !! i = Some None -> hs !! i = Some None) /\
      (allocs_ok h -> allocs_ok h')
  | Abort _ => ~ allocs_ok h
  end.

(** A table some session can have: made by [string_table_init] from the
    zeroed [g_table], then used by [string_intern] calls. *)
Definition session_table (T : StringTable) : Prop :=
  exists ic rc h0 T0 h l hs h',
    string_table_init ic rc g_table_zero h0 = Ret (T0, h) /\
    intern_all l T0 h = Ret (hs, T, h').

(** A session that starts with a single bucket, so that the index is
    rebuilt three times while nine strings and [nullptr] are interned. *)
Definition sample_table : StringTable :=
  {| strings := []; strings_capacity := 256; buckets := [None]; initialized := true |}.

Definition sample_strings : list (option string) :=
  [ Some "a"; Some "b"; Some "a"; None; Some ""; Some "c"; Some "d";
    Some "b"; Some ""; Some "e"; Some "a" ]%string.

(** *** Vocabulary of the interning laws *)

(** The contents that a sequence of calls stores, in the order in which
    the calls meet them for the first time; [seen] is what [strings[]]
    holds already. *)
Fixpoint first_seen (seen : list string) (l : list (option string)) : list string :=
  match l with
  | [] => []
  | None :: l => first_seen seen l
  | Some s :: l =>
      if decide (s ∈ seen) then first_seen seen l
      else s :: first_seen (seen ++ [s]) l
  end.

(** The messages of the three aborts that follow a failed allocation. *)
Definition allocation_failure (msg : string) : Prop :=
  msg = "bucket allocation failed"%string \/
  msg = "strings array allocation failed"%string \/
  msg = "strdup failed"%string.

(** The handles that the calls of [sample_strings] return. *)
Definition sample_returned : list (option handle) :=
  match intern_all sample_strings sample_table [] with
  | Ret (hs, _, _) => hs
  | Abort _ => []
  end.

(** The table after the calls of [sample_strings]. *)
Definition sample_interned : StringTable :=
  match intern_all sample_strings sample_table [] with
  | Ret (_, T, _) => T
  | Abort _ => sample_table
  end.

End Interning.

(* ---------------------------------------------------------------------- *)
(** ** frame.c                                                              *)
(* ---------------------------------------------------------------------- *)

Module Frame.

(** [StackFrame]: [file] and [func] are interned pointers. *)
Record StackFrame : Type := {
  file : option Interning.handle;
  line : Z;
  func : option Interning.handle
}.

Definition FRAME_NO_CALLER : StackFrame :=
  {| file := None; line := 0; func := None |}.

Definition FRAME_STACK_INITIAL_CAPACITY : nat := 64.
Definition FRAME_STACK_GROWTH_FACTOR : nat := 2.

(** The thread-local [tl_stack], [tl_depth] and [tl_capacity] of one
    worker.  [tl_stack] lists the [tl_capacity] allocated slots; slots
    that [realloc] adds are shown as [FRAME_NO_CALLER], none of them is
    read before it is written. *)
Record FrameStack : Type := {
  tl_stack : list StackFrame;
  tl_depth : nat;
  tl_capacity : nat
}.

Definition thread_start : FrameStack :=
  {| tl_stack := []; tl_depth := 0; tl_capacity := 0 |}.

Definition ensure_capacity (s : FrameStack) (h : heap) : result (FrameStack * heap) :=
  if tl_depth s <? tl_capacity s then Ret (s, h)
  else
    let new_capacity :=
      if tl_capacity s =? 0 then FRAME_STACK_INITIAL_CAPACITY
      else tl_capacity s * FRAME_STACK_GROWTH_FACTOR in
    let '(ok, h) := alloc h in
    LET _ <- REQUIRE ok "frame stack allocation failed" IN
    Ret ({| tl_stack := tl_stack s ++
                        replicate (new_capacity - tl_capacity s) FRAME_NO_CALLER;
            tl_depth := tl_depth s;
            tl_capacity := new_capacity |}, h).

Definition frame_stack_push (info : option StackFrame) (s : FrameStack) (h : heap)
  : result (FrameStack * heap) :=
  match info with
  | None => Abort "frame_stack_push: info must not be null"
  | Some info =>
      LET (s, h) <- ensure_capacity s h IN
      Ret ({| tl_stack := <[tl_depth s := info]> (tl_stack s);
              tl_depth := tl_depth s + 1;
              tl_capacity := tl_capacity s |}, h)
  end.

Definition frame_stack_pop (s : FrameStack) : result FrameStack :=
  LET _ <- REQUIRE (0 <? tl_depth s) "frame_stack_pop: stack underflow" IN
  let depth := tl_depth s - 1 in
  Ret {| tl_stack := <[depth := FRAME_NO_CALLER]> (tl_stack s);
         tl_depth := depth;
         tl_capacity := tl_capacity s |}.

Definition frame_stack_caller (s : FrameStack) : option StackFrame :=
  if tl_depth s <? 2 then None else tl_stack s !! (tl_depth s - 2).

Definition frame_stack_depth (s : FrameStack) : nat := tl_depth s.

Definition frame_stack_clear (s : FrameStack) : FrameStack :=
  {| tl_stack := tl_stack s; tl_depth := 0; tl_capacity := tl_capacity s |}.

Definition frame_stack_destroy (s : FrameStack) : FrameStack := thread_start.

(** What a worker does to its stack: a Call pushes, a Return pops. *)
Inductive op : Type :=
| Push (info : option StackFrame)
| Pop
| Clear.

Definition apply_op (o : op) (s : FrameStack) (h : heap) : result (FrameStack * heap) :=
  match o with
  | Push info => frame_stack_push info s h
  | Pop => LET s <- frame_stack_pop s IN Ret (s, h)
  | Clear => Ret (frame_stack_clear s, h)
  end.

Fixpoint run (ops : list op) (s : FrameStack) (h : heap) : result (FrameStack * heap) :=
  match ops with
  | [] => Ret (s, h)
  | o :: ops => LET (s, h) <- apply_op o s h IN run ops s h
  end.

(** *** Vocabulary of the frame stack theorems *)

(** Calls minus Returns since the last clear, counted from [n]. *)
Fixpoint unmatched_from (n : Z) (ops : list op) : Z :=
  match ops with
  | [] => n
  | Push _ :: ops => unmatched_from (n + 1) ops
  | Pop :: ops => unmatched_from (n - 1) ops
  | Clear :: ops => unmatched_from 0 ops
  end.

Definition unmatched (ops : list op) : Z := unmatched_from 0 ops.

(** No Return without a Call to match it, and no push of [nullptr]. *)
Fixpoint balanced_from (n : Z) (ops : list op) : Prop :=
  match ops with
  | [] => True
  | Push info :: ops => info <> None /\ balanced_from (n + 1) ops
  | Pop :: ops => (0 < n)%Z /\ balanced_from (n - 1) ops
  | Clear :: ops => balanced_from 0 ops
  end.

(** *** tracking/frame.h: the inline utilities *)

(** [p == q] on interned pointers. *)
Definition ptr_eqb (p q : option Interning.handle) : bool :=
  match p, q with
  | None, None => true
  | Some x, Some y => x =? y
  | _, _ => false
  end.

(** [info] is [None] for [nullptr]. *)
Definition frame_is_empty (info : option StackFrame) : bool :=
  match info with
  | None => true
  | Some info => ptr_eqb (file info) None && ptr_eqb (func info) None
  end.

Definition frame_equals (a b : option StackFrame) : bool :=
  match a, b with
  | Some a, Some b =>
      ptr_eqb (file a) (file b) && (line a =? line b)%Z && ptr_eqb (func a) (func b)
  | None, None => true
  | _, _ => false
  end.

(** *** Vocabulary of the frame stack laws *)

(** The frames that are open after a run, the outermost first, [st] being
    the frames open before it. *)
Fixpoint open_frames (st : list StackFrame) (ops : list op) : list StackFrame :=
  match ops with
  | [] => st
  | Push (Some f) :: ops => open_frames (st ++ [f]) ops
  | Push None :: ops => open_frames st ops
  | Pop :: ops => open_frames (removelast st) ops
  | Clear :: ops => open_frames [] ops
  end.

(** The slots in use: [tl_stack[0 .. tl_depth)]. *)
Definition live (s : FrameStack) : list StackFrame := take (tl_depth s) (tl_stack s).

(** [tl_stack] has [tl_capacity] slots and [tl_depth] of them are in use. *)
Definition within_allocation (s : FrameStack) : Prop :=
  tl_depth s <= tl_capacity s /\ length (tl_stack s) = tl_capacity s.

(** Pushing each frame of [fs] in turn. *)
Definition pushes (fs : list StackFrame) : list op := map (fun f => Push (Some f)) fs.

End Frame.

(* ---------------------------------------------------------------------- *)
(** ** barrier.c                                                            *)
(* ---------------------------------------------------------------------- *)

Module Barrier.

Inductive StopResult : Type :=
| STOP_OK
| STOP_FROM_CALLBACK.

(** [g_barrier].  The mutex and the condition variable carry no data: only
    [barrier_stop] locks the mutex, and a thread parked in
    [pthread_cond_wait] is a thread that has not returned yet. *)
Record Barrier : Type := {
  active_callbacks : Z;
  stopping : bool;
  initialized : bool
}.

Definition g_barrier_zero : Barrier :=
  {| active_callbacks := 0; stopping := false; initialized := false |}.

Definition add_active (n : Z) (b : Barrier) : Barrier :=
  {| active_callbacks := active_callbacks b + n;
     stopping := stopping b; initialized := initialized b |}.

Definition set_stopping (f : bool) (b : Barrier) : Barrier :=
  {| active_callbacks := active_callbacks b; stopping := f; initialized := initialized b |}.

(** *** The functions as one thread runs them, undisturbed

    [depth] is the calling thread's [tl_callback_depth]. *)

(** [mutex_rc] and [cond_rc] are what [pthread_mutex_init] and
    [pthread_cond_init] return. *)
Definition barrier_init (mutex_rc cond_rc : Z) (b : Barrier) : result Barrier :=
  if initialized b then Ret b
  else
    LET _ <- REQUIRE (mutex_rc =? 0)%Z "pthread_mutex_init failed" IN
    LET _ <- REQUIRE (cond_rc =? 0)%Z "pthread_cond_init failed" IN
    Ret {| active_callbacks := 0; stopping := false; initialized := true |}.

Definition barrier_destroy (b : Barrier) : Barrier :=
  if negb (initialized b) then b
  else {| active_callbacks := active_callbacks b; stopping := stopping b;
          initialized := false |}.

Definition barrier_try_enter (b : Barrier) (depth : Z) : bool * Barrier * Z :=
  if negb (initialized b) then (false, b, depth)
  else if stopping b then (false, b, depth)
  else
    let b := add_active 1 b in
    if stopping b then (false, add_active (-1) b, depth)
    else (true, b, (depth + 1)%Z).

Definition barrier_leave (b : Barrier) (depth : Z) : result (Barrier * Z) :=
  if negb (initialized b) then Ret (b, depth)
  else
    LET _ <- REQUIRE (0 <? depth)%Z "barrier_leave without barrier_try_enter" IN
    Ret (add_active (-1) b, (depth - 1)%Z).

(** [barrier_stop] either returns, or parks the caller in
    [pthread_cond_wait] because other threads still hold sections. *)
Inductive stop_outcome : Type :=
| Stopped (r : StopResult)
| Parked.

Definition barrier_stop (b : Barrier) (depth : Z) : stop_outcome * Barrier :=
  if (0 <? depth)%Z then (Stopped STOP_FROM_CALLBACK, b)
  else if negb (initialized b) then (Stopped STOP_OK, b)
  else if stopping b then (Stopped STOP_OK, b)
  else
    let b := set_stopping true b in
    if (0 <? active_callbacks b)%Z then (Parked, b)
    else (Stopped STOP_OK, b).

Definition barrier_is_stopping (b : Barrier) : bool :=
  if negb (initialized b) then false else stopping b.

Definition barrier_active_count (b : Barrier) : Z :=
  if negb (initialized b) then 0%Z else active_callbacks b.

Definition barrier_in_callback (depth : Z) : bool := (0 <? depth)%Z.

(** [barrier_dispatch] over any program state [St] that contains the
    barrier and the caller's depth; [cb] is [None] for [nullptr]. *)
Section Dispatch.
Context {St : Type}.
Variable get_barrier : St -> Barrier * Z.
Variable set_barrier : Barrier * Z -> St -> St.

Definition barrier_dispatch (cb : option (St -> result St)) (st : St) : result St :=
  match cb with
  | None => Ret st
  | Some cb =>
      let '(b, depth) := get_barrier st in
      let '(entered, b, depth) := barrier_try_enter b depth in
      let st := set_barrier (b, depth) st in
      if entered then
        LET st <- cb st IN
        let '(b, depth) := get_barrier st in
        LET bd <- barrier_leave b depth IN
        Ret (set_barrier bd st)
      else Ret st
  end.
End Dispatch.

(** *** The functions one shared access at a time

    Every load, store and read-modify-write of [g_barrier] is one step of
    an interleaving, so the accesses happen in one total order and a load
    returns the latest store: the sequentially consistent executions of
    the code.  The [memory_order] arguments are taken up by [ra_step]
    below.  What a thread does to its own [tl_callback_depth] is folded
    into the neighbouring step. *)

Inductive enter_pc : Type :=
| E_check_initialized
| E_check_stopping
| E_increment
| E_recheck
| E_back_off.

Inductive leave_pc : Type :=
| L_check_initialized
| L_decrement
| L_signal.

Inductive stop_pc : Type :=
| S_check_depth
| S_check_initialized
| S_lock
| S_check_stopping
| S_set_stopping
| S_test_count
| S_cond_wait
| S_unlock_drained
| S_unlock_idempotent.

(** One step of [barrier_try_enter]: the next program point, or the
    returned value. *)
Definition enter_step (pc : enter_pc) (b : Barrier) (depth : Z)
  : Barrier * Z * (enter_pc + bool) :=
  match pc with
  | E_check_initialized =>
      if negb (initialized b) then (b, depth, inr false)
      else (b, depth, inl E_check_stopping)
  | E_check_stopping =>
      if stopping b then (b, depth, inr false) else (b, depth, inl E_increment)
  | E_increment => (add_active 1 b, depth, inl E_recheck)
  | E_recheck =>
      if stopping b then (b, depth, inl E_back_off)
      else (b, (depth + 1)%Z, inr true)
  | E_back_off => (add_active (-1) b, depth, inr false)
  end.

(** One step of [barrier_leave]; [None] is the abort of [REQUIRE]. *)
Definition leave_step (pc : leave_pc) (b : Barrier) (depth : Z)
  : option (Barrier * Z * (leave_pc + unit)) :=
  match pc with
  | L_check_initialized =>
      if negb (initialized b) then Some (b, depth, inr tt)
      else if (0 <? depth)%Z then Some (b, (depth - 1)%Z, inl L_decrement)
      else None
  | L_decrement => Some (add_active (-1) b, depth, inl L_signal)
  | L_signal => Some (b, depth, inr tt)
  end.

(** One step of [barrier_stop].  A thread in [pthread_cond_wait] may wake
    at any time (signalled or spuriously) and tests the counter again. *)
Definition stop_step (pc : stop_pc) (b : Barrier) (depth : Z)
  : Barrier * (stop_pc + StopResult) :=
  match pc with
  | S_check_depth =>
      if (0 <? depth)%Z then (b, inr STOP_FROM_CALLBACK) else (b, inl S_check_initialized)
  | S_check_initialized =>
      if negb (initialized b) then (b, inr STOP_OK) else (b, inl S_lock)
  | S_lock => (b, inl S_check_stopping)
  | S_check_stopping =>
      if stopping b then (b, inl S_unlock_idempotent) else (b, inl S_set_stopping)
  | S_set_stopping => (set_stopping true b, inl S_test_count)
  | S_test_count =>
      if (0 <? active_callbacks b)%Z then (b, inl S_cond_wait)
      else (b, inl S_unlock_drained)
  | S_cond_wait => (b, inl S_test_count)
  | S_unlock_drained => (b, inr STOP_OK)
  | S_unlock_idempotent => (b, inr STOP_OK)
  end.

(** A producer thread is in its own code ([Running], inside a protected
    section when its depth is positive) or inside one of the two calls. *)
Inductive activity : Type :=
| Running
| InTryEnter (pc : enter_pc)
| InLeave (pc : leave_pc).

Record producer : Type := {
  act : activity;
  depth : Z
}.

(** The stopping thread is between calls or inside [barrier_stop]. *)
Inductive stopper : Type :=
| Idle
| InStop (pc : stop_pc).

Record system : Type := {
  shared : Barrier;
  producers : list producer;
  stopping_thread : stopper;
  stopper_depth : Z
}.

(** What a step shows to an observer. *)
Inductive label : Type :=
| Tau
| TryEnterCalled (tid : nat)
| TryEnterReturned (tid : nat) (entered : bool)
| LeaveCalled (tid : nat)
| LeaveReturned (tid : nat)
| StopCalled
| StopReturned (r : StopResult).

(** What a running producer decides to call next. *)
Inductive call : Type :=
| CallTryEnter
| CallLeave.

Definition producer_step (tid : nat) (c : call) (b : Barrier) (p : producer)
  : option (label * Barrier * producer) :=
  match act p with
  | Running =>
      match c with
      | CallTryEnter =>
          Some (TryEnterCalled tid, b, {| act := InTryEnter E_check_initialized; depth := depth p |})
      | CallLeave =>
          Some (LeaveCalled tid, b, {| act := InLeave L_check_initialized; depth := depth p |})
      end
  | InTryEnter pc =>
      match enter_step pc b (depth p) with
      | (b, d, inl pc') => Some (Tau, b, {| act := InTryEnter pc'; depth := d |})
      | (b, d, inr r) => Some (TryEnterReturned tid r, b, {| act := Running; depth := d |})
      end
  | InLeave pc =>
      match leave_step pc b (depth p) with
      | Some (b, d, inl pc') => Some (Tau, b, {| act := InLeave pc'; depth := d |})
      | Some (b, d, inr _) => Some (LeaveReturned tid, b, {| act := Running; depth := d |})
      | None => None
      end
  end.

Definition stopper_step (b : Barrier) (s : stopper) (depth : Z)
  : label * Barrier * stopper :=
  match s with
  | Idle => (StopCalled, b, InStop S_check_depth)
  | InStop pc =>
      match stop_step pc b depth with
      | (b, inl pc') => (Tau, b, InStop pc')
      | (b, inr r) => (StopReturned r, b, Idle)
      end
  end.

(** One step of the interleaving: some producer moves, or the stopping
    thread does.  A step that aborts the process has no successor. *)
Inductive step : system -> label -> system -> Prop :=
| step_producer sys tid c p l b p' :
    producers sys !! tid = Some p ->
    producer_step tid c (shared sys) p = Some (l, b, p') ->
    step sys l {| shared := b; producers := <[tid := p']> (producers sys);
                  stopping_thread := stopping_thread sys;
                  stopper_depth := stopper_depth sys |}
| step_stopper sys l b s' :
    stopper_step (shared sys) (stopping_thread sys) (stopper_depth sys) = (l, b, s') ->
    step sys l {| shared := b; producers := producers sys;
                  stopping_thread := s'; stopper_depth := stopper_depth sys |}.

(** Executions and the labels they show. *)
Inductive exec : system -> list label -> system -> Prop :=
| exec_nil sys : exec sys [] sys
| exec_step sys1 sys2 sys3 l ls :
    step sys1 l sys2 -> exec sys2 ls sys3 -> exec sys1 (l :: ls) sys3.

(** [n] producers and the stopping thread right after [barrier_init]:
    nobody has entered, every [tl_callback_depth] has its initial 0. *)
Definition start (n : nat) : system :=
  {| shared := {| active_callbacks := 0; stopping := false; initialized := true |};
     producers := replicate n {| act := Running; depth := 0 |};
     stopping_thread := Idle;
     stopper_depth := 0 |}.


(** What a producer has added to [active_callbacks] and not yet taken
    back. *)
Definition held (p : producer) : Z :=
  (depth p +
   match act p with
   | InTryEnter E_recheck | InTryEnter E_back_off | InLeave L_decrement => 1
   | _ => 0
   end)%Z.

Fixpoint total_held (ps : list producer) : Z :=
  match ps with
  | [] => 0%Z
  | p :: ps => (held p + total_held ps)%Z
  end.

(** Running a call alone, to its return. *)
Fixpoint run_enter (fuel : nat) (pc : enter_pc) (b : Barrier) (depth : Z)
  : option (bool * Barrier * Z) :=
  match fuel with
  | 0 => None
  | S fuel =>
      match enter_step pc b depth with
      | (b, d, inl pc') => run_enter fuel pc' b d
      | (b, d, inr r) => Some (r, b, d)
      end
  end.

Fixpoint run_leave (fuel : nat) (pc : leave_pc) (b : Barrier) (depth : Z)
  : option (result (Barrier * Z)) :=
  match fuel with
  | 0 => None
  | S fuel =>
      match leave_step pc b depth with
      | Some (b, d, inl pc') => run_leave fuel pc' b d
      | Some (b, d, inr _) => Some (Ret (b, d))
      | None => Some (Abort "barrier_leave without barrier_try_enter")
      end
  end.

Fixpoint run_stop (fuel : nat) (pc : stop_pc) (b : Barrier) (depth : Z)
  : stop_outcome * Barrier :=
  match fuel with
  | 0 => (Parked, b)
  | S fuel =>
      match stop_step pc b depth with
      | (b, inl pc') => run_stop fuel pc' b depth
      | (b, inr r) => (Stopped r, b)
      end
  end.

(** *** Vocabulary of the barrier theorems *)

(** The stopping thread has set the flag and has not yet seen the counter
    at zero. *)
Definition draining (s : stopper) : Prop :=
  s = InStop S_test_count \/ s = InStop S_cond_wait.

(** Program points of [barrier_stop] that are only reached with the flag
    set. *)
Definition after_flag (s : stopper) : Prop :=
  s = InStop S_test_count \/ s = InStop S_cond_wait \/
  s = InStop S_unlock_drained \/ s = InStop S_unlock_idempotent.

(** No producer is inside a section or about to release one. *)
Definition drained (ps : list producer) : Prop :=
  forall p, p ∈ ps -> depth p = 0%Z /\ act p <> InLeave L_decrement.

Record invariant (sys : system) : Prop := {
  inv_count : active_callbacks (shared sys) = total_held (producers sys);
  inv_depth : forall p, p ∈ producers sys -> (0 <= depth p)%Z;
  inv_stopper_depth : stopper_depth sys = 0%Z;
  inv_initialized : initialized (shared sys) = true;
  inv_flag : after_flag (stopping_thread sys) -> stopping (shared sys) = true;
  inv_unset : stopping_thread sys = InStop S_set_stopping ->
              stopping (shared sys) = false;
  inv_drained : stopping (shared sys) = true ->
                draining (stopping_thread sys) \/ drained (producers sys)
}.


(** A stop has gone through: the flag is set, or the barrier is
    destroyed. *)
Definition stopped (b : Barrier) : Prop :=
  initialized b = false \/ stopping b = true.



(** *** Vocabulary of the barrier laws *)

(** [n] calls of [barrier_try_enter], each inside the section that the
    one before opened; [None] when one of them is refused. *)
Fixpoint enter_nested (n : nat) (b : Barrier) (depth : Z) : option (Barrier * Z) :=
  match n with
  | 0 => Some (b, depth)
  | S n =>
      match barrier_try_enter b depth with
      | (true, b, depth) => enter_nested n b depth
      | (false, _, _) => None
      end
  end.

(** [n] calls of [barrier_leave]. *)
Fixpoint leave_nested (n : nat) (b : Barrier) (depth : Z) : result (Barrier * Z) :=
  match n with
  | 0 => Ret (b, depth)
  | S n => LET (b, depth) <- barrier_leave b depth IN leave_nested n b depth
  end.

(** The protected sections that the producers have open. *)
Fixpoint open_sections (ps : list producer) : Z :=
  match ps with
  | [] => 0%Z
  | p :: ps => (depth p + open_sections ps)%Z
  end.

(** No producer is inside a call of the barrier. *)
Definition all_running (ps : list producer) : Prop :=
  forall p, p ∈ ps -> act p = Running.

(** An execution with two producers: the first opens two nested
    sections, the second one. *)
Definition busy_labels : list label :=
  [ TryEnterCalled 0; Tau; Tau; Tau; TryEnterReturned 0 true;
    TryEnterCalled 1; Tau; Tau; Tau; TryEnterReturned 1 true;
    TryEnterCalled 0; Tau; Tau; Tau; TryEnterReturned 0 true ].

Definition busy_system : system :=
  {| shared := {| active_callbacks := 3; stopping := false; initialized := true |};
     producers := [ {| act := Running; depth := 2 |}; {| act := Running; depth := 1 |} ];
     stopping_thread := Idle;
     stopper_depth := 0 |}.

(** No producer is inside a call of [barrier_try_enter]. *)
Definition none_entering (ps : list producer) : Prop :=
  forall p pc, p ∈ ps -> act p <> InTryEnter pc.

(** Two idle producers; the stopping thread has called [barrier_stop],
    set the flag, read the counter and is about to unlock. *)
Definition unlocking_labels : list label :=
  [ StopCalled; Tau; Tau; Tau; Tau; Tau; Tau ].

Definition unlocking_system : system :=
  {| shared := {| active_callbacks := 0; stopping := true; initialized := true |};
     producers := replicate 2 {| act := Running; depth := 0 |};
     stopping_thread := InStop S_unlock_drained;
     stopper_depth := 0 |}.

(** *** The accesses with the memory orders the code asks for

    [step] takes the accesses in one total order in which every load
    returns the latest store, as if each access were
    [memory_order_seq_cst].  The code asks for less: [stopping] is stored
    with [memory_order_release] and loaded with [memory_order_acquire],
    and the counter is changed by [memory_order_acq_rel]
    read-modify-writes.  Under these orders a load of [stopping] need not
    return the latest store.  A producer is sure to be given the [true]
    that [barrier_stop] stored once it has synchronised with that store:
    by an acquire load that returned it, or by a read-modify-write of the
    counter that follows the read-modify-write of a thread that had.
    Until then it may still be given the [false] that [barrier_init]
    stored.  A read-modify-write always works on the latest value of the
    counter.  The stopping thread is the only one that stores to
    [stopping], so it loads what it stored; its load of the counter is
    given the latest value, which is one of the values the orders
    allow. *)

(** [latest] holds the latest values and the threads as in [system];
    [seen] tells for every producer whether it has synchronised with the
    store of [true] to [stopping]; [counter_seen] tells whether the
    latest value of the counter was released by a thread that had. *)
Record ra_system : Type := {
  latest : system;
  seen : list bool;
  counter_seen : bool
}.

(** The values an acquire load of [stopping] may return to a producer. *)
Definition may_read (b : Barrier) (has_seen v : bool) : bool :=
  Bool.eqb v (stopping b) || (negb has_seen && negb v).

(** The program points of a producer that load [stopping], and those
    that read-modify-write the counter. *)
Definition loads_stopping (a : activity) : bool :=
  match a with
  | InTryEnter E_check_stopping | InTryEnter E_recheck | InLeave L_signal => true
  | _ => false
  end.

Definition modifies_counter (a : activity) : bool :=
  match a with
  | InTryEnter E_increment | InTryEnter E_back_off | InLeave L_decrement => true
  | _ => false
  end.

(** Whether a producer has synchronised with the store after a step at
    [a] in which a load of [stopping] is given [v].  At [L_signal] the
    code loads [stopping] only when the counter had been 1; the load is
    taken as made every time, which only withholds the old value from
    later loads. *)
Definition seen_after (a : activity) (has_seen v counter_has : bool) : bool :=
  has_seen || (loads_stopping a && v) || (modifies_counter a && counter_has).

Inductive ra_step : ra_system -> label -> ra_system -> Prop :=
| ra_step_producer rs tid c p s v l b p' :
    producers (latest rs) !! tid = Some p ->
    seen rs !! tid = Some s ->
    may_read (shared (latest rs)) s v = true ->
    producer_step tid c (set_stopping v (shared (latest rs))) p = Some (l, b, p') ->
    ra_step rs l
      {| latest := {| shared := set_stopping (stopping (shared (latest rs))) b;
                      producers := <[tid := p']> (producers (latest rs));
                      stopping_thread := stopping_thread (latest rs);
                      stopper_depth := stopper_depth (latest rs) |};
         seen := <[tid := seen_after (act p) s v (counter_seen rs)]> (seen rs);
         counter_seen :=
           counter_seen rs ||
           (modifies_counter (act p) && seen_after (act p) s v (counter_seen rs)) |}
| ra_step_stopper rs l b s' :
    stopper_step (shared (latest rs)) (stopping_thread (latest rs))
      (stopper_depth (latest rs)) = (l, b, s') ->
    ra_step rs l
      {| latest := {| shared := b; producers := producers (latest rs);
                      stopping_thread := s';
                      stopper_depth := stopper_depth (latest rs) |};
         seen := seen rs;
         counter_seen := counter_seen rs |}.

Inductive ra_exec : ra_system -> list label -> ra_system -> Prop :=
| ra_exec_nil rs : ra_exec rs [] rs
| ra_exec_step rs1 rs2 rs3 l ls :
    ra_step rs1 l rs2 -> ra_exec rs2 ls rs3 -> ra_exec rs1 (l :: ls) rs3.





End Barrier.

(* ---------------------------------------------------------------------- *)
(** ** callback.c                                                           *)
(* ---------------------------------------------------------------------- *)

Module Callback.


Record RawCallEvent : Type := {
  callee_file : option Interning.handle;
  callee_line : Z;
  callee_func : option Interning.handle;
  caller_file : option Interning.handle;
  caller_line : Z;
  caller_func : option Interning.handle;
  call_thread_id : Z;
  call_coro_id : Z;
  call_timestamp_ns : Z
}.

Record RawReturnEvent : Type := {
  ret_file : option Interning.handle;
  ret_line : Z;
  ret_func : option Interning.handle;
  ret_thread_id : Z;
  ret_timestamp_ns : Z;
  has_exception : bool
}.

Record RawCreateEvent : Type := {
  create_obj_id : Z;
  create_type_name : option Interning.handle;
  create_file : option Interning.handle;
  create_line : Z;
  create_func : option Interning.handle;
  create_thread_id : Z;
  create_timestamp_ns : Z
}.

Record RawDestroyEvent : Type := {
  destroy_obj_id : Z;
  destroy_type_name : option Interning.handle;
  destroy_thread_id : Z;
  destroy_timestamp_ns : Z
}.

(** [RawEvent]: the kind and the member of the union that goes with it. *)
Inductive RawEvent : Type :=
| RawCall (data : RawCallEvent)
| RawReturn (data : RawReturnEvent)
| RawCreate (data : RawCreateEvent)
| RawDestroy (data : RawDestroyEvent).


(** An [EventCallback] is a function pointer, [user_data] an address. *)
Definition EventCallback : Type := nat.

(** The globals of callback.c with the modules they drive, as the calling
    thread sees them.  [delivered] is not in the source: it records every
    call of the registered callback. *)
Record state : Type := {
  g_callback : option EventCallback;
  g_user_data : Z;
  g_active : bool;
  g_table : Interning.StringTable;
  g_barrier : Barrier.Barrier;
  tl_callback_depth : Z;
  delivered : list (EventCallback * RawEvent * Z)
}.

Definition get_barrier (st : state) : Barrier.Barrier * Z :=
  (g_barrier st, tl_callback_depth st).

Definition set_barrier (bd : Barrier.Barrier * Z) (st : state) : state :=
  {| g_callback := g_callback st; g_user_data := g_user_data st;
     g_active := g_active st; g_table := g_table st;
     g_barrier := fst bd; tl_callback_depth := snd bd;
     delivered := delivered st |}.

Definition record_delivery (cb : EventCallback) (event : RawEvent) (st : state) : state :=
  {| g_callback := g_callback st; g_user_data := g_user_data st;
     g_active := g_active st; g_table := g_table st;
     g_barrier := g_barrier st; tl_callback_depth := tl_callback_depth st;
     delivered := delivered st ++ [(cb, event, g_user_data st)] |}.

Section WithCallbacks.

(** What the code behind a callback pointer does; it may call back into
    this module. *)
Variable invoke : EventCallback -> RawEvent -> Z -> state -> result state.

Definition dispatch_wrapper (ctx_event : option RawEvent) (st : state) : result state :=
  match g_callback st, ctx_event with
  | Some cb, Some event => invoke cb event (g_user_data st) (record_delivery cb event st)
  | _, _ => Ret st
  end.

Definition tracking_start (cb : option EventCallback) (user_data : Z)
    (table_mutex_rc barrier_mutex_rc barrier_cond_rc : Z)
    (st : state) (h : heap) : result (state * heap) :=
  LET (T, h) <- Interning.string_table_init 0 table_mutex_rc (g_table st) h IN
  LET b <- Barrier.barrier_init barrier_mutex_rc barrier_cond_rc (g_barrier st) IN
  Ret ({| g_callback := cb; g_user_data := user_data; g_active := true;
          g_table := T; g_barrier := b;
          tl_callback_depth := tl_callback_depth st;
          delivered := delivered st |}, h).

Definition tracking_stop (st : state) : Barrier.stop_outcome * state :=
  if negb (g_active st) then (Barrier.Stopped Barrier.STOP_OK, st)
  else
    match Barrier.barrier_stop (g_barrier st) (tl_callback_depth st) with
    | (Barrier.Stopped Barrier.STOP_OK, b) =>
        (Barrier.Stopped Barrier.STOP_OK,
         {| g_callback := None; g_user_data := 0; g_active := false;
            g_table := Interning.string_table_destroy (g_table st);
            g_barrier := Barrier.barrier_destroy b;
            tl_callback_depth := tl_callback_depth st;
            delivered := delivered st |})
    | (r, b) => (r, set_barrier (b, tl_callback_depth st) st)
    end.

Definition tracking_is_active (st : state) : bool := g_active st.

Definition tracking_dispatch (event : option RawEvent) (st : state) : result state :=
  match event with
  | None => Ret st
  | Some event =>
      if negb (g_active st) then Ret st
      else
        Barrier.barrier_dispatch get_barrier set_barrier
          (Some (dispatch_wrapper (Some event))) st
  end.

End WithCallbacks.

(** *** Vocabulary of the callback laws *)

(** The events of a list dispatched one after the other. *)
Fixpoint dispatch_all (invoke : EventCallback -> RawEvent -> Z -> state -> result state)
    (events : list RawEvent) (st : state) : result state :=
  match events with
  | [] => Ret st
  | event :: events =>
      LET st <- tracking_dispatch invoke (Some event) st IN
      dispatch_all invoke events st
  end.

(** [st'] differs from [st] in the string table at most. *)
Definition same_but_table (st st' : state) : Prop :=
  g_callback st' = g_callback st /\ g_user_data st' = g_user_data st /\
  g_active st' = g_active st /\ g_barrier st' = g_barrier st /\
  tl_callback_depth st' = tl_callback_depth st /\ delivered st' = delivered st.

(** Callbacks that return and call nothing of this module but
    [string_intern]. *)
Definition plain_callbacks
    (invoke : EventCallback -> RawEvent -> Z -> state -> result state) : Prop :=
  forall cb event user_data st,
    exists st', invoke cb event user_data st = Ret st' /\ same_but_table st st'.

(** A session is running and takes events from a thread outside any
    section. *)
Definition dispatching (st : state) : Prop :=
  g_active st = true /\
  Barrier.initialized (g_barrier st) = true /\
  Barrier.stopping (g_barrier st) = false /\
  (0 <= tl_callback_depth st)%Z.

(** The globals of callback.c before the first [tracking_start]. *)
Definition state_zero : state :=
  {| g_callback := None; g_user_data := 0; g_active := false;
     g_table := Interning.g_table_zero; g_barrier := Barrier.g_barrier_zero;
     tl_callback_depth := 0; delivered := [] |}.

(** A callback that does nothing. *)
Definition no_op : EventCallback -> RawEvent -> Z -> state -> result state :=
  fun _ _ _ st => Ret st.

Definition sample_event (n : Z) : RawEvent :=
  RawDestroy {| destroy_obj_id := n; destroy_type_name := None;
                destroy_thread_id := 1; destroy_timestamp_ns := n |}.

End Callback.

(* ---------------------------------------------------------------------- *)
(** ** context.c                                                            *)
(* ---------------------------------------------------------------------- *)

Module Context.

Local Open Scope Z_scope.

Definition NANOS_PER_SECOND : Z := 1000000000.

(** [(uint64_t)x] of a signed 64-bit [x], and arithmetic in [uint64_t]. *)
Definition to_uint64 (x : Z) : Z := x mod 2 ^ 64.

(** [struct timespec] as [clock_gettime(CLOCK_MONOTONIC, &ts)] fills it. *)
Record timespec : Type := {
  tv_sec : Z;
  tv_nsec : Z
}.

(** [self] is what [pthread_self()] returns. *)
Definition context_thread_id (self : Z) : Z := to_uint64 self.

(** [ts] is what the clock reads. *)
Definition context_timestamp_ns (ts : timespec) : Z :=
  to_uint64 (to_uint64 (tv_sec ts) * NANOS_PER_SECOND + to_uint64 (tv_nsec ts)).

(** [context_task_id] of _tracking.c, a stub. *)
Definition context_task_id : Z := 0.

(** *** Vocabulary of the clock law *)

(** A reading of the monotonic clock: the nanoseconds are below a
    second, and the seconds are few enough for the nanosecond count to
    fit 64 bits (some 584 years of uptime). *)
Definition reading (ts : timespec) : Prop :=
  0 <= tv_sec ts < 18446744073 /\ 0 <= tv_nsec ts < NANOS_PER_SECOND.

(** [a] is read before [b]. *)
Definition earlier (a b : timespec) : Prop :=
  tv_sec a < tv_sec b \/ (tv_sec a = tv_sec b /\ tv_nsec a < tv_nsec b).

End Context.

(* ---------------------------------------------------------------------- *)
(** ** _tracking.c with tracking/types.h, memory.h, events.h, constants.h   *)
(* ---------------------------------------------------------------------- *)

Module Tracking.

Definition MAX_TRACEBACK_DEPTH : Z := 16.
Definition MAX_ARGS : nat := 8.
Definition MAX_STACK_DEPTH : Z := 256.
Definition INITIAL_EVENTS_CAPACITY : Z := 4096.

(** [FrameInfo]: the strings by content, [None] for [nullptr].  The
    content is what the code reads through a [char*] as long as the
    string it points to has not been freed; the strings of the records
    are freed by [free_events] only, in [py_start] and [py_stop]. *)
Record FrameInfo : Type := {
  file : option string;
  line : Z;
  func : option string
}.

Definition FrameInfo_zero : FrameInfo := {| file := None; line := 0; func := None |}.

Record FieldError : Type := {
  field : string;
  exc_type : string;
  exc_msg : string
}.

(** [traceback] lists the [MAX_TRACEBACK_DEPTH] slots of the array. *)
Record CreationInfo : Type := {
  location : FrameInfo;
  traceback : list FrameInfo;
  traceback_depth : Z;
  type_name_ref : option string
}.

Definition CreationInfo_zero : CreationInfo :=
  {| location := FrameInfo_zero;
     traceback := replicate (Z.to_nat MAX_TRACEBACK_DEPTH) FrameInfo_zero;
     traceback_depth := 0;
     type_name_ref := None |}.

Record ArgInfo : Type := {
  name_owned : option string;
  id : Z;
  type_ref : option string
}.

Inductive EventType : Type :=
| EVENT_CALL
| EVENT_RETURN
| EVENT_CREATE
| EVENT_DESTROY.

(** [Event]: [args] and [errors] list the first [arg_count] and
    [error_count] slots of their arrays; [creation_info] is the owned heap
    copy, [None] for [nullptr]. *)
Record Event : Type := {
  type : EventType;
  obj_id : Z;
  ev_type_name_ref : option string;
  ev_location : FrameInfo;
  caller : FrameInfo;
  args : list ArgInfo;
  creation_info : option CreationInfo;
  errors : list FieldError
}.

(** [memset(ev, 0, sizeof(Event))]. *)
Definition Event_zero : Event :=
  {| type := EVENT_CALL; obj_id := 0; ev_type_name_ref := None;
     ev_location := FrameInfo_zero; caller := FrameInfo_zero;
     args := []; creation_info := None; errors := [] |}.

(** The process-wide state.  [events] lists [events[0 .. events_count)];
    the [events] pointer is [nullptr] exactly when [events_capacity] is 0.
    [barrier] is the [g_barrier] of barrier.c. *)
Record Globals : Type := {
  obj_creation_map : gmap Z CreationInfo;
  events : list Event;
  events_capacity : Z;
  tracking_active : Z;
  barrier : Barrier.Barrier
}.

(** The thread-local state of the calling thread; [call_stack] lists the
    [MAX_STACK_DEPTH] slots of the array. *)
Record Locals : Type := {
  call_stack : list FrameInfo;
  stack_depth : Z;
  tl_callback_depth : Z
}.

Definition events_count (g : Globals) : Z := Z.of_nat (length (events g)).

Definition set_events (evs : list Event) (cap : Z) (g : Globals) : Globals :=
  {| obj_creation_map := obj_creation_map g; events := evs; events_capacity := cap;
     tracking_active := tracking_active g; barrier := barrier g |}.

Definition set_map (m : gmap Z CreationInfo) (g : Globals) : Globals :=
  {| obj_creation_map := m; events := events g; events_capacity := events_capacity g;
     tracking_active := tracking_active g; barrier := barrier g |}.

Definition set_active (a : Z) (g : Globals) : Globals :=
  {| obj_creation_map := obj_creation_map g; events := events g;
     events_capacity := events_capacity g;
     tracking_active := a; barrier := barrier g |}.

Definition set_barrier (b : Barrier.Barrier) (g : Globals) : Globals :=
  {| obj_creation_map := obj_creation_map g; events := events g;
     events_capacity := events_capacity g;
     tracking_active := tracking_active g; barrier := b |}.

Definition set_callback_depth (d : Z) (l : Locals) : Locals :=
  {| call_stack := call_stack l; stack_depth := stack_depth l; tl_callback_depth := d |}.

Definition call_stack_at (l : Locals) (i : Z) : FrameInfo :=
  default FrameInfo_zero (call_stack l !! Z.to_nat i).

(** *** The creation map

    Modelled from the spec: the hash table [creation_map] is generated by
    [vendor/verstable.h], which is not among the sources.  After section
    4.4 it is a map from object identity to CreationInfo in which
    inserting at a present identity overwrites the entry; as the caller
    tests [vt_is_end] after [vt_insert], the insertion can fail for lack
    of memory and then leaves the map as it was. *)

Definition vt_insert (m : gmap Z CreationInfo) (key : Z) (val : CreationInfo) (h : heap)
  : bool * gmap Z CreationInfo * heap :=
  let '(ok, h) := alloc h in
  if ok then (true, <[key := val]> m, h) else (false, m, h).

Definition vt_get (m : gmap Z CreationInfo) (key : Z) : option CreationInfo := m !! key.

Definition vt_erase (m : gmap Z CreationInfo) (key : Z) : gmap Z CreationInfo :=
  delete key m.

(** *** Event registry *)

(** [while (new_capacity < events_count + needed) new_capacity *= 2]. *)
Fixpoint double_until (fuel : nat) (new_capacity target : Z) : Z :=
  if (new_capacity <? target)%Z then
    match fuel with
    | 0 => new_capacity
    | S fuel => double_until fuel (new_capacity * 2) target
    end
  else new_capacity.

Definition ensure_events_capacity (needed : Z) (g : Globals) (h : heap)
  : bool * Globals * heap :=
  if (events_count g + needed <=? events_capacity g)%Z then (true, g, h)
  else
    let new_capacity :=
      if (events_capacity g =? 0)%Z then INITIAL_EVENTS_CAPACITY
      else (events_capacity g * 2)%Z in
    let new_capacity :=
      double_until (Z.to_nat (events_count g + needed)) new_capacity
                   (events_count g + needed) in
    let '(ok, h) := alloc h in
    if negb ok then (false, g, h)
    else (true, set_events (events g) new_capacity g, h).

Definition free_events (g : Globals) : Globals := set_events [] 0 g.

(** [events[events_count++]] filled with [ev]. *)
Definition append_event (ev : Event) (g : Globals) : Globals :=
  set_events (events g ++ [ev]) (events_capacity g) g.

(** *** memory.h and events.h *)

Definition strdup (s : option string) (h : heap) : option string * heap :=
  match s with
  | None => (None, h)
  | Some s => let '(ok, h) := alloc h in (if ok then Some s else None, h)
  end.

Definition copy_frame_info (src : option FrameInfo) (dst : FrameInfo) (h : heap)
  : FrameInfo * heap :=
  match src with
  | None => (dst, h)
  | Some src =>
      let '(f, h) := strdup (file src) h in
      let '(fn, h) := strdup (func src) h in
      ({| file := f; line := line src; func := fn |}, h)
  end.

(** What the host values of a call translate to: the results of
    [copy_utf8] on the code object's names, the first line, the local
    slots of the declared arguments ([None] for a null slot) and the
    errors captured on the way. *)
Record CallView : Type := {
  co_filename : option string;
  co_firstlineno : Z;
  co_qualname : option string;
  arg_slots : list (option ArgInfo);
  captured : list FieldError
}.

Definition top_of_stack (l : Locals) : option FrameInfo :=
  if (0 <? stack_depth l)%Z then Some (call_stack_at l (stack_depth l - 1)) else None.

Definition fill_call_event (code : CallView) (caller_frame : option FrameInfo) (h : heap)
  : Event * heap :=
  let '(c, h) := copy_frame_info caller_frame FrameInfo_zero h in
  ({| type := EVENT_CALL; obj_id := 0; ev_type_name_ref := None;
      ev_location := {| file := co_filename code; line := co_firstlineno code;
                        func := co_qualname code |};
      caller := c;
      args := omap (fun a => a) (take MAX_ARGS (arg_slots code));
      creation_info := None;
      errors := captured code |}, h).

(** [res] is the returned object with its type name, [None] for
    [nullptr]. *)
Definition fill_return_event (loc : FrameInfo) (res : option (Z * option string))
    (h : heap) : Event * heap :=
  let '(loc, h) := copy_frame_info (Some loc) FrameInfo_zero h in
  ({| type := EVENT_RETURN;
      obj_id := match res with Some (o, _) => o | None => 0 end;
      ev_type_name_ref := match res with Some (_, t) => t | None => None end;
      ev_location := loc; caller := FrameInfo_zero;
      args := []; creation_info := None; errors := [] |}, h).

Definition fill_create_event (obj : Z) (type_name : option string) (l : Locals) (h : heap)
  : Event * heap :=
  let '(loc, h) := copy_frame_info (top_of_stack l) FrameInfo_zero h in
  ({| type := EVENT_CREATE; obj_id := obj; ev_type_name_ref := type_name;
      ev_location := loc; caller := FrameInfo_zero;
      args := []; creation_info := None; errors := [] |}, h).

Definition fill_destroy_event (obj : Z) (type_name : option string) (l : Locals)
    (creation_copy : option CreationInfo) (h : heap) : Event * heap :=
  let '(loc, h) := copy_frame_info (top_of_stack l) FrameInfo_zero h in
  ({| type := EVENT_DESTROY; obj_id := obj; ev_type_name_ref := type_name;
      ev_location := loc; caller := FrameInfo_zero;
      args := []; creation_info := creation_copy; errors := [] |}, h).

(** *** PyRefTracer handlers *)

(** The [for] loop that captures the traceback: slot [i] takes
    [call_stack[stack_depth - 1 - i]]. *)
Definition capture_traceback (l : Locals) (depth : Z) (tb : list FrameInfo)
  : list FrameInfo :=
  fold_left
    (fun tb i => <[i := call_stack_at l (stack_depth l - 1 - Z.of_nat i)]> tb)
    (seq 0 (Z.to_nat depth)) tb.

(** What [handle_ref_create] writes through [itr.data->val]. *)
Definition capture_creation (type_name : option string) (l : Locals) (info : CreationInfo)
  : CreationInfo :=
  if (0 <? stack_depth l)%Z then
    let depth :=
      if (stack_depth l <? MAX_TRACEBACK_DEPTH)%Z then stack_depth l
      else MAX_TRACEBACK_DEPTH in
    {| location := call_stack_at l (stack_depth l - 1);
       traceback := capture_traceback l depth (traceback info);
       traceback_depth := depth;
       type_name_ref := type_name |}
  else
    {| location := location info; traceback := traceback info;
       traceback_depth := traceback_depth info; type_name_ref := type_name |}.

Definition handle_ref_create (obj : Z) (type_name : option string)
    (g : Globals) (l : Locals) (h : heap) : Globals * heap :=
  let empty_info := CreationInfo_zero in
  let '(inserted, m, h) := vt_insert (obj_creation_map g) obj empty_info h in
  let m := if inserted then <[obj := capture_creation type_name l empty_info]> m else m in
  let g := set_map m g in
  let '(ok, g, h) := ensure_events_capacity 1 g h in
  if negb ok then (g, h)
  else
    let '(ev, h) := fill_create_event obj type_name l h in
    (append_event ev g, h).

Definition handle_ref_destroy (obj : Z) (type_name : option string)
    (g : Globals) (l : Locals) (h : heap) : Globals * heap :=
  let creation_info := vt_get (obj_creation_map g) obj in
  let '(creation_copy, h) :=
    match creation_info with
    | Some info => let '(ok, h) := alloc h in (if ok then Some info else None, h)
    | None => (None, h)
    end in
  let '(ok, g, h) := ensure_events_capacity 1 g h in
  let '(g, h) :=
    if ok then
      let '(ev, h) := fill_destroy_event obj type_name l creation_copy h in
      (append_event ev g, h)
    else (g, h) in
  let g :=
    match creation_info with
    | Some _ => set_map (vt_erase (obj_creation_map g) obj) g
    | None => g
    end in
  (g, h).

Inductive PyRefTracerEvent : Type :=
| PyRefTracer_CREATE
| PyRefTracer_DESTROY.

Definition leave_barrier (g : Globals) (l : Locals) : result (Globals * Locals) :=
  LET (b, d) <- Barrier.barrier_leave (barrier g) (tl_callback_depth l) IN
  Ret (set_barrier b g, set_callback_depth d l).

Definition try_enter_barrier (g : Globals) (l : Locals) : bool * Globals * Locals :=
  let '(entered, b, d) := Barrier.barrier_try_enter (barrier g) (tl_callback_depth l) in
  (entered, set_barrier b g, set_callback_depth d l).

Definition ref_tracer_callback (event : PyRefTracerEvent) (obj : Z)
    (type_name : option string) (g : Globals) (l : Locals) (h : heap)
  : result (Globals * Locals * heap) :=
  if (tracking_active g =? 0)%Z then Ret (g, l, h)
  else
    let '(entered, g, l) := try_enter_barrier g l in
    if negb entered then Ret (g, l, h)
    else
      let '(g, h) :=
        match event with
        | PyRefTracer_CREATE => handle_ref_create obj type_name g l h
        | PyRefTracer_DESTROY => handle_ref_destroy obj type_name g l h
        end in
      LET (g, l) <- leave_barrier g l IN
      Ret (g, l, h).

(** *** Frame eval hook *)

(** Whether [tracking_frame_evaluator] reached its CALL record: then the
    location it saved, otherwise it went to [call_original]. *)
Inductive entry : Type :=
| Recorded (saved_location : FrameInfo)
| Skipped.

(** [tracking_frame_evaluator] up to the call of the original evaluator.
    [code] is [None] when [f_executable] is null or not a code object. *)
Definition before_original_eval (code : option CallView)
    (g : Globals) (l : Locals) (h : heap) : result (entry * Globals * Locals * heap) :=
  if (tracking_active g =? 0)%Z then Ret (Skipped, g, l, h)
  else
    let '(entered, g, l) := try_enter_barrier g l in
    if negb entered then Ret (Skipped, g, l, h)
    else
      match code with
      | None => LET (g, l) <- leave_barrier g l IN Ret (Skipped, g, l, h)
      | Some code =>
          let '(ok, g, h) := ensure_events_capacity 2 g h in
          if negb ok then LET (g, l) <- leave_barrier g l IN Ret (Skipped, g, l, h)
          else
            let '(call_event, h) := fill_call_event code (top_of_stack l) h in
            let g := append_event call_event g in
            let l :=
              if (stack_depth l <? MAX_STACK_DEPTH)%Z then
                {| call_stack := <[Z.to_nat (stack_depth l) := ev_location call_event]>
                                   (call_stack l);
                   stack_depth := stack_depth l + 1;
                   tl_callback_depth := tl_callback_depth l |}
              else l in
            let saved_location := ev_location call_event in
            LET (g, l) <- leave_barrier g l IN
            Ret (Recorded saved_location, g, l, h)
      end.

(** [tracking_frame_evaluator] after the original evaluator returned
    [res], on the path that recorded the CALL. *)
Definition after_original_eval (saved_location : FrameInfo)
    (res : option (Z * option string))
    (g : Globals) (l : Locals) (h : heap) : result (Globals * Locals * heap) :=
  let l :=
    if (0 <? stack_depth l)%Z then
      {| call_stack := call_stack l; stack_depth := stack_depth l - 1;
         tl_callback_depth := tl_callback_depth l |}
    else l in
  let '(entered, g, l) := try_enter_barrier g l in
  if negb entered then Ret (g, l, h)
  else if (tracking_active g =? 0)%Z || (events_capacity g =? 0)%Z then
    LET (g, l) <- leave_barrier g l IN Ret (g, l, h)
  else
    let '(ok, g, h) := ensure_events_capacity 1 g h in
    if negb ok then LET (g, l) <- leave_barrier g l IN Ret (g, l, h)
    else
      let '(ret_event, h) := fill_return_event saved_location res h in
      let g := append_event ret_event g in
      LET (g, l) <- leave_barrier g l IN
      Ret (g, l, h).


(** *** Python API *)

Inductive py_result : Type :=
| Py_None
| Py_RuntimeError (msg : string)
| Py_NoMemory
| Py_Result (handed_over : list Event).

(** A call returns, or its thread is parked inside [barrier_stop]. *)
Inductive py_outcome : Type :=
| Returns (r : py_result)
| ParkedInStop.

(** [tracer_rc] is what [PyRefTracer_SetTracer] returns. *)
Definition py_start (barrier_mutex_rc barrier_cond_rc tracer_rc : Z)
    (g : Globals) (l : Locals) : result (py_result * Globals * Locals) :=
  if negb (tracking_active g =? 0)%Z then Ret (Py_RuntimeError "Already started", g, l)
  else
    let g := free_events g in
    let g := set_map ∅ g in
    let l := {| call_stack := call_stack l; stack_depth := 0;
                tl_callback_depth := tl_callback_depth l |} in
    LET b <- Barrier.barrier_init barrier_mutex_rc barrier_cond_rc (barrier g) IN
    let g := set_barrier b g in
    if negb (tracer_rc =? 0)%Z then Ret (Py_RuntimeError "Failed to set tracer", g, l)
    else Ret (Py_None, set_active 1 g, l).

(** [encoder_ok] tells whether the result dictionary and list could be
    created. *)
Definition py_stop (encoder_ok : bool) (g : Globals) (l : Locals)
  : py_outcome * Globals :=
  if (tracking_active g =? 0)%Z then (Returns (Py_RuntimeError "Not started"), g)
  else
    let g := set_active 0 g in
    match Barrier.barrier_stop (barrier g) (tl_callback_depth l) with
    | (Barrier.Parked, b) => (ParkedInStop, set_barrier b g)
    | (Barrier.Stopped Barrier.STOP_FROM_CALLBACK, b) =>
        (Returns (Py_RuntimeError "Cannot stop() from tracked callback"),
         set_active 1 (set_barrier b g))
    | (Barrier.Stopped Barrier.STOP_OK, b) =>
        let g := set_barrier (Barrier.barrier_destroy b) g in
        let handed_over := events g in
        let g := set_map ∅ (free_events g) in
        (Returns (if encoder_ok then Py_Result handed_over else Py_NoMemory), g)
    end.

Definition py_count (g : Globals) : Z := events_count g.

Definition py_is_active (g : Globals) : bool := negb (tracking_active g =? 0)%Z.

(** *** Workers and the hooks they run

    With the interpreter lock held a hook runs from its start to its end
    (or to the call of the original evaluator) before another hook starts.
    The state of the process is the globals, the thread-local state of
    every worker and the allocator oracle. *)

Record process : Type := {
  globals : Globals;
  locals : nat -> Locals;
  memory : heap
}.

Inductive hook : Type :=
| FrameEnter (code : option CallView)
| FrameExit (saved_location : FrameInfo) (res : option (Z * option string))
| RefTrace (event : PyRefTracerEvent) (obj : Z) (type_name : option string).

Definition set_locals (tid : nat) (l : Locals) (ls : nat -> Locals) : nat -> Locals :=
  fun t => if Nat.eqb t tid then l else ls t.

Definition run_hook (tid : nat) (k : hook) (p : process) : result (entry * process) :=
  let g := globals p in
  let l := locals p tid in
  let h := memory p in
  match k with
  | FrameEnter code =>
      LET (e, g, l, h) <- before_original_eval code g l h IN
      Ret (e, {| globals := g; locals := set_locals tid l (locals p); memory := h |})
  | FrameExit saved_location r =>
      LET (g, l, h) <- after_original_eval saved_location r g l h IN
      Ret (Skipped, {| globals := g; locals := set_locals tid l (locals p); memory := h |})
  | RefTrace event obj type_name =>
      LET (g, l, h) <- ref_tracer_callback event obj type_name g l h IN
      Ret (Skipped, {| globals := g; locals := set_locals tid l (locals p); memory := h |})
  end.

(** A run of hooks, each by the worker named with it; the result lists
    what every hook reported. *)
Fixpoint run_hooks (ks : list (nat * hook)) (p : process)
  : result (list entry * process) :=
  match ks with
  | [] => Ret ([], p)
  | (tid, k) :: ks =>
      LET (e, p) <- run_hook tid k p IN
      LET (es, p) <- run_hooks ks p IN
      Ret (e :: es, p)
  end.

End Tracking.

(* ---------------------------------------------------------------------- *)
(** ** Vocabulary of the session theorems                                   *)
(* ---------------------------------------------------------------------- *)

Module TrackingSpec.
Import Tracking.

(** A hook of this worker is let into a protected section: the session is
    active, the barrier takes entries, and the worker's nesting depth is
    its count of open sections. *)
Definition accepting (g : Globals) (l : Locals) : Prop :=
  tracking_active g <> 0%Z /\
  Barrier.initialized (barrier g) = true /\
  Barrier.stopping (barrier g) = false /\
  (0 <= tl_callback_depth l)%Z.


(** The log after a hook: as before, or one record longer. *)
Definition dropped (before after : Globals) : Prop :=
  events after = events before.


(** The log is full for [needed] more records. *)
Definition no_room (needed : Z) (g : Globals) : Prop :=
  (events_capacity g < events_count g + needed)%Z.

(** The log is full and the oracle answers no to the [realloc] of the
    hook: the first allocation of the frame hook, the one after the map
    insertion on CREATE, the one after the copy of a found entry on
    DESTROY. *)
Definition growth_refused (k : hook) (g : Globals) (h : heap) : Prop :=
  match k with
  | FrameEnter _ => no_room 2 g /\ fst (alloc h) = false
  | FrameExit _ _ => no_room 1 g /\ fst (alloc h) = false
  | RefTrace PyRefTracer_CREATE _ _ =>
      no_room 1 g /\ fst (alloc (snd (alloc h))) = false
  | RefTrace PyRefTracer_DESTROY obj _ =>
      no_room 1 g /\
      match obj_creation_map g !! obj with
      | Some _ => fst (alloc (snd (alloc h))) = false
      | None => fst (alloc h) = false
      end
  end.


(** Recorded Calls minus Returns of worker [tid], counted from [n], along
    a run of hooks [ks] that reported [es]. *)
Fixpoint nesting_from (tid : nat) (n : Z) (ks : list (nat * hook)) (es : list entry) : Z :=
  match ks, es with
  | (t, k) :: ks, e :: es =>
      if Nat.eqb t tid then
        match k, e with
        | FrameEnter _, Recorded _ => nesting_from tid (n + 1) ks es
        | FrameExit _ _, _ => nesting_from tid (n - 1) ks es
        | _, _ => nesting_from tid n ks es
        end
      else nesting_from tid n ks es
  | _, _ => n
  end.

(** Along the run the nesting of worker [tid] stays within
    [MAX_STACK_DEPTH], and no Return comes without its Call. *)
Fixpoint within_bound_from (tid : nat) (n : Z) (ks : list (nat * hook)) (es : list entry)
  : Prop :=
  match ks, es with
  | (t, k) :: ks, e :: es =>
      if Nat.eqb t tid then
        match k, e with
        | FrameEnter _, Recorded _ =>
            (n < MAX_STACK_DEPTH)%Z /\ within_bound_from tid (n + 1) ks es
        | FrameExit _ _, _ => (0 < n)%Z /\ within_bound_from tid (n - 1) ks es
        | _, _ => within_bound_from tid n ks es
        end
      else within_bound_from tid n ks es
  | _, _ => True
  end.

(** No hook of the run is a CREATE or DESTROY notification for [obj]. *)
Definition untouched (obj : Z) (ks : list (nat * hook)) : Prop :=
  forall tid event o type_name, (tid, RefTrace event o type_name) ∈ ks -> o <> obj.

(** No hook of the run is a CREATE notification for [obj]. *)
Definition never_created (obj : Z) (ks : list (nat * hook)) : Prop :=
  forall tid o type_name, (tid, RefTrace PyRefTracer_CREATE o type_name) ∈ ks -> o <> obj.

(** The process right after a successful [py_start] by worker 0, with the
    zeroed statics it starts from. *)
Definition Globals_zero : Globals :=
  {| obj_creation_map := ∅; events := []; events_capacity := 0;
     tracking_active := 0; barrier := Barrier.g_barrier_zero |}.

Definition Locals_zero : Locals :=
  {| call_stack := replicate (Z.to_nat MAX_STACK_DEPTH) FrameInfo_zero;
     stack_depth := 0; tl_callback_depth := 0 |}.

Definition started : Globals :=
  match py_start 0 0 0 Globals_zero Locals_zero with
  | Ret (_, g, _) => g
  | Abort _ => Globals_zero
  end.

Definition started_process (h : heap) : process :=
  {| globals := started; locals := fun _ => Locals_zero; memory := h |}.

(** A call that every worker of the examples makes. *)
Definition sample_call : CallView :=
  {| co_filename := Some "app.py"%string; co_firstlineno := 3;
     co_qualname := Some "f"%string; arg_slots := []; captured := [] |}.

(** Worker 0 calls, creates an object, returns and sees it destroyed. *)
Definition sample_hooks : list (nat * hook) :=
  [ (0%nat, FrameEnter (Some sample_call));
    (0%nat, RefTrace PyRefTracer_CREATE 16 (Some "int"%string));
    (0%nat, FrameExit {| file := Some "app.py"%string; line := 3;
                         func := Some "f"%string |} None);
    (0%nat, RefTrace PyRefTracer_DESTROY 16 (Some "int"%string)) ].

Definition sample_run : list entry * process :=
  match run_hooks sample_hooks (started_process []) with
  | Ret r => r
  | Abort _ => ([], started_process [])
  end.

(** The process after the CALL of [sample_hooks], about to see the
    CREATE. *)
Definition sample_called : process :=
  match run_hooks (take 1 sample_hooks) (started_process []) with
  | Ret (_, p) => p
  | Abort _ => started_process []
  end.

(** The process after the CALL and the CREATE of [sample_hooks]. *)
Definition sample_created : process :=
  match run_hooks (take 2 sample_hooks) (started_process []) with
  | Ret (_, p) => p
  | Abort _ => started_process []
  end.

End TrackingSpec.

(* ---------------------------------------------------------------------- *)
(** ** Sample sessions                                                      *)
(* ---------------------------------------------------------------------- *)

Module Samples.
Import Tracking TrackingSpec.

Local Open Scope Z_scope.

(** A callback-module session that is active, seen from a thread inside a
    dispatched handler. *)
Definition in_handler : Callback.state :=
  {| Callback.g_callback := Some 7%nat; Callback.g_user_data := 0;
     Callback.g_active := true;
     Callback.g_table := Interning.sample_table;
     Callback.g_barrier := {| Barrier.active_callbacks := 1; Barrier.stopping := false;
                              Barrier.initialized := true |};
     Callback.tl_callback_depth := 1;
     Callback.delivered := [] |}.

(** A session of callback.c that is active, seen from outside any
    handler. *)
Definition outside_handler : Callback.state :=
  {| Callback.g_callback := Some 7%nat; Callback.g_user_data := 0;
     Callback.g_active := true;
     Callback.g_table := Interning.sample_table;
     Callback.g_barrier := barrier started;
     Callback.tl_callback_depth := 0;
     Callback.delivered := [] |}.

(** The started session of _tracking.c, seen from a thread inside a
    protected section. *)
Definition inside_section : Locals :=
  {| call_stack := call_stack Locals_zero; stack_depth := 0; tl_callback_depth := 1 |}.

End Samples.

(* ---------------------------------------------------------------------- *)
(** ** Vocabulary of the hook laws                                          *)
(* ---------------------------------------------------------------------- *)

Module HookSpec.
Import Tracking TrackingSpec.

Local Open Scope Z_scope.

(** [events_capacity] after [ensure_events_capacity needed] has returned 1. *)
Definition grown (needed : Z) (g : Globals) : Z :=
  if events_count g + needed <=? events_capacity g then events_capacity g
  else
    double_until (Z.to_nat (events_count g + needed))
      (if events_capacity g =? 0 then INITIAL_EVENTS_CAPACITY else events_capacity g * 2)
      (events_count g + needed).

(** The log fits the array that [events] points to. *)
Definition log_within_capacity (g : Globals) : Prop :=
  events_count g <= events_capacity g.

(** What a hook may do to the registry: the log of [g'] is the log of
    [g], or one record longer, and it fits its array if the log of [g]
    did; the array never shrinks, the barrier and the activity flag are as
    before. *)
Definition log_step (g g' : Globals) : Prop :=
  barrier g' = barrier g /\ tracking_active g' = tracking_active g /\
  (events g' = events g \/ exists ev, events g' = events g ++ [ev]) /\
  (log_within_capacity g ->
   log_within_capacity g' /\ events_capacity g <= events_capacity g').

(** [call_stack] has its [MAX_STACK_DEPTH] slots and [stack_depth] stays
    within them. *)
Definition stack_in_bounds (l : Locals) : Prop :=
  0 <= stack_depth l <= MAX_STACK_DEPTH /\
  length (call_stack l) = Z.to_nat MAX_STACK_DEPTH.

(** [call_stack[stack_depth] = loc; stack_depth++], done while the
    array has room. *)
Definition pushed (loc : FrameInfo) (l : Locals) : Locals :=
  if stack_depth l <? MAX_STACK_DEPTH then
    {| call_stack := <[Z.to_nat (stack_depth l) := loc]> (call_stack l);
       stack_depth := stack_depth l + 1;
       tl_callback_depth := tl_callback_depth l |}
  else l.

(** [if (stack_depth > 0) stack_depth--]. *)
Definition popped (l : Locals) : Locals :=
  if 0 <? stack_depth l then
    {| call_stack := call_stack l; stack_depth := stack_depth l - 1;
       tl_callback_depth := tl_callback_depth l |}
  else l.

(** The handler that [ref_tracer_callback] picks. *)
Definition handle_ref (event : PyRefTracerEvent) (obj : Z) (type_name : option string)
    (g : Globals) (l : Locals) (h : heap) : Globals * heap :=
  match event with
  | PyRefTracer_CREATE => handle_ref_create obj type_name g l h
  | PyRefTracer_DESTROY => handle_ref_destroy obj type_name g l h
  end.

(** The slots in use: [call_stack[0 .. stack_depth)]. *)
Definition open_slots (l : Locals) : list FrameInfo :=
  take (Z.to_nat (stack_depth l)) (call_stack l).

(** The locations of the recorded calls of worker [tid] that have not
    returned yet, the outermost first, along a run of hooks [ks] that
    reported [es]; [st] is what was open before the run. *)
Fixpoint open_calls (tid : nat) (st : list FrameInfo) (ks : list (nat * hook))
    (es : list entry) : list FrameInfo :=
  match ks, es with
  | (t, k) :: ks, e :: es =>
      if Nat.eqb t tid then
        match k, e with
        | FrameEnter _, Recorded loc => open_calls tid (st ++ [loc]) ks es
        | FrameExit _ _, _ => open_calls tid (removelast st) ks es
        | _, _ => open_calls tid st ks es
        end
      else open_calls tid st ks es
  | _, _ => st
  end.

(** The objects that a run of hooks leaves alive: created, and not
    destroyed since. *)
Fixpoint live_objects (live : gset Z) (ks : list (nat * hook)) : gset Z :=
  match ks with
  | [] => live
  | (_, RefTrace PyRefTracer_CREATE obj _) :: ks => live_objects ({[obj]} ∪ live) ks
  | (_, RefTrace PyRefTracer_DESTROY obj _) :: ks => live_objects (live ∖ {[obj]}) ks
  | _ :: ks => live_objects live ks
  end.

(** Every slot in use of the call stack is the location of a CALL record
    that is in the log: the strings it points to are those of that
    record, which [free_events] has not freed. *)
Definition backed (g : Globals) (l : Locals) : Prop :=
  forall loc, loc ∈ open_slots l ->
    exists rec, rec ∈ events g /\ type rec = EVENT_CALL /\ ev_location rec = loc.

(** Every worker's count of open protected sections is a count. *)
Definition depths_nonneg (p : process) : Prop :=
  forall t, 0 <= tl_callback_depth (locals p t).

(** The session takes the hooks of every worker. *)
Definition session_open (p : process) : Prop :=
  forall t, accepting (globals p) (locals p t).


End HookSpec.

(* ---------------------------------------------------------------------- *)
(** ** tracking/errors.h and the [SAFE_STRCPY] of tracking/memory.h         *)
(* ---------------------------------------------------------------------- *)

Module Errors.
Import Tracking.

Definition MAX_FIELD_ERRORS : nat := 8.
Definition ERROR_MSG_LEN : nat := 256.
Definition ERROR_FIELD_LEN : nat := 32.
Definition ERROR_TYPE_LEN : nat := 64.

(** The first [n] bytes of a string. *)
Fixpoint truncate (n : nat) (s : string) : string :=
  match n, s with
  | S n, String c s => String c (truncate n s)
  | _, _ => EmptyString
  end.

(** [strncpy(dst, src, size - 1); dst[size - 1] = '\0']: the string that
    [dst] holds afterwards. *)
Definition SAFE_STRCPY (size : nat) (src : string) : string := truncate (size - 1) src.

(** What this code can see of a Python exception: the [tp_name] of its
    type ([None] when the type or the name is null), and its value
    ([None] when null) through what [PyObject_Str] and then
    [PyUnicode_AsUTF8] make of it. *)
Inductive PyExc : Type :=
| Exc (tp_name : option string) (value : option PyStr)
with PyStr : Type :=
| StrRaises (raised : PyExc)
| StrDecodes (msg : string)
| StrUndecodable (raised : PyExc).

(** The error indicator of the calling thread: the pending exception. *)
Definition indicator : Type := option PyExc.

Definition set_errors (errs : list FieldError) (ev : Event) : Event :=
  {| type := type ev; obj_id := obj_id ev; ev_type_name_ref := ev_type_name_ref ev;
     ev_location := ev_location ev; caller := caller ev; args := args ev;
     creation_info := creation_info ev; errors := errs |}.

(** [ev] is [None] for [nullptr]. *)
Definition capture_error (ev : option Event) (field_name : string) (pending : indicator)
  : option Event * indicator :=
  match ev with
  | None => (None, pending)
  | Some ev =>
      if MAX_FIELD_ERRORS <=? length (errors ev) then (Some ev, pending)
      else
        match pending with
        | None => (Some ev, None)
        | Some (Exc tp_name value) =>
            let type_text :=
              match tp_name with
              | Some name => SAFE_STRCPY ERROR_TYPE_LEN name
              | None => EmptyString
              end in
            let '(msg_text, pending) :=
              match value with
              | None => (EmptyString, None)
              | Some (StrRaises raised) => (EmptyString, Some raised)
              | Some (StrDecodes msg) => (SAFE_STRCPY ERROR_MSG_LEN msg, None)
              | Some (StrUndecodable _) => ("<message decode failed>"%string, None)
              end in
            (Some (set_errors
                     (errors ev ++
                      [{| field := SAFE_STRCPY ERROR_FIELD_LEN field_name;
                          exc_type := type_text; exc_msg := msg_text |}]) ev),
             pending)
        end
  end.

(** The object handed to [safe_utf8]: null, not a [str], or a [str] with
    what [PyUnicode_AsUTF8] returns for it, the text or a failure that
    raises. *)
Inductive PyArg : Type :=
| ArgNull
| ArgNotUnicode
| ArgUnicode (utf8 : string + PyExc).

Definition safe_utf8 (obj : PyArg) (ev : option Event) (field_name : string)
    (pending : indicator) : option string * option Event * indicator :=
  match obj with
  | ArgNull | ArgNotUnicode => (None, ev, pending)
  | ArgUnicode (inl text) => (Some text, ev, pending)
  | ArgUnicode (inr raised) =>
      match ev with
      | Some _ =>
          let '(ev, pending) := capture_error ev field_name (Some raised) in
          (None, ev, pending)
      | None => (None, None, Some raised)
      end
  end.

Definition copy_utf8 (obj : PyArg) (ev : option Event) (field_name : string)
    (pending : indicator) (h : heap) : option string * option Event * indicator * heap :=
  let '(tmp, ev, pending) := safe_utf8 obj ev field_name pending in
  match tmp with
  | None => (None, ev, pending, h)
  | Some text => let '(copy, h) := strdup (Some text) h in (copy, ev, pending, h)
  end.

(** *** Vocabulary of the error-capture law *)

(** [s] is the beginning of [full]. *)
Definition begins (s full : string) : Prop := exists rest, full = (s ++ rest)%string.

(** An error record fits the three buffers of [FieldError]. *)
Definition fits (err : FieldError) : Prop :=
  (String.length (field err) < ERROR_FIELD_LEN)%nat /\
  (String.length (exc_type err) < ERROR_TYPE_LEN)%nat /\
  (String.length (exc_msg err) < ERROR_MSG_LEN)%nat.

(** A run of [capture_error] calls on one event: each call names its
    field and finds the indicator as the code before it left it. *)
Fixpoint capture_all (ev : Event) (calls : list (string * indicator)) : Event :=
  match calls with
  | [] => ev
  | (field_name, pending) :: calls =>
      match capture_error (Some ev) field_name pending with
      | (Some ev, _) => capture_all ev calls
      | (None, _) => ev
      end
  end.

(** An exception whose message is a kilobyte long. *)
Definition long_exception : PyExc :=
  Exc (Some "UnicodeDecodeError"%string)
      (Some (StrDecodes (string_of_list_ascii (repeat "x"%char 1000)))).

End Errors.

(* ---------------------------------------------------------------------- *)
(** ** tracking/output.h, and the result of [py_stop] and [py_get_origin]   *)
(* ---------------------------------------------------------------------- *)

From Stdlib Require DecimalString.

Module Output.
Import Tracking Errors.

Local Open Scope string_scope.

Definition MAX_OUTPUT_ERRORS : nat := 64.
Definition CTX_BUFFER_SIZE : nat := 128.

(** [OutputError]; [context] is a buffer of 64 bytes. *)
Record OutputError : Type := {
  context : string;
  exc_type : string;
  exc_msg : string
}.

Definition CONTEXT_LEN : nat := 64.

(** The Python objects this code builds.  A dict lists its items in the
    order of insertion. *)
#[warnings="-register-all"]
Inductive PyObject : Type :=
| Py_None
| PyUnicode (text : string)
| PyLong (value : Z)
| PyDict (items : list (string * PyObject))
| PyList (elements : list PyObject).

(** The interpreter as this code meets it: [answers] holds, for the
    calls into it that can fail ([PyDict_New], [PyList_New],
    [PyUnicode_FromString], [PyLong_From...], [PyDict_SetItemString],
    [PyList_Append], [PyArg_ParseTuple]), whether the next one succeeds
    ([None], also when the list is used up) or fails raising an exception;
    [pending] is the error indicator; [output_errors] is the
    [OutputErrors] in use, its [count] the length of the list. *)
Record world : Type := {
  answers : list (option PyExc);
  pending : indicator;
  output_errors : list OutputError
}.

(** A computation in the interpreter.  [None] stands for what the model
    leaves undefined: a read past the end of an array, or a list of
    negative length. *)
Definition Out (A : Type) : Type := world -> option (A * world).

Definition out_ret {A : Type} (a : A) : Out A := fun w => Some (a, w).

Definition out_bind {A B : Type} (m : Out A) (k : A -> Out B) : Out B :=
  fun w => match m w with
           | Some (a, w) => k a w
           | None => None
           end.

Definition undefined {A : Type} : Out A := fun _ => None.

Notation "'DO' x <- m 'THEN' k" := (out_bind m (fun x => k))
  (at level 10, x pattern, m at level 100, k at level 200).

(** One call into the interpreter that can fail: [true] when it
    succeeds; a failure sets the error indicator. *)
Definition host_call : Out bool := fun w =>
  match answers w with
  | [] => Some (true, w)
  | None :: rest =>
      Some (true, {| answers := rest; pending := pending w;
                     output_errors := output_errors w |})
  | Some raised :: rest =>
      Some (false, {| answers := rest; pending := Some raised;
                      output_errors := output_errors w |})
  end.

(** [OutputErrors x = {0}]. *)
Definition fresh_output_errors : Out unit := fun w =>
  Some (tt, {| answers := answers w; pending := pending w; output_errors := [] |}).

Definition PyErr_SetString (exception message : string) : Out unit := fun w =>
  Some (tt, {| answers := answers w;
               pending := Some (Exc (Some exception) (Some (StrDecodes message)));
               output_errors := output_errors w |}).

(** [snprintf(buffer, size, ...)], the formatted text given: what
    [buffer] holds afterwards. *)
Definition snprintf (size : nat) (text : string) : string := truncate (size - 1) text.

(** [%zu] and [%d] of a number that is not negative. *)
Definition decimal (n : nat) : string :=
  DecimalString.NilEmpty.string_of_uint (Nat.to_uint n).

(** [oe] is never null in this program. *)
Definition output_error (ctx : string) : Out unit := fun w =>
  if (MAX_OUTPUT_ERRORS <=? length (output_errors w))%nat then Some (tt, w)
  else
    match pending w with
    | None => Some (tt, w)
    | Some (Exc tp_name value) =>
        let type_text :=
          match tp_name with
          | Some name => SAFE_STRCPY ERROR_TYPE_LEN name
          | None => EmptyString
          end in
        let '(msg_text, still_pending) :=
          match value with
          | None => (EmptyString, None)
          | Some (StrRaises raised) => (EmptyString, Some raised)
          | Some (StrDecodes msg) => (SAFE_STRCPY ERROR_MSG_LEN msg, None)
          | Some (StrUndecodable _) => (EmptyString, None)
          end in
        Some (tt, {| answers := answers w; pending := still_pending;
                     output_errors :=
                       (output_errors w ++
                        [{| context := SAFE_STRCPY CONTEXT_LEN ctx;
                            exc_type := type_text; exc_msg := msg_text |}])%list |})
    end.

(** *** Dicts *)

Definition dict : Type := list (string * PyObject).

(** What a successful [PyDict_SetItemString] does to the items. *)
Fixpoint dict_store (key : string) (v : PyObject) (d : dict) : dict :=
  match d with
  | [] => [(key, v)]
  | (k, x) :: d => if String.eqb k key then (k, v) :: d else (k, x) :: dict_store key v d
  end.

Definition PyDict_SetItemString (d : dict) (key : string) (v : PyObject) : Out dict :=
  DO ok <- host_call THEN
  out_ret (if ok then dict_store key v d else d).

Definition dict_set_string (d : dict) (key : string) (val : option string) (ctx : string)
  : Out dict :=
  match val with
  | None => PyDict_SetItemString d key Py_None
  | Some text =>
      DO ok <- host_call THEN
      if ok then PyDict_SetItemString d key (PyUnicode text)
      else
        DO _ <- output_error ctx THEN
        PyDict_SetItemString d key Py_None
  end.

Definition dict_set_long (d : dict) (key : string) (val : Z) : Out dict :=
  DO ok <- host_call THEN
  if ok then PyDict_SetItemString d key (PyLong val) else out_ret d.

Definition dict_set_ulonglong (d : dict) (key : string) (val : Z) : Out dict :=
  DO ok <- host_call THEN
  if ok then PyDict_SetItemString d key (PyLong val) else out_ret d.

(** *** Serialization functions *)

(** The result is [None] for [nullptr].  [info] is never null in this
    program. *)
Definition frame_info_to_dict (info : FrameInfo) (prefix : string) : Out (option PyObject) :=
  if match file info, func info with
     | None, None => (line info =? 0)%Z
     | _, _ => false
     end
  then out_ret (Some Py_None)
  else
    DO ok <- host_call THEN
    if negb ok then out_ret None
    else
      DO d <- dict_set_string [] "file" (file info) (snprintf 128 (prefix ++ ".file")) THEN
      DO d <- dict_set_long d "line" (line info) THEN
      DO d <- dict_set_string d "func" (func info) (snprintf 128 (prefix ++ ".func")) THEN
      out_ret (Some (PyDict d)).

(** The loop over the traceback: slots [i], [i + 1], ... of the new list,
    [n] of them. *)
Fixpoint traceback_list (info : CreationInfo) (prefix : string) (i n : nat)
  : Out (list PyObject) :=
  match n with
  | O => out_ret []
  | S n =>
      match traceback info !! i with
      | None => undefined
      | Some slot =>
          DO frame <- frame_info_to_dict slot
                        (snprintf 128 (prefix ++ ".traceback[" ++ decimal i ++ "]")) THEN
          DO rest <- traceback_list info prefix (S i) n THEN
          out_ret (match frame with
                   | Some frame => frame
                   | None => Py_None
                   end :: rest)
      end
  end.

(** [info] is [None] for [nullptr]. *)
Definition creation_info_to_dict (info : option CreationInfo) (prefix : string)
  : Out (option PyObject) :=
  match info with
  | None => out_ret (Some Py_None)
  | Some info =>
      DO ok <- host_call THEN
      if negb ok then out_ret None
      else
        DO d <- dict_set_string [] "file" (file (location info))
                  (snprintf 128 (prefix ++ ".file")) THEN
        DO d <- dict_set_long d "line" (line (location info)) THEN
        DO d <- dict_set_string d "func" (func (location info))
                  (snprintf 128 (prefix ++ ".func")) THEN
        DO d <- dict_set_string d "type" (type_name_ref info)
                  (snprintf 128 (prefix ++ ".type")) THEN
        if (traceback_depth info <? 0)%Z then undefined
        else
          DO ok <- host_call THEN
          if ok then
            DO tb <- traceback_list info prefix 0 (Z.to_nat (traceback_depth info)) THEN
            DO d <- PyDict_SetItemString d "traceback" (PyList tb) THEN
            out_ret (Some (PyDict d))
          else out_ret (Some (PyDict d))
  end.

(** The loop of [output_errors_to_list], from slot to slot. *)
Fixpoint output_errors_items (errs : list OutputError) : Out (list PyObject) :=
  match errs with
  | [] => out_ret []
  | err :: errs =>
      DO ok <- host_call THEN
      DO item <-
        (if ok then
           DO ctx_ok <- host_call THEN
           DO type_ok <- host_call THEN
           DO msg_ok <- host_call THEN
           DO d <- (if ctx_ok : bool
                    then PyDict_SetItemString [] "context" (PyUnicode (context err))
                    else out_ret []) THEN
           DO d <- (if type_ok : bool
                    then PyDict_SetItemString d "type" (PyUnicode (exc_type err))
                    else out_ret d) THEN
           DO d <- (if msg_ok : bool
                    then PyDict_SetItemString d "message" (PyUnicode (exc_msg err))
                    else out_ret d) THEN
           out_ret (PyDict d)
         else out_ret Py_None) THEN
      DO rest <- output_errors_items errs THEN
      out_ret (item :: rest)
  end.

Definition output_errors_to_list : Out (option PyObject) := fun w =>
  match output_errors w with
  | [] => out_ret (Some Py_None) w
  | errs =>
      (DO ok <- host_call THEN
       if negb ok then out_ret None
       else
         DO items <- output_errors_items errs THEN
         out_ret (Some (PyList items))) w
  end.

(** [event_type_name] of tracking/types.h. *)
Definition event_type_name (ev : EventType) : string :=
  match ev with
  | EVENT_CALL => "CALL"
  | EVENT_RETURN => "RETURN"
  | EVENT_CREATE => "CREATE"
  | EVENT_DESTROY => "DESTROY"
  end.

Definition serialize_event_base (entry : dict) (evt : Event) (idx : nat) : Out dict :=
  DO entry <- dict_set_string entry "event" (Some (event_type_name (type evt)))
                (snprintf CTX_BUFFER_SIZE ("events[" ++ decimal idx ++ "].event")) THEN
  DO entry <- dict_set_string entry "file" (file (ev_location evt))
                (snprintf CTX_BUFFER_SIZE ("events[" ++ decimal idx ++ "].file")) THEN
  DO entry <- dict_set_long entry "line" (line (ev_location evt)) THEN
  dict_set_string entry "func" (func (ev_location evt))
    (snprintf CTX_BUFFER_SIZE ("events[" ++ decimal idx ++ "].func")).

Definition serialize_lifecycle_fields (entry : dict) (evt : Event) (idx : nat) : Out dict :=
  DO entry <- dict_set_ulonglong entry "id" (obj_id evt) THEN
  DO entry <- dict_set_string entry "type" (ev_type_name_ref evt)
                (snprintf CTX_BUFFER_SIZE ("events[" ++ decimal idx ++ "].type")) THEN
  match type evt, creation_info evt with
  | EVENT_DESTROY, Some info =>
      DO creation <- creation_info_to_dict (Some info)
                       (snprintf CTX_BUFFER_SIZE
                          ("events[" ++ decimal idx ++ "].creation")) THEN
      match creation with
      | Some creation => PyDict_SetItemString entry "creation" creation
      | None => out_ret entry
      end
  | _, _ => out_ret entry
  end.

(** The loop over the arguments: slots [j], [j + 1], ... *)
Fixpoint args_list (idx j : nat) (arguments : list ArgInfo) : Out (list PyObject) :=
  match arguments with
  | [] => out_ret []
  | arg :: arguments =>
      DO ok <- host_call THEN
      DO item <-
        (if ok then
           DO d <- dict_set_string [] "name" (name_owned arg)
                     (snprintf CTX_BUFFER_SIZE
                        ("events[" ++ decimal idx ++ "].args[" ++ decimal j ++ "].name")) THEN
           DO d <- dict_set_ulonglong d "id" (id arg) THEN
           DO d <- dict_set_string d "type" (type_ref arg)
                     (snprintf CTX_BUFFER_SIZE
                        ("events[" ++ decimal idx ++ "].args[" ++ decimal j ++ "].type")) THEN
           out_ret (PyDict d)
         else out_ret Py_None) THEN
      DO rest <- args_list idx (S j) arguments THEN
      out_ret (item :: rest)
  end.

Definition serialize_call_fields (entry : dict) (evt : Event) (idx : nat) : Out dict :=
  DO entry <-
    match func (caller evt) with
    | Some _ =>
        DO entry <- dict_set_string entry "caller_file" (file (caller evt))
                      (snprintf CTX_BUFFER_SIZE
                         ("events[" ++ decimal idx ++ "].caller_file")) THEN
        DO entry <- dict_set_long entry "caller_line" (line (caller evt)) THEN
        dict_set_string entry "caller_func" (func (caller evt))
          (snprintf CTX_BUFFER_SIZE ("events[" ++ decimal idx ++ "].caller_func"))
    | None => out_ret entry
    end THEN
  match args evt with
  | [] => out_ret entry
  | arguments =>
      DO ok <- host_call THEN
      if ok then
        DO items <- args_list idx 0 arguments THEN
        PyDict_SetItemString entry "args" (PyList items)
      else out_ret entry
  end.

Definition serialize_return_fields (entry : dict) (evt : Event) (idx : nat) : Out dict :=
  if (obj_id evt =? 0)%Z then out_ret entry
  else
    DO entry <- dict_set_ulonglong entry "return_id" (obj_id evt) THEN
    dict_set_string entry "return_type" (ev_type_name_ref evt)
      (snprintf CTX_BUFFER_SIZE ("events[" ++ decimal idx ++ "].return_type")).

(** The loop over the field errors: slots [j], [j + 1], ... *)
Fixpoint errors_list (idx j : nat) (errs : list FieldError) : Out (list PyObject) :=
  match errs with
  | [] => out_ret []
  | err :: errs =>
      DO ok <- host_call THEN
      DO item <-
        (if ok then
           let ctx := snprintf CTX_BUFFER_SIZE
                        ("events[" ++ decimal idx ++ "].errors[" ++ decimal j ++ "]") in
           DO d <- dict_set_string [] "field" (Some (field err)) ctx THEN
           DO d <- dict_set_string d "type" (Some (Tracking.exc_type err)) ctx THEN
           DO d <- dict_set_string d "message" (Some (Tracking.exc_msg err)) ctx THEN
           out_ret (PyDict d)
         else out_ret Py_None) THEN
      DO rest <- errors_list idx (S j) errs THEN
      out_ret (item :: rest)
  end.

Definition serialize_event_errors (entry : dict) (evt : Event) (idx : nat) : Out dict :=
  match errors evt with
  | [] => out_ret entry
  | errs =>
      DO ok <- host_call THEN
      if negb ok then out_ret entry
      else
        DO items <- errors_list idx 0 errs THEN
        PyDict_SetItemString entry "errors" (PyList items)
  end.

Definition serialize_event (evt : Event) (idx : nat) : Out (option PyObject) :=
  DO ok <- host_call THEN
  if negb ok then out_ret None
  else
    DO entry <- serialize_event_base [] evt idx THEN
    DO entry <-
      match type evt with
      | EVENT_CREATE | EVENT_DESTROY => serialize_lifecycle_fields entry evt idx
      | EVENT_CALL => serialize_call_fields entry evt idx
      | EVENT_RETURN => serialize_return_fields entry evt idx
      end THEN
    DO entry <- serialize_event_errors entry evt idx THEN
    out_ret (Some (PyDict entry)).

(** *** [py_stop], from [OutputErrors output_errors = {0}] to the end *)

(** The loop over the events: event [i], [i + 1], ...; [events_list] as
    it is so far. *)
Fixpoint append_events (i : nat) (evs : list Event) (events_list : list PyObject)
  : Out (list PyObject) :=
  match evs with
  | [] => out_ret events_list
  | evt :: evs =>
      DO entry <- serialize_event evt i THEN
      DO events_list <-
        match entry with
        | Some entry =>
            DO ok <- host_call THEN
            out_ret (if ok then (events_list ++ [entry])%list else events_list)
        | None => out_ret events_list
        end THEN
      append_events (S i) evs events_list
  end.

(** [evs] are the recorded events.  The result is [None] for
    [nullptr]. *)
Definition py_stop_result (evs : list Event) : Out (option PyObject) :=
  DO _ <- fresh_output_errors THEN
  DO ok <- host_call THEN
  if negb ok then out_ret None
  else
    DO ok <- host_call THEN
    if negb ok then out_ret None
    else
      DO events_list <- append_events 0 evs [] THEN
      DO result_dict <- PyDict_SetItemString [] "events" (PyList events_list) THEN
      DO result_dict <-
        (fun w =>
           match output_errors w with
           | [] => out_ret result_dict w
           | _ =>
               (DO oe_list <- output_errors_to_list THEN
                match oe_list with
                | Some oe_list => PyDict_SetItemString result_dict "output_errors" oe_list
                | None => out_ret result_dict
                end) w
           end) THEN
      out_ret (Some (PyDict result_dict)).

(** [obj] is the address of the argument.  The result is [None] for
    [nullptr]. *)
Definition py_get_origin (obj : Z) (g : Globals) : Out (option PyObject) :=
  DO ok <- host_call THEN
  if negb ok then out_ret None
  else if (tracking_active g =? 0)%Z then
    DO _ <- PyErr_SetString "RuntimeError" "Tracking not active" THEN
    out_ret None
  else
    match vt_get (obj_creation_map g) obj with
    | None => out_ret (Some Py_None)
    | Some info =>
        DO _ <- fresh_output_errors THEN
        creation_info_to_dict (Some info) "origin"
    end.

(** *** Vocabulary of the output laws *)

(** The interpreter fails no call and no exception is pending. *)
Definition quiet (w : world) : Prop := answers w = [] /\ pending w = None.

(** [d[key]], [None] when the key is missing. *)
Fixpoint dict_get (key : string) (d : dict) : option PyObject :=
  match d with
  | [] => None
  | (k, x) :: d => if String.eqb k key then Some x else dict_get key d
  end.

(** The Python value of a C string: [None] for [nullptr]. *)
Definition py_string (s : option string) : PyObject :=
  match s with
  | Some text => PyUnicode text
  | None => Py_None
  end.

(** The keys of a dict, in order. *)
Definition keys (d : dict) : list string := map fst d.

(** A creation record whose traceback depth is within its array. *)
Definition well_formed (info : CreationInfo) : Prop :=
  (0 <= traceback_depth info)%Z /\
  (Z.to_nat (traceback_depth info) <= length (traceback info))%nat.

(** The Python value of a frame: [None] for an empty slot. *)
Definition frame_value (info : FrameInfo) : PyObject :=
  match file info, func info, (line info =? 0)%Z with
  | None, None, true => Py_None
  | _, _, _ =>
      PyDict [("file", py_string (file info)); ("line", PyLong (line info));
              ("func", py_string (func info))]
  end.

(** The Python value of a creation record: where the object was created,
    its type, and the frames of its traceback, innermost first. *)
Definition creation_value (info : CreationInfo) : PyObject :=
  PyDict [("file", py_string (file (location info)));
          ("line", PyLong (line (location info)));
          ("func", py_string (func (location info)));
          ("type", py_string (type_name_ref info));
          ("traceback",
           PyList (map frame_value
                     (take (Z.to_nat (traceback_depth info)) (traceback info))))].

Definition arg_value (arg : ArgInfo) : PyObject :=
  PyDict [("name", py_string (name_owned arg)); ("id", PyLong (id arg));
          ("type", py_string (type_ref arg))].

Definition error_value (err : FieldError) : PyObject :=
  PyDict [("field", PyUnicode (field err)); ("type", PyUnicode (Tracking.exc_type err));
          ("message", PyUnicode (Tracking.exc_msg err))].

(** [entry] is the dict of the recorded event [evt]: the four fields of
    every event, the fields of its type, and its field errors if it has
    any. *)
Definition describes (evt : Event) (entry : PyObject) : Prop :=
  exists d, entry = PyDict d /\
    dict_get "event" d = Some (PyUnicode (event_type_name (type evt))) /\
    dict_get "file" d = Some (py_string (file (ev_location evt))) /\
    dict_get "line" d = Some (PyLong (line (ev_location evt))) /\
    dict_get "func" d = Some (py_string (func (ev_location evt))) /\
    match type evt with
    | EVENT_CALL =>
        dict_get "caller_func" d = option_map PyUnicode (func (caller evt)) /\
        dict_get "args" d =
          match args evt with
          | [] => None
          | arguments => Some (PyList (map arg_value arguments))
          end
    | EVENT_RETURN =>
        dict_get "return_id" d =
          (if (obj_id evt =? 0)%Z then None else Some (PyLong (obj_id evt)))
    | EVENT_CREATE =>
        dict_get "id" d = Some (PyLong (obj_id evt)) /\
        dict_get "type" d = Some (py_string (ev_type_name_ref evt)) /\
        dict_get "creation" d = None
    | EVENT_DESTROY =>
        dict_get "id" d = Some (PyLong (obj_id evt)) /\
        dict_get "type" d = Some (py_string (ev_type_name_ref evt)) /\
        dict_get "creation" d = option_map creation_value (creation_info evt)
    end /\
    dict_get "errors" d =
      match errors evt with
      | [] => None
      | errs => Some (PyList (map error_value errs))
      end.

(** The creation record that an event carries, if any, is well formed. *)
Definition carries_well_formed (evt : Event) : Prop :=
  forall info, creation_info evt = Some info -> well_formed info.

Definition calm : world := {| answers := []; pending := None; output_errors := [] |}.

Definition sample_info : CreationInfo :=
  {| location := {| file := Some "app.py"; line := 7; func := Some "make" |};
     traceback :=
       {| file := Some "app.py"; line := 7; func := Some "make" |} ::
       {| file := Some "app.py"; line := 20; func := Some "main" |} ::
       replicate 14 FrameInfo_zero;
     traceback_depth := 2;
     type_name_ref := Some "Widget" |}.

Definition sample_events : list Event :=
  [ {| type := EVENT_CALL; obj_id := 0; ev_type_name_ref := None;
       ev_location := {| file := Some "app.py"; line := 7; func := Some "make" |};
       caller := {| file := Some "app.py"; line := 20; func := Some "main" |};
       args := [{| name_owned := Some "size"; id := 4096; type_ref := Some "int" |}];
       creation_info := None; errors := [] |};
    {| type := EVENT_DESTROY; obj_id := 8192; ev_type_name_ref := Some "Widget";
       ev_location := FrameInfo_zero; caller := FrameInfo_zero;
       args := []; creation_info := Some sample_info; errors := [] |} ].

(** Tracking is on and the object at 8192 has a creation record. *)
Definition sample_tracking : Globals :=
  set_map (<[8192%Z := sample_info]> ∅) (set_active 1 TrackingSpec.started).

End Output.

(* ====================================================================== *)
(** * Part II: theorems                                                     *)
(* ====================================================================== *)

(** ** The allocator oracle *)

Section Oracle.

Lemma allocs_ok_alloc h :
  allocs_ok h -> fst (alloc h) = true /\ allocs_ok (snd (alloc h)).
Proof.
  destruct h as [|b h]; intros H; simpl; [split; [reflexivity|assumption]|].
  split.
  - apply H. left.
  - intros b' Hb'. apply H. right. assumption.
Qed.

Lemma allocs_ok_step h ok h' :
  alloc h = (ok, h') -> allocs_ok h -> ok = true /\ allocs_ok h'.
Proof.
  intros Ha Hh. apply allocs_ok_alloc in Hh. rewrite Ha in Hh. exact Hh.
Qed.

Lemma allocs_ok_nil : allocs_ok [].
Proof. intros b Hb. apply elem_of_nil in Hb. contradiction. Qed.

End Oracle.

Module InterningFacts.
Import Interning.

Section Probing.

Lemma mod_wrap (n cap : nat) : cap <= n < 2 * cap -> n mod cap = n - cap.
Proof.
  intros Hn. replace n with ((n - cap) + 1 * cap) at 1 by lia.
  rewrite Nat.Div0.mod_add. apply Nat.mod_small. lia.
Qed.

Lemma mod_succ (a cap : nat) : 0 < cap -> (a mod cap + 1) mod cap = (a + 1) mod cap.
Proof.
  intros Hc. rewrite <- (Nat.Div0.add_mod_idemp_l a 1 cap). reflexivity.
Qed.

Lemma start_index_lt bkts s : 0 < length bkts -> start_index bkts s < length bkts.
Proof.
  intros Hc. unfold start_index.
  assert (fnv1a_hash s mod N.of_nat (length bkts) < N.of_nat (length bkts))%N.
  { apply N.mod_lt. lia. }
  lia.
Qed.

Lemma find_bucket_loop_sound strs bkts s start fuel idx b f :
  find_bucket_loop strs bkts s start fuel idx = Ret (b, f) ->
  if f then exists e, bkts !! b = Some (Some e) /\ strs !! e = Some s
  else bkts !! b = Some None.
Proof.
  revert idx. induction fuel as [|fuel IH]; intros idx H; simpl in H; [discriminate|].
  destruct (bkts !! idx) as [[entry|]|] eqn:Hb; try discriminate.
  - destruct (strs !! entry) as [str|] eqn:Hs; try discriminate.
    destruct (String.eqb str s) eqn:Heq.
    + injection H as <- <-. apply String.eqb_eq in Heq. subst. eauto.
    + destruct ((idx + 1) mod length bkts =? start); [discriminate|].
      eapply IH; eassumption.
  - injection H as <- <-. exact Hb.
Qed.

Lemma find_bucket_loop_keeps strs strs' bkts s start fuel idx b b0 e0 :
  (forall i x, strs !! i = Some x -> strs' !! i = Some x) ->
  bkts !! b0 = Some None ->
  find_bucket_loop strs bkts s start fuel idx = Ret (b, true) ->
  find_bucket_loop strs' (<[b0 := Some e0]> bkts) s start fuel idx = Ret (b, true).
Proof.
  intros Hext Hb0. revert idx.
  induction fuel as [|fuel IH]; intros idx H; simpl in H |- *; [discriminate|].
  destruct (bkts !! idx) as [[entry|]|] eqn:Hb; try discriminate.
  assert (b0 <> idx) by congruence.
  rewrite list_lookup_insert_ne, Hb by assumption.
  destruct (strs !! entry) as [str|] eqn:Hs; try discriminate.
  rewrite (Hext _ _ Hs). rewrite length_insert.
  destruct (String.eqb str s); [assumption|].
  destruct ((idx + 1) mod length bkts =? start); [discriminate|]. auto.
Qed.

Lemma find_bucket_loop_fills strs strs' bkts s start fuel idx b e :
  (forall i x, strs !! i = Some x -> strs' !! i = Some x) ->
  strs' !! e = Some s ->
  find_bucket_loop strs bkts s start fuel idx = Ret (b, false) ->
  find_bucket_loop strs' (<[b := Some e]> bkts) s start fuel idx = Ret (b, true).
Proof.
  intros Hext He. revert idx.
  induction fuel as [|fuel IH]; intros idx H; simpl in H |- *; [discriminate|].
  destruct (bkts !! idx) as [[entry|]|] eqn:Hb; try discriminate.
  - destruct (strs !! entry) as [str|] eqn:Hs; try discriminate.
    destruct (String.eqb str s) eqn:Heq; [discriminate|].
    destruct ((idx + 1) mod length bkts =? start) eqn:Hst; [discriminate|].
    pose proof (find_bucket_loop_sound _ _ _ _ _ _ _ _ H) as Hnone. simpl in Hnone.
    assert (b <> idx) by congruence.
    rewrite list_lookup_insert_ne, Hb by assumption.
    rewrite (Hext _ _ Hs), Heq, length_insert, Hst. auto.
  - injection H as <-.
    rewrite list_lookup_insert_eq by (eapply lookup_lt_Some; eassumption).
    rewrite He. rewrite String.eqb_refl. reflexivity.
Qed.

Lemma find_bucket_loop_total strs bkts s start fuel k :
  start < length bkts ->
  fuel + k = length bkts ->
  (exists k0, k <= k0 < length bkts /\ bkts !! ((start + k0) mod length bkts) = Some None) ->
  (forall i e, bkts !! i = Some (Some e) -> is_Some (strs !! e)) ->
  exists r, find_bucket_loop strs bkts s start fuel ((start + k) mod length bkts) = Ret r.
Proof.
  intros Hstart. revert k.
  induction fuel as [|fuel IH]; intros k Hk (k0 & Hk0 & Hnone) Hval; [lia|].
  simpl.
  assert (Hidx : (start + k) mod length bkts < length bkts) by (apply Nat.mod_upper_bound; lia).
  destruct (bkts !! ((start + k) mod length bkts)) as [[entry|]|] eqn:Hb.
  - destruct (Hval _ _ Hb) as [str Hs]. rewrite Hs.
    destruct (String.eqb str s); [eauto|].
    assert (k <> k0) by (intros ->; congruence).
    rewrite mod_succ by lia.
    assert (Hne : (start + k + 1) mod length bkts <> start).
    { destruct (Nat.lt_ge_cases (start + k + 1) (length bkts)).
      - rewrite Nat.mod_small by lia. lia.
      - rewrite mod_wrap by lia. lia. }
    apply Nat.eqb_neq in Hne. rewrite Hne.
    replace (start + k + 1) with (start + S k) by lia.
    apply IH; [lia| |assumption].
    exists k0. split; [lia|assumption].
  - eauto.
  - apply lookup_ge_None in Hb. lia.
Qed.

End Probing.

Section Entries.

Lemma entries_replicate n : entries (replicate n None) = [].
Proof. induction n as [|n IH]; simpl; [reflexivity|exact IH]. Qed.

Lemma entries_lookup bkts i e : bkts !! i = Some (Some e) -> e ∈ entries bkts.
Proof.
  intros H. unfold entries. apply list_elem_of_omap.
  exists (Some e). split; [|reflexivity]. eapply list_elem_of_lookup_2; eassumption.
Qed.

Lemma entries_insert bkts b e :
  bkts !! b = Some None -> entries (<[b := Some e]> bkts) ≡ₚ e :: entries bkts.
Proof.
  revert b. induction bkts as [|x bkts IH]; intros b H; [discriminate|].
  destruct b as [|b]; simpl in H.
  - injection H as ->. reflexivity.
  - specialize (IH _ H). destruct x as [y|]; simpl.
    + change (y :: entries (<[b:=Some e]> bkts) ≡ₚ e :: y :: entries bkts).
      rewrite IH. apply Permutation_swap.
    + exact IH.
Qed.

Lemma entries_room bkts :
  length (entries bkts) < length bkts -> exists j, bkts !! j = Some None.
Proof.
  induction bkts as [|x bkts IH]; simpl; intros H; [lia|].
  destruct x as [y|].
  - destruct IH as [j Hj].
    + change (length (y :: entries bkts) < S (length bkts)) in H. simpl in H. lia.
    + exists (S j). exact Hj.
  - exists 0. reflexivity.
Qed.

End Entries.

Section IndexInvariant.

Lemma index_ok_perm strs bkts p p' :
  p ≡ₚ p' -> index_ok strs bkts p -> index_ok strs bkts p'.
Proof.
  intros Hp [H1 H2 H3 H4 H5 H6]. split.
  - assumption.
  - rewrite H2. assumption.
  - rewrite <- Hp. assumption.
  - intros e He. apply H4. rewrite Hp. assumption.
  - rewrite <- Hp. assumption.
  - intros e s He. apply H6. rewrite Hp. assumption.
Qed.

Lemma index_ok_valid strs bkts p i e :
  index_ok strs bkts p -> bkts !! i = Some (Some e) -> is_Some (strs !! e).
Proof.
  intros Hok Hb. apply lookup_lt_is_Some. apply (ok_range _ _ _ Hok).
  rewrite <- (ok_entries _ _ _ Hok). eapply entries_lookup; eassumption.
Qed.

Lemma probe_total strs bkts p s :
  index_ok strs bkts p -> exists b f, probe strs bkts s = Ret (b, f).
Proof.
  intros Hok.
  assert (Hcap : 0 < length bkts) by (pose proof (ok_room _ _ _ Hok); lia).
  pose proof (start_index_lt bkts s Hcap) as Hst.
  destruct (entries_room bkts) as [j Hj].
  { rewrite (ok_entries _ _ _ Hok). apply (ok_room _ _ _ Hok). }
  pose proof (lookup_lt_Some _ _ _ Hj) as Hjlt.
  destruct (find_bucket_loop_total strs bkts s (start_index bkts s) (length bkts) 0)
    as [[b f] Hr]; try assumption; try lia.
  - exists ((j + length bkts - start_index bkts s) mod length bkts).
    split; [split; [lia|apply Nat.mod_upper_bound; lia]|].
    rewrite Nat.Div0.add_mod_idemp_r.
    replace (start_index bkts s + (j + length bkts - start_index bkts s))
      with (j + 1 * length bkts) by lia.
    rewrite Nat.Div0.mod_add, Nat.mod_small by lia. assumption.
  - intros i e Hb. eapply index_ok_valid; eassumption.
  - exists b, f. unfold probe.
    rewrite Nat.add_0_r, Nat.mod_small in Hr by lia. exact Hr.
Qed.

Lemma probe_found strs bkts p s e :
  index_ok strs bkts p -> e ∈ p -> strs !! e = Some s ->
  exists b, probe strs bkts s = Ret (b, true) /\ bkts !! b = Some (Some e).
Proof.
  intros Hok He Hs. destruct (ok_find _ _ _ Hok _ _ He Hs) as [b Hb].
  exists b. split; [assumption|].
  apply find_bucket_loop_sound in Hb. destruct Hb as (e' & Hb & Hs').
  rewrite (NoDup_lookup _ _ _ _ (ok_strings _ _ _ Hok) Hs Hs'). assumption.
Qed.

Lemma probe_missing strs bkts p s b :
  index_ok strs bkts p -> probe strs bkts s = Ret (b, false) ->
  bkts !! b = Some None /\ forall e, e ∈ p -> strs !! e <> Some s.
Proof.
  intros Hok Hp. split.
  - apply find_bucket_loop_sound in Hp. assumption.
  - intros e He Hs. destruct (ok_find _ _ _ Hok _ _ He Hs) as [b' Hb'].
    congruence.
Qed.

Lemma index_ok_insert strs strs' bkts p s b e :
  index_ok strs bkts p ->
  (forall i x, strs !! i = Some x -> strs' !! i = Some x) ->
  length strs <= length strs' ->
  NoDup strs' ->
  e ∉ p ->
  strs' !! e = Some s ->
  probe strs bkts s = Ret (b, false) ->
  S (length p) < length bkts ->
  index_ok strs' (<[b := Some e]> bkts) (e :: p).
Proof.
  intros Hok Hext Hlen Hnd He Hs Hp Hroom.
  destruct (probe_missing _ _ _ _ _ Hok Hp) as [Hnone Hmiss].
  split.
  - assumption.
  - rewrite entries_insert by assumption. rewrite (ok_entries _ _ _ Hok). reflexivity.
  - apply NoDup_cons. split; [assumption|apply (ok_present _ _ _ Hok)].
  - intros e' He'. apply elem_of_cons in He' as [->|He'].
    + eapply lookup_lt_Some; eassumption.
    + pose proof (ok_range _ _ _ Hok _ He'). lia.
  - rewrite length_insert. simpl. lia.
  - intros e' s' He' Hs'. unfold probe, start_index. rewrite length_insert.
    apply elem_of_cons in He' as [->|He'].
    + assert (s' = s) by congruence. subst s'.
      exists b. eapply find_bucket_loop_fills; eassumption.
    + pose proof (ok_range _ _ _ Hok _ He') as Hlt.
      apply lookup_lt_is_Some in Hlt. destruct Hlt as [s0 Hs0].
      assert (s0 = s') by (apply Hext in Hs0; congruence). subst s0.
      destruct (ok_find _ _ _ Hok _ _ He' Hs0) as [b' Hb'].
      exists b'. eapply find_bucket_loop_keeps; eassumption.
Qed.

End IndexInvariant.

Section Rehash.

Local Ltac split_all := repeat match goal with |- _ /\ _ => split end.

Lemma find_bucket_probe T s :
  find_bucket T s (fnv1a_hash s) = probe (strings T) (buckets T) s.
Proof. reflexivity. Qed.

Lemma probe_fresh strs bkts p s b f :
  index_ok strs bkts p ->
  (forall e, e ∈ p -> strs !! e <> Some s) ->
  probe strs bkts s = Ret (b, f) -> f = false.
Proof.
  intros Hok Hfresh Hp. destruct f; [|reflexivity].
  apply find_bucket_loop_sound in Hp. destruct Hp as (e & Hb & Hs).
  exfalso. apply (Hfresh e); [|assumption].
  rewrite <- (ok_entries _ _ _ Hok). eapply entries_lookup; eassumption.
Qed.

Lemma rehash_entry_ok T p e :
  index_ok (strings T) (buckets T) p ->
  e ∉ p -> e < length (strings T) ->
  S (length p) < length (buckets T) ->
  exists b,
    rehash_entry T (Some e) = Ret (set_buckets (<[b := Some e]> (buckets T)) T) /\
    index_ok (strings T) (<[b := Some e]> (buckets T)) (e :: p).
Proof.
  intros Hok He Hlt Hroom.
  apply lookup_lt_is_Some in Hlt. destruct Hlt as [s Hs].
  destruct (probe_total _ _ _ s Hok) as (b & f & Hp).
  assert (f = false).
  { eapply probe_fresh; [exact Hok| |exact Hp].
    intros e' He' Hs'.
    rewrite (NoDup_lookup _ _ _ _ (ok_strings _ _ _ Hok) Hs Hs') in He. contradiction. }
  subst f. exists b. split.
  - unfold rehash_entry. rewrite Hs, find_bucket_probe, Hp. reflexivity.
  - pose proof (ok_strings _ _ _ Hok).
    apply (index_ok_insert (strings T) (strings T) (buckets T) p s b e); auto.
Qed.

Lemma rehash_all_ok old : forall T p,
  index_ok (strings T) (buckets T) p ->
  NoDup (entries old) ->
  (forall e, e ∈ entries old -> (e ∉ p) /\ e < length (strings T)) ->
  length p + length (entries old) < length (buckets T) ->
  exists T' p',
    rehash_all T old = Ret T' /\
    strings T' = strings T /\
    strings_capacity T' = strings_capacity T /\
    initialized T' = initialized T /\
    length (buckets T') = length (buckets T) /\
    p' ≡ₚ entries old ++ p /\
    index_ok (strings T') (buckets T') p'.
Proof.
  induction old as [|[e|] old IH]; intros T p Hok Hnd Hnew Hroom.
  - exists T, p. split_all; try reflexivity. assumption.
  - change (entries (Some e :: old)) with (e :: entries old) in *.
    apply NoDup_cons in Hnd as [Hfresh Hnd]. simpl in Hroom.
    destruct (Hnew e) as [Hep Helt]; [left|].
    destruct (rehash_entry_ok T p e Hok Hep Helt) as (b & Hstep & Hok'); [lia|].
    destruct (IH (set_buckets (<[b:=Some e]> (buckets T)) T) (e :: p)) as
      (T' & p' & Hrun & Hs & Hc & Hi & Hl & Hperm & Hfin).
    + exact Hok'.
    + exact Hnd.
    + intros e' He'. split.
      * intros Hin. apply elem_of_cons in Hin as [->|Hin]; [contradiction|].
        destruct (Hnew e'); [right; assumption|contradiction].
      * destruct (Hnew e'); [right; assumption|assumption].
    + simpl. rewrite length_insert. lia.
    + exists T', p'. cbn [rehash_all]. rewrite Hstep. cbn [rbind].
      split_all; try assumption.
      * simpl in Hl. rewrite length_insert in Hl. assumption.
      * rewrite Hperm. simpl. symmetry. apply Permutation_middle.
  - change (entries (None :: old)) with (entries old) in *.
    destruct (IH T p Hok Hnd Hnew Hroom) as (T' & p' & Hrun & Hrest).
    exists T', p'. split; [exact Hrun|exact Hrest].
Qed.

Lemma resize_buckets_ok T :
  index_ok (strings T) (buckets T) (seq 0 (strings_count T)) ->
  exists T',
    (forall h, resize_buckets T h =
       if fst (alloc h) then Ret (T', snd (alloc h)) else Abort "bucket allocation failed") /\
    strings T' = strings T /\
    strings_capacity T' = strings_capacity T /\
    initialized T' = initialized T /\
    length (buckets T') = 2 * length (buckets T) /\
    index_ok (strings T') (buckets T') (seq 0 (strings_count T')).
Proof.
  intros Hok.
  pose proof (ok_room _ _ _ Hok) as Hroom. rewrite length_seq in Hroom.
  destruct (rehash_all_ok (buckets T)
              (set_buckets (replicate (buckets_capacity T * 2) None) T) [])
    as (T' & p' & Hrun & Hs & Hc & Hi & Hl & Hperm & Hfin).
  - simpl. split.
    + apply (ok_strings _ _ _ Hok).
    + rewrite entries_replicate. reflexivity.
    + apply NoDup_nil_2.
    + intros e He. apply elem_of_nil in He. contradiction.
    + rewrite length_replicate. unfold buckets_capacity. simpl. lia.
    + intros e s He. apply elem_of_nil in He. contradiction.
  - rewrite (ok_entries _ _ _ Hok). apply NoDup_seq.
  - intros e He. split; [apply not_elem_of_nil|].
    simpl. apply (ok_range _ _ _ Hok). rewrite <- (ok_entries _ _ _ Hok). assumption.
  - simpl. rewrite length_replicate, (ok_entries _ _ _ Hok), length_seq.
    unfold buckets_capacity, strings_count in *. lia.
  - exists T'. simpl in Hs, Hc, Hi, Hl. rewrite length_replicate in Hl.
    split_all; try assumption.
    + intros h. unfold resize_buckets. destruct (alloc h) as [[|] h']; simpl.
      * rewrite Hrun. reflexivity.
      * reflexivity.
    + unfold buckets_capacity in Hl. lia.
    + eapply index_ok_perm; [|exact Hfin].
      rewrite Hperm, app_nil_r, (ok_entries _ _ _ Hok).
      unfold strings_count. rewrite Hs. reflexivity.
Qed.

End Rehash.

Section Intern.

Local Ltac split_all :=
  unfold intern_post; cbv beta iota zeta;
  repeat match goal with |- _ /\ _ => split end.

Lemma store_new_ok T0 s b T h :
  index_ok (strings T) (buckets T) (seq 0 (strings_count T)) ->
  initialized T = true ->
  strings T = strings T0 ->
  probe (strings T) (buckets T) s = Ret (b, false) ->
  4 * (strings_count T + 1) <= 3 * buckets_capacity T ->
  intern_post s T0 h (store_new s b T h).
Proof.
  intros Hok Hinit Hsame Hp Hload.
  destruct (probe_missing _ _ _ _ _ Hok Hp) as [Hnone Hmiss].
  assert (Hnew : s ∉ strings T).
  { intros Hin. apply list_elem_of_lookup in Hin as [e He].
    apply (Hmiss e); [|assumption].
    apply elem_of_seq. apply lookup_lt_Some in He. unfold strings_count. lia. }
  assert (Hfinal : forall cap, table_ok
     {| strings := strings T ++ [s]; strings_capacity := cap;
        buckets := <[b := Some (strings_count T)]> (buckets T);
        initialized := initialized T |}).
  { intros cap. split; simpl; [| |assumption].
    - unfold strings_count at 2. simpl. rewrite length_app. simpl.
      rewrite Nat.add_1_r, seq_S. simpl.
      eapply index_ok_perm; [apply Permutation_cons_append|].
      apply (index_ok_insert (strings T) _ (buckets T) _ s b).
      + assumption.
      + intros i x Hi. rewrite lookup_app_l; [assumption|]. eapply lookup_lt_Some; eassumption.
      + rewrite length_app. lia.
      + apply NoDup_app. split; [apply (ok_strings _ _ _ Hok)|]. split.
        * intros x Hx Hx'. apply list_elem_of_singleton in Hx'. subst. contradiction.
        * apply NoDup_singleton.
      + rewrite elem_of_seq. unfold strings_count. lia.
      + unfold strings_count. rewrite lookup_app_r by lia.
        rewrite Nat.sub_diag. reflexivity.
      + assumption.
      + rewrite length_seq. unfold strings_count, buckets_capacity in *. lia.
    - unfold strings_count, buckets_capacity in *. simpl.
      rewrite length_app, length_insert. simpl. lia. }
  unfold store_new, ensure_strings_capacity.
  assert (Hlook : (strings T ++ [s]) !! strings_count T = Some s).
  { unfold strings_count. rewrite lookup_app_r by lia. rewrite Nat.sub_diag. reflexivity. }
  destruct (strings_count T <? strings_capacity T).
  - cbn [rbind]. destruct (alloc h) as [[|] h'] eqn:Ha; cbn [REQUIRE rbind].
    + split_all.
      * apply Hfinal.
      * exists (strings_count T). split; [reflexivity|exact Hlook].
      * exists [s]. simpl. rewrite Hsame. reflexivity.
      * intros Hh. eapply allocs_ok_step; eassumption.
    + intros Hh. destruct (allocs_ok_step _ _ _ Ha Hh). discriminate.
  - destruct (alloc h) as [[|] h1] eqn:Ha1; cbn [REQUIRE rbind].
    + destruct (alloc h1) as [[|] h2] eqn:Ha2; cbn [REQUIRE rbind].
      * split_all.
        -- apply Hfinal.
        -- exists (strings_count T). split; [reflexivity|exact Hlook].
        -- exists [s]. simpl. rewrite Hsame. reflexivity.
        -- intros Hh. destruct (allocs_ok_step _ _ _ Ha1 Hh) as [_ Hh1].
           eapply allocs_ok_step; eassumption.
      * intros Hh. destruct (allocs_ok_step _ _ _ Ha1 Hh) as [_ Hh1].
        destruct (allocs_ok_step _ _ _ Ha2 Hh1). discriminate.
    + intros Hh. destruct (allocs_ok_step _ _ _ Ha1 Hh). discriminate.
Qed.

Lemma string_intern_spec T s h :
  table_ok T -> intern_post s T h (string_intern (Some s) T h).
Proof.
  intros [Hok Hload Hinit].
  unfold string_intern. rewrite Hinit. cbn [REQUIRE rbind].
  rewrite find_bucket_probe.
  destruct (probe_total _ _ _ s Hok) as (b & f & Hp). rewrite Hp. cbn [rbind].
  destruct f.
  - pose proof (find_bucket_loop_sound _ _ _ _ _ _ _ _ Hp) as (e & Hb & Hs).
    rewrite Hb. split_all.
    + split; assumption.
    + exists e. split; [reflexivity|assumption].
    + exists []. rewrite app_nil_r. reflexivity.
    + auto.
  - destruct (probe_missing _ _ _ _ _ Hok Hp) as [Hnone Hmiss].
    destruct (load_exceeded T) eqn:Hle.
    + destruct (resize_buckets_ok T Hok) as (T1 & Hres & Hs1 & Hc1 & Hi1 & Hl1 & Hok1).
      rewrite Hres. destruct (alloc h) as [[|] h1] eqn:Ha; cbn [fst snd rbind].
      * rewrite find_bucket_probe.
        destruct (probe_total _ _ _ s Hok1) as (b1 & f1 & Hp1). rewrite Hp1.
        assert (f1 = false).
        { eapply probe_fresh; [exact Hok1| |exact Hp1].
          intros e He. rewrite Hs1. apply Hmiss.
          unfold strings_count in *. rewrite Hs1 in He. exact He. }
        subst f1. cbn [rbind negb REQUIRE].
        assert (Hpost : intern_post s T h1 (store_new s b1 T1 h1)).
        { apply store_new_ok; try assumption.
          - congruence.
          - pose proof (ok_room _ _ _ Hok) as Hroom. rewrite length_seq in Hroom.
            unfold strings_count, buckets_capacity in *. rewrite Hs1, Hl1. lia. }
        unfold store_new in Hpost.
        destruct (ensure_strings_capacity T1 h1) as [[T2 h2]|msg]; cbn [rbind] in *.
        -- destruct (alloc h2) as [[|] h3]; cbn [rbind REQUIRE] in *.
           ++ destruct Hpost as (P1 & P2 & P3 & P4). split_all; try assumption.
              intros Hh. apply P4. eapply allocs_ok_step; eassumption.
           ++ intros Hh. apply Hpost. eapply allocs_ok_step; eassumption.
        -- intros Hh. apply Hpost. eapply allocs_ok_step; eassumption.
      * intros Hh. destruct (allocs_ok_step _ _ _ Ha Hh). discriminate.
    + cbn [rbind].
      apply (store_new_ok T s b T h); try assumption; try reflexivity.
      unfold load_exceeded in Hle. apply Nat.ltb_ge in Hle. lia.
Qed.

End Intern.

Section Session.

Lemma round_up_pow2_ge fuel : forall c ic, c <= round_up_pow2 fuel c ic.
Proof.
  induction fuel as [|fuel IH]; intros c ic; simpl.
  - destruct (c <? ic); lia.
  - destruct (c <? ic); [|lia]. specialize (IH (c * 2) ic). lia.
Qed.

(** The fuel of [round_up_pow2] is enough: the loop ends because its
    condition fails. *)
Lemma round_up_pow2_reaches fuel : forall c ic,
  1 <= c -> ic <= c + fuel -> ic <= round_up_pow2 fuel c ic.
Proof.
  induction fuel as [|fuel IH]; intros c ic Hc Hic; simpl.
  - destruct (c <? ic) eqn:Hlt; [lia|]. apply Nat.ltb_ge in Hlt. exact Hlt.
  - destruct (c <? ic) eqn:Hlt.
    + apply IH; lia.
    + apply Nat.ltb_ge in Hlt. exact Hlt.
Qed.

Lemma string_table_init_ok ic rc h0 T0 h :
  string_table_init ic rc g_table_zero h0 = Ret (T0, h) ->
  table_ok T0 /\ strings T0 = [] /\ (allocs_ok h0 -> allocs_ok h).
Proof.
  unfold string_table_init. simpl initialized. cbv iota.
  destruct (alloc h0) as [[|] h1] eqn:Ha1; cbn [REQUIRE rbind]; [|discriminate].
  destruct (alloc h1) as [[|] h2] eqn:Ha2; cbn [REQUIRE rbind]; [|discriminate].
  destruct (rc =? 0)%Z; cbn [REQUIRE rbind]; [|discriminate].
  intros H. injection H as <- <-.
  set (ic' := if ic =? 0 then STRING_TABLE_INITIAL_CAPACITY else ic).
  pose proof (round_up_pow2_ge ic' 1 ic') as Hcap.
  split; [|split; [reflexivity|]].
  - split; simpl; [|lia|reflexivity].
    split; simpl.
    + apply NoDup_nil_2.
    + rewrite entries_replicate. reflexivity.
    + apply NoDup_nil_2.
    + intros e He. apply elem_of_nil in He. contradiction.
    + rewrite length_replicate. lia.
    + intros e s He. apply elem_of_nil in He. contradiction.
  - intros Hh. destruct (allocs_ok_step _ _ _ Ha1 Hh) as [_ Hh1].
    eapply allocs_ok_step; eassumption.
Qed.

Lemma intern_all_spec l : forall T h,
  table_ok T -> intern_all_post l T h (intern_all l T h).
Proof.
  induction l as [|[s|] l IH]; intros T h Hok; cbn [intern_all].
  - unfold intern_all_post. split; [assumption|]. split; [|split; [|split]].
    + exists []. rewrite app_nil_r. reflexivity.
    + intros i s H. discriminate.
    + intros i H. discriminate.
    + auto.
  - pose proof (string_intern_spec T s h Hok) as Hs. unfold intern_post in Hs.
    destruct (string_intern (Some s) T h) as [[[r T1] h1]|msg]; cbn [rbind]; [|exact Hs].
    destruct Hs as (Hok1 & (e & -> & He) & (ext1 & Hext1) & Hh1).
    specialize (IH T1 h1 Hok1). unfold intern_all_post in IH.
    destruct (intern_all l T1 h1) as [[[hs T2] h2]|msg]; cbn [rbind intern_all_post].
    + destruct IH as (Hok2 & (ext2 & Hext2) & Hrest & Hnull & Hh2).
      split; [assumption|]. split; [|split; [|split]].
      * exists (ext1 ++ ext2). rewrite Hext2, Hext1, app_assoc. reflexivity.
      * intros [|i] s' Hi; simpl in Hi.
        -- injection Hi as <-. exists e. split; [reflexivity|].
           rewrite Hext2. apply lookup_app_l_Some. assumption.
        -- apply Hrest. assumption.
      * intros [|i] Hi; simpl in Hi; [discriminate|]. apply Hnull. assumption.
      * auto.
    + auto.
  - specialize (IH T h Hok). unfold intern_all_post in IH.
    change (string_intern None T h) with (Ret (@None handle, T, h)). cbn [rbind].
    destruct (intern_all l T h) as [[[hs T2] h2]|msg]; cbn [rbind intern_all_post].
    + destruct IH as (Hok2 & Hext2 & Hrest & Hnull & Hh2).
      split; [assumption|]. split; [assumption|]. split; [|split].
      * intros [|i] s' Hi; simpl in Hi; [discriminate|]. apply Hrest. assumption.
      * intros [|i] Hi; simpl in Hi; [reflexivity|]. apply Hnull. assumption.
      * assumption.
    + assumption.
Qed.

Lemma session_table_ok T : session_table T -> table_ok T.
Proof.
  intros (ic & rc & h0 & T0 & h & l & hs & h' & Hinit & Hrun).
  apply string_table_init_ok in Hinit as (Hok & _).
  pose proof (intern_all_spec l T0 h Hok) as Hspec. rewrite Hrun in Hspec.
  apply Hspec.
Qed.

Lemma string_intern_found T s e h :
  table_ok T -> strings T !! e = Some s ->
  string_intern (Some s) T h = Ret (Some e, T, h).
Proof.
  intros [Hok Hload Hinit] Hs.
  destruct (probe_found _ _ _ s e Hok) as (b & Hp & Hb).
  { apply elem_of_seq. apply lookup_lt_Some in Hs. unfold strings_count. lia. }
  { assumption. }
  unfold string_intern. rewrite Hinit. cbn [REQUIRE rbind].
  rewrite find_bucket_probe, Hp. cbn [rbind]. rewrite Hb. reflexivity.
Qed.

End Session.

(** C5.  Within one session (from [string_table_init], through any
    sequence of [string_intern] calls, however the threads' calls are
    interleaved and however often the table grows): every call returns a
    handle unless an allocation fails and aborts the process; the handles
    returned for two calls are equal exactly when the interned contents
    are equal; and each handle still denotes its content at the end. *)
Theorem intern_same_handle_iff_same_content ic rc h0 T0 h l :
  string_table_init ic rc g_table_zero h0 = Ret (T0, h) ->
  (allocs_ok h -> exists hs T h', intern_all l T0 h = Ret (hs, T, h')) /\
  (forall hs T h', intern_all l T0 h = Ret (hs, T, h') ->
   forall i j s t, l !! i = Some (Some s) -> l !! j = Some (Some t) ->
   exists hi hj,
     hs !! i = Some (Some hi) /\ hs !! j = Some (Some hj) /\
     strings T !! hi = Some s /\ strings T !! hj = Some t /\
     (hi = hj <-> s = t)).
Proof.
  intros Hinit. apply string_table_init_ok in Hinit as (Hok & _ & _).
  pose proof (intern_all_spec l T0 h Hok) as Hspec. split.
  - intros Hh. destruct (intern_all l T0 h) as [[[hs T] h']|msg].
    + eauto.
    + contradiction.
  - intros hs T h' Hrun i j s t Hi Hj. rewrite Hrun in Hspec.
    destruct Hspec as (HokT & _ & Hget & _ & _).
    destruct (Hget _ _ Hi) as (hi & Hhi & Hsi).
    destruct (Hget _ _ Hj) as (hj & Hhj & Hsj).
    exists hi, hj. repeat split; try assumption.
    + intros ->. congruence.
    + intros ->. eapply NoDup_lookup; [|eassumption..].
      apply (ok_strings _ _ _ (tok_index _ HokT)).
Qed.

Lemma sample_table_init :
  string_table_init 1 0 g_table_zero [] = Ret (sample_table, []).
Proof. reflexivity. Qed.

Lemma intern_same_handle_iff_same_content_witness :
  string_table_init 1 0 g_table_zero [] = Ret (sample_table, []) /\
  (allocs_ok [] ->
   exists hs T h', intern_all sample_strings sample_table [] = Ret (hs, T, h')) /\
  (forall hs T h', intern_all sample_strings sample_table [] = Ret (hs, T, h') ->
   forall i j s t, sample_strings !! i = Some (Some s) ->
                   sample_strings !! j = Some (Some t) ->
   exists hi hj,
     hs !! i = Some (Some hi) /\ hs !! j = Some (Some hj) /\
     strings T !! hi = Some s /\ strings T !! hj = Some t /\
     (hi = hj <-> s = t)).
Proof.
  split; [exact sample_table_init|].
  exact (intern_same_handle_iff_same_content 1 0 [] sample_table []
           sample_strings sample_table_init).
Defined.

Example sample_handles :
  intern_all sample_strings sample_table [] =
    Ret ([Some 0; Some 1; Some 0; None; Some 2; Some 3; Some 4; Some 1; Some 2;
          Some 5; Some 0]%nat,
         {| strings := ["a"; "b"; ""; "c"; "d"; "e"]%string;
            strings_capacity := 256;
            buckets := [Some 5; None; Some 3; Some 4; Some 0; Some 1; Some 2; None]%nat;
            initialized := true |},
         []).
Proof. vm_compute. reflexivity. Qed.

(** C8.  [string_intern(nullptr)] returns [nullptr] and touches nothing.
    In a session, interning the empty string returns a handle unless an
    allocation fails and aborts; the handle is not [nullptr]; and
    interning the empty string again, at once or after any further calls,
    returns the same handle and leaves the table as it is. *)
Theorem intern_null_and_empty_string :
  (forall T h, string_intern None T h = Ret (None, T, h)) /\
  (forall T h,
     session_table T ->
     (allocs_ok h ->
      exists e T1 h1, string_intern (Some ""%string) T h = Ret (Some e, T1, h1)) /\
     (forall r T1 h1,
        string_intern (Some ""%string) T h = Ret (r, T1, h1) ->
        exists e, r = Some e /\ r <> None /\
          (forall h2, string_intern (Some ""%string) T1 h2 = Ret (Some e, T1, h2)) /\
          (forall l h2 hs T2 h3, intern_all l T1 h2 = Ret (hs, T2, h3) ->
           forall h4, string_intern (Some ""%string) T2 h4 = Ret (Some e, T2, h4)))).
Proof.
  split; [reflexivity|].
  intros T h Hsess. apply session_table_ok in Hsess.
  pose proof (string_intern_spec T ""%string h Hsess) as Hspec. unfold intern_post in Hspec.
  split.
  - intros Hh. destruct (string_intern (Some ""%string) T h) as [[[r T1] h1]|msg].
    + destruct Hspec as (_ & (e & -> & _) & _). eauto.
    + contradiction.
  - intros r T1 h1 Hrun. rewrite Hrun in Hspec.
    destruct Hspec as (Hok1 & (e & -> & He) & _ & _).
    exists e. split; [reflexivity|]. split; [discriminate|]. split.
    + intros h2. apply string_intern_found; assumption.
    + intros l h2 hs T2 h3 Hall h4.
      pose proof (intern_all_spec l T1 h2 Hok1) as Hs. rewrite Hall in Hs.
      destruct Hs as (Hok2 & (ext & Hext) & _).
      apply string_intern_found; [assumption|].
      rewrite Hext. apply lookup_app_l_Some. assumption.
Qed.

Lemma sample_table_session : session_table sample_table.
Proof.
  exists 1%nat, 0%Z, [], sample_table, [], [], [], []. split; reflexivity.
Qed.

Lemma intern_null_and_empty_string_witness :
  session_table sample_table /\
  (allocs_ok [] ->
   exists e T1 h1, string_intern (Some ""%string) sample_table [] = Ret (Some e, T1, h1)) /\
  (forall r T1 h1,
     string_intern (Some ""%string) sample_table [] = Ret (r, T1, h1) ->
     exists e, r = Some e /\ r <> None /\
       (forall h2, string_intern (Some ""%string) T1 h2 = Ret (Some e, T1, h2)) /\
       (forall l h2 hs T2 h3, intern_all l T1 h2 = Ret (hs, T2, h3) ->
        forall h4, string_intern (Some ""%string) T2 h4 = Ret (Some e, T2, h4))).
Proof.
  split; [exact sample_table_session|].
  exact (proj2 intern_null_and_empty_string sample_table [] sample_table_session).
Defined.

End InterningFacts.

Module FrameFacts.
Import Frame.

Lemma ensure_capacity_depth s h s' h' :
  ensure_capacity s h = Ret (s', h') -> tl_depth s' = tl_depth s.
Proof.
  unfold ensure_capacity. destruct (tl_depth s <? tl_capacity s).
  - intros H. injection H as <- <-. reflexivity.
  - destruct (alloc h) as [[|] h1]; cbn [REQUIRE rbind]; [|discriminate].
    intros H. injection H as <- <-. reflexivity.
Qed.

Lemma ensure_capacity_total s h :
  allocs_ok h -> exists s' h', ensure_capacity s h = Ret (s', h') /\ allocs_ok h'.
Proof.
  intros Hh. unfold ensure_capacity. destruct (tl_depth s <? tl_capacity s); [eauto|].
  destruct (alloc h) as [ok h1] eqn:Ha.
  destruct (allocs_ok_step _ _ _ Ha Hh) as [-> Hh1].
  cbn [REQUIRE rbind]. eauto.
Qed.

Lemma apply_op_depth o s h s' h' :
  apply_op o s h = Ret (s', h') ->
  Z.of_nat (tl_depth s') = unmatched_from (Z.of_nat (tl_depth s)) [o].
Proof.
  destruct o as [[info|]| |]; simpl.
  - destruct (ensure_capacity s h) as [[s1 h1]|msg] eqn:He; cbn [rbind]; [|discriminate].
    apply ensure_capacity_depth in He. intros H. injection H as <- <-. simpl. lia.
  - discriminate.
  - unfold frame_stack_pop. destruct (0 <? tl_depth s) eqn:Hd; cbn [REQUIRE rbind];
      [|discriminate].
    apply Nat.ltb_lt in Hd. intros H. injection H as <- <-. simpl. lia.
  - intros H. injection H as <- <-. reflexivity.
Qed.

Lemma unmatched_from_cons n o ops :
  unmatched_from n (o :: ops) = unmatched_from (unmatched_from n [o]) ops.
Proof. destruct o; reflexivity. Qed.

Lemma run_depth ops : forall s h s' h',
  run ops s h = Ret (s', h') ->
  Z.of_nat (tl_depth s') = unmatched_from (Z.of_nat (tl_depth s)) ops.
Proof.
  induction ops as [|o ops IH]; intros s h s' h' H; simpl in H.
  - injection H as <- <-. reflexivity.
  - destruct (apply_op o s h) as [[s1 h1]|msg] eqn:Ho; cbn [rbind] in H; [|discriminate].
    rewrite unmatched_from_cons, <- (apply_op_depth _ _ _ _ _ Ho). eauto.
Qed.

Lemma run_prefix ops1 ops2 : forall s h s' h',
  run (ops1 ++ ops2) s h = Ret (s', h') ->
  exists s1 h1, run ops1 s h = Ret (s1, h1) /\ run ops2 s1 h1 = Ret (s', h').
Proof.
  induction ops1 as [|o ops1 IH]; intros s h s' h' H; simpl in H |- *.
  - eauto.
  - destruct (apply_op o s h) as [[s0 h0]|msg]; cbn [rbind] in H |- *; [|discriminate].
    apply IH. exact H.
Qed.

Lemma run_total ops : forall s h,
  allocs_ok h -> balanced_from (Z.of_nat (tl_depth s)) ops ->
  exists s' h', run ops s h = Ret (s', h').
Proof.
  induction ops as [|o ops IH]; intros s h Hh Hb; simpl; [eauto|].
  assert (Hstep : exists s1 h1, apply_op o s h = Ret (s1, h1) /\ allocs_ok h1 /\
            balanced_from (Z.of_nat (tl_depth s1)) ops).
  { destruct o as [[info|]| |]; simpl in Hb |- *.
    - destruct Hb as [_ Hb].
      destruct (ensure_capacity_total s h Hh) as (s1 & h1 & He & Hh1).
      rewrite He. cbn [rbind]. eexists _, _. split; [reflexivity|]. split; [exact Hh1|].
      simpl. apply ensure_capacity_depth in He. rewrite He.
      replace (Z.of_nat (tl_depth s + 1)) with (Z.of_nat (tl_depth s) + 1)%Z by lia.
      exact Hb.
    - destruct Hb as [Hb _]. contradiction.
    - destruct Hb as [Hpos Hb]. unfold frame_stack_pop.
      assert (Hd : (0 <? tl_depth s) = true) by (apply Nat.ltb_lt; lia).
      rewrite Hd. cbn [REQUIRE rbind]. eexists _, _. split; [reflexivity|].
      split; [exact Hh|]. simpl.
      replace (Z.of_nat (tl_depth s - 1)) with (Z.of_nat (tl_depth s) - 1)%Z by lia.
      exact Hb.
    - eexists _, _. split; [reflexivity|]. split; [exact Hh|]. exact Hb. }
  destruct Hstep as (s1 & h1 & -> & Hh1 & Hb1). cbn [rbind]. eauto.
Qed.

(** Three frames pushed: the caller is the one below the top; after a
    pop it is the one below that. *)
Example caller_of_three :
  let F n := {| file := Some n; line := Z.of_nat n; func := Some n |} in
  match run [Push (Some (F 1)); Push (Some (F 2)); Push (Some (F 3))] thread_start [] with
  | Ret (s, _) =>
      frame_stack_caller s = Some (F 2) /\
      match frame_stack_pop s with
      | Ret s' => frame_stack_caller s' = Some (F 1)
      | Abort _ => False
      end
  | Abort _ => False
  end.
Proof. vm_compute. split; reflexivity. Qed.

End FrameFacts.

Module BarrierFacts.
Import Barrier.

Local Open Scope Z_scope.

(** ** The undisturbed functions are the steps run to the end *)

Lemma run_enter_alone b d :
  run_enter 5 E_check_initialized b d = Some (barrier_try_enter b d).
Proof.
  unfold barrier_try_enter. destruct b as [n [|] [|]]; reflexivity.
Qed.

Lemma run_leave_alone b d :
  run_leave 3 L_check_initialized b d = Some (barrier_leave b d).
Proof.
  unfold barrier_leave. destruct b as [n s [|]]; simpl; [|reflexivity].
  destruct (0 <? d); reflexivity.
Qed.

Lemma run_stop_parked fuel b d :
  0 < active_callbacks b ->
  run_stop fuel S_test_count b d = (Parked, b) /\
  run_stop fuel S_cond_wait b d = (Parked, b).
Proof.
  intros Hn. apply Z.ltb_lt in Hn.
  induction fuel as [|fuel [IH1 IH2]]; [split; reflexivity|].
  split; simpl.
  - rewrite Hn. exact IH2.
  - exact IH1.
Qed.

Lemma run_stop_alone fuel b d :
  (7 <= fuel)%nat ->
  run_stop fuel S_check_depth b d = barrier_stop b d.
Proof.
  intros Hfuel. do 7 (destruct fuel as [|fuel]; [lia|]). clear Hfuel.
  unfold barrier_stop.
  destruct (0 <? d) eqn:Hd; [simpl; rewrite Hd; reflexivity|].
  destruct b as [n [|] [|]]; simpl; rewrite Hd; try reflexivity.
  simpl. destruct (0 <? n) eqn:Hn; [|reflexivity].
  apply (run_stop_parked fuel {| active_callbacks := n; stopping := true; initialized := true |} d).
  apply Z.ltb_lt. exact Hn.
Qed.

(** ** The counter *)

Lemma total_held_insert ps tid p p' :
  ps !! tid = Some p ->
  total_held (<[tid := p']> ps) = total_held ps - held p + held p'.
Proof.
  revert tid. induction ps as [|q ps IH]; intros tid H; [discriminate|].
  destruct tid as [|tid]; simpl in *.
  - injection H as ->. lia.
  - rewrite (IH _ H). lia.
Qed.

Lemma held_nonneg p : 0 <= depth p -> 0 <= held p.
Proof.
  unfold held. destruct (act p) as [|[]|[]]; lia.
Qed.

Lemma total_held_nonneg ps :
  (forall p, p ∈ ps -> 0 <= depth p) -> 0 <= total_held ps.
Proof.
  induction ps as [|q ps IH]; intros H; simpl; [lia|].
  pose proof (held_nonneg q (H q ltac:(left))).
  assert (0 <= total_held ps) by (apply IH; intros p Hp; apply H; right; exact Hp).
  lia.
Qed.

Lemma total_held_zero ps :
  (forall p, p ∈ ps -> 0 <= depth p) -> total_held ps <= 0 -> drained ps.
Proof.
  induction ps as [|q ps IH]; intros Hd Hz p Hp.
  - apply elem_of_nil in Hp. contradiction.
  - simpl in Hz.
    pose proof (held_nonneg q (Hd q ltac:(left))) as Hq.
    assert (Hps : 0 <= total_held ps).
    { apply total_held_nonneg. intros p' Hp'. apply Hd. right. exact Hp'. }
    apply elem_of_cons in Hp as [->|Hp].
    + pose proof (Hd q ltac:(left)) as Hdq.
      unfold held in Hq, Hz.
      destruct (act q) as [|[]|[]]; split; try lia; try discriminate.
    + apply IH; [|lia|exact Hp]. intros p' Hp'. apply Hd. right. exact Hp'.
Qed.

Lemma elem_of_insert_cases (ps : list producer) tid p' q :
  q ∈ <[tid := p']> ps -> q = p' \/ q ∈ ps.
Proof.
  revert tid. induction ps as [|x ps IH]; intros tid H; simpl in H.
  - apply elem_of_nil in H. contradiction.
  - destruct tid as [|tid]; simpl in H.
    + apply elem_of_cons in H as [->|H]; [left; reflexivity|right; right; exact H].
    + apply elem_of_cons in H as [->|H]; [right; left|].
      destruct (IH _ H) as [->|H']; [left; reflexivity|right; right; exact H'].
Qed.


(** ** The invariant of the interleavings *)

Lemma total_held_start n :
  total_held (replicate n {| act := Running; depth := 0 |}) = 0.
Proof. induction n as [|n IH]; simpl; [reflexivity|]. rewrite IH. reflexivity. Qed.

Lemma invariant_start n : invariant (start n).
Proof.
  split; simpl.
  - symmetry. apply total_held_start.
  - intros p Hp. apply elem_of_replicate in Hp as [-> _]. simpl. lia.
  - reflexivity.
  - reflexivity.
  - intros [H|[H|[H|H]]]; discriminate.
  - discriminate.
  - discriminate.
Qed.

(** What one step of a producer does to the shared state and to what the
    producer holds. *)
Lemma producer_step_facts tid c b p l b' p' :
  producer_step tid c b p = Some (l, b', p') ->
  initialized b = true ->
  0 <= depth p ->
  active_callbacks b' = active_callbacks b - held p + held p' /\
  stopping b' = stopping b /\
  initialized b' = initialized b /\
  0 <= depth p' /\
  (stopping b = true -> depth p = 0 -> act p <> InLeave L_decrement ->
   depth p' = 0 /\ act p' <> InLeave L_decrement).
Proof.
  unfold producer_step, held. intros H Hinit Hd.
  destruct p as [a d]. simpl in *.
  destruct a as [|pc|pc].
  - destruct c; injection H as <- <- <-; simpl;
      repeat split; try lia; try discriminate.
  - destruct pc; simpl in H; rewrite ?Hinit in H; simpl in H;
      try destruct (stopping b) eqn:Hs;
      injection H as <- <- <-; simpl;
      repeat split; try lia; try discriminate; try congruence.
  - destruct pc; simpl in H; rewrite ?Hinit in H; simpl in H.
    + destruct (0 <? d) eqn:Hpos; [|discriminate].
      apply Z.ltb_lt in Hpos.
      injection H as <- <- <-; simpl. repeat split; try lia.
    + injection H as <- <- <-; simpl. repeat split; try lia; try discriminate.
      all: intros; congruence.
    + injection H as <- <- <-; simpl. repeat split; try lia; try discriminate.
Qed.

Lemma invariant_producer_step sys tid c p l b p' :
  invariant sys ->
  producers sys !! tid = Some p ->
  producer_step tid c (shared sys) p = Some (l, b, p') ->
  invariant {| shared := b; producers := <[tid := p']> (producers sys);
               stopping_thread := stopping_thread sys;
               stopper_depth := stopper_depth sys |}.
Proof.
  intros [Hcount Hdepth Hsd Hinit Hflag Hunset Hdr] Hp Hstep.
  assert (Hin : p ∈ producers sys) by (eapply list_elem_of_lookup_2; eassumption).
  destruct (producer_step_facts _ _ _ _ _ _ _ Hstep Hinit (Hdepth _ Hin))
    as (Hact & Hstop & Hini & Hd' & Hquiet).
  split; simpl.
  - rewrite (total_held_insert _ _ _ _ Hp). lia.
  - intros q Hq. apply elem_of_insert_cases in Hq as [->|Hq]; auto.
  - assumption.
  - congruence.
  - intros Hf. rewrite Hstop. auto.
  - intros Hf. rewrite Hstop. auto.
  - rewrite Hstop. intros Hs. destruct (Hdr Hs) as [Hw|Hq]; [left; exact Hw|right].
    intros q Hq'. apply elem_of_insert_cases in Hq' as [->|Hq']; [|auto].
    destruct (Hq _ Hin). auto.
Qed.

Lemma invariant_stopper_step sys l b s' :
  invariant sys ->
  stopper_step (shared sys) (stopping_thread sys) (stopper_depth sys) = (l, b, s') ->
  invariant {| shared := b; producers := producers sys;
               stopping_thread := s'; stopper_depth := stopper_depth sys |}.
Proof.
  intros [Hcount Hdepth Hsd Hinit Hflag Hunset Hdr] Hstep.
  unfold stopper_step in Hstep. rewrite Hsd in Hstep.
  assert (Hquiet : stopping (shared sys) = true ->
            ~ draining (stopping_thread sys) -> drained (producers sys)).
  { intros Hs Hn. destruct (Hdr Hs); [contradiction|assumption]. }
  destruct (stopping_thread sys) as [|pc] eqn:Hst.
  - injection Hstep as <- <- <-. split; simpl; try assumption.
    + intros [H|[H|[H|H]]]; discriminate.
    + discriminate.
    + intros Hs. right. apply Hquiet; [exact Hs|]. intros [H|H]; discriminate.
  - destruct pc; simpl in Hstep; rewrite ?Hinit in Hstep; simpl in Hstep.
    + injection Hstep as <- <- <-. split; simpl; try assumption.
      * intros [H|[H|[H|H]]]; discriminate.
      * discriminate.
      * intros Hs. right. apply Hquiet; [exact Hs|]. intros [H|H]; discriminate.
    + injection Hstep as <- <- <-. split; simpl; try assumption.
      * intros [H|[H|[H|H]]]; discriminate.
      * discriminate.
      * intros Hs. right. apply Hquiet; [exact Hs|]. intros [H|H]; discriminate.
    + injection Hstep as <- <- <-. split; simpl; try assumption.
      * intros [H|[H|[H|H]]]; discriminate.
      * discriminate.
      * intros Hs. right. apply Hquiet; [exact Hs|]. intros [H|H]; discriminate.
    + destruct (stopping (shared sys)) eqn:Hs; injection Hstep as <- <- <-;
        split; simpl; try assumption.
      * intros _. exact Hs.
      * discriminate.
      * intros _. right. apply Hquiet; [reflexivity|]. intros [H|H]; discriminate.
      * intros [H|[H|[H|H]]]; discriminate.
      * intros _. exact Hs.
      * rewrite Hs. discriminate.
    + injection Hstep as <- <- <-. split; simpl; try assumption.
      * reflexivity.
      * discriminate.
      * intros _. left. left. reflexivity.
    + destruct (0 <? active_callbacks (shared sys)) eqn:Hn; injection Hstep as <- <- <-;
        split; simpl; try assumption.
      * intros _. apply Hflag. left. reflexivity.
      * discriminate.
      * intros _. left. right. reflexivity.
      * intros _. apply Hflag. left. reflexivity.
      * discriminate.
      * intros _. right. apply total_held_zero; [assumption|].
        apply Z.ltb_ge in Hn. lia.
    + injection Hstep as <- <- <-. split; simpl; try assumption.
      * intros _. apply Hflag. right. left. reflexivity.
      * discriminate.
      * intros _. left. left. reflexivity.
    + injection Hstep as <- <- <-. split; simpl; try assumption.
      * intros [H|[H|[H|H]]]; discriminate.
      * discriminate.
      * intros Hs. right. apply Hquiet; [exact Hs|]. intros [H|H]; discriminate.
    + injection Hstep as <- <- <-. split; simpl; try assumption.
      * intros [H|[H|[H|H]]]; discriminate.
      * discriminate.
      * intros Hs. right. apply Hquiet; [exact Hs|]. intros [H|H]; discriminate.
Qed.

Lemma invariant_step sys l sys' : invariant sys -> step sys l sys' -> invariant sys'.
Proof.
  intros Hinv Hstep. destruct Hstep.
  - eapply invariant_producer_step; eassumption.
  - eapply invariant_stopper_step; eassumption.
Qed.

Lemma invariant_exec sys ls sys' : invariant sys -> exec sys ls sys' -> invariant sys'.
Proof.
  intros Hinv Hexec. induction Hexec; [assumption|].
  apply IHHexec. eapply invariant_step; eassumption.
Qed.


(** ** What the labels of a step tell *)

Lemma producer_step_stopping tid c b p l b' p' :
  producer_step tid c b p = Some (l, b', p') -> stopping b' = stopping b.
Proof.
  unfold producer_step. intros H. destruct (act p) as [|pc|pc].
  - destruct c; injection H as <- <- <-; reflexivity.
  - destruct pc; simpl in H;
      repeat match type of H with context [if ?c then _ else _] => destruct c eqn:? end;
      injection H as <- <- <-; simpl; congruence.
  - destruct pc; simpl in H;
      repeat match type of H with context [if ?c then _ else _] => destruct c eqn:? end;
      try discriminate; injection H as <- <- <-; simpl; congruence.
Qed.

Lemma step_keeps_stopping sys l sys' :
  step sys l sys' -> stopping (shared sys) = true -> stopping (shared sys') = true.
Proof.
  intros Hstep Hs. destruct Hstep as [sys tid c p l b p' Hp Hstep|sys l b s' Hstep]; simpl.
  - rewrite (producer_step_stopping _ _ _ _ _ _ _ Hstep). exact Hs.
  - unfold stopper_step in Hstep. destruct (stopping_thread sys) as [|pc].
    + injection Hstep as <- <- <-. exact Hs.
    + destruct pc; simpl in Hstep;
        repeat match type of Hstep with context [if ?c then _ else _] => destruct c eqn:? end;
        injection Hstep as <- <- <-; simpl; congruence.
Qed.

Lemma exec_keeps_stopping sys ls sys' :
  exec sys ls sys' -> stopping (shared sys) = true -> stopping (shared sys') = true.
Proof.
  intros Hexec. induction Hexec; [auto|].
  intros Hs. apply IHHexec. eapply step_keeps_stopping; eassumption.
Qed.






Local Ltac producer_moves tid c :=
  eapply exec_step; [eapply (step_producer _ tid c); reflexivity|]; cbn.
Local Ltac stopper_moves :=
  eapply exec_step; [eapply step_stopper; reflexivity|]; cbn.



(** ** The memory orders of the code *)

Lemma set_stopping_same b : set_stopping (stopping b) b = b.
Proof. destruct b. reflexivity. Qed.

(** A step in which the load is given the latest store is a step under
    the orders of the code. *)
Lemma ra_step_of_step rs l sys' :
  length (seen rs) = length (producers (latest rs)) ->
  step (latest rs) l sys' ->
  exists rs', ra_step rs l rs' /\ latest rs' = sys' /\
              length (seen rs') = length (producers sys').
Proof.
  intros Hlen Hstep. remember (latest rs) as sys eqn:Hsys.
  destruct Hstep as [sys tid c p l b p' Hp Hstep|sys l b s' Hstep]; subst sys.
  - destruct (lookup_lt_is_Some_2 (seen rs) tid) as [s Hs].
    { rewrite Hlen. eapply lookup_lt_Some. exact Hp. }
    pose proof (producer_step_stopping _ _ _ _ _ _ _ Hstep) as Hsame.
    eexists. split; [|split].
    + eapply (ra_step_producer rs tid c p s (stopping (shared (latest rs)))).
      * exact Hp.
      * exact Hs.
      * unfold may_read. rewrite Bool.eqb_reflx. reflexivity.
      * rewrite set_stopping_same. exact Hstep.
    + cbn [latest]. rewrite <- Hsame, set_stopping_same. reflexivity.
    + cbn [seen producers]. rewrite !length_insert. exact Hlen.
  - eexists. split; [|split].
    + eapply ra_step_stopper. exact Hstep.
    + reflexivity.
    + exact Hlen.
Qed.

(** The sequentially consistent executions are among the executions that
    the orders of the code allow. *)
Lemma ra_exec_of_exec sys ls sys' :
  exec sys ls sys' ->
  forall rs, latest rs = sys -> length (seen rs) = length (producers sys) ->
  exists rs', ra_exec rs ls rs' /\ latest rs' = sys'.
Proof.
  intros Hexec. induction Hexec as [|sys1 sys2 sys3 l ls Hstep Hrest IH]; intros rs Hl Hlen.
  - exists rs. split; [apply ra_exec_nil|exact Hl].
  - subst sys1. destruct (ra_step_of_step rs l sys2 Hlen Hstep) as (rs2 & Hs & Hl2 & Hlen2).
    destruct (IH rs2 Hl2 Hlen2) as (rs3 & He & Hl3).
    exists rs3. split; [|exact Hl3]. eapply ra_exec_step; eassumption.
Qed.



End BarrierFacts.

Module TrackingFacts.
Import Tracking TrackingSpec.

Local Open Scope Z_scope.

(** ** The barrier around a hook *)

Lemma try_enter_accepting g l :
  accepting g l ->
  try_enter_barrier g l =
    (true, set_barrier (Barrier.add_active 1 (barrier g)) g,
     set_callback_depth (tl_callback_depth l + 1) l).
Proof.
  intros (_ & Hi & Hs & _). unfold try_enter_barrier, Barrier.barrier_try_enter.
  destruct g as [m evs cap a [n s i]]. simpl in *. subst. reflexivity.
Qed.

Lemma leave_entered g l :
  Barrier.initialized (barrier g) = true -> 0 < tl_callback_depth l ->
  leave_barrier g l =
    Ret (set_barrier (Barrier.add_active (-1) (barrier g)) g,
         set_callback_depth (tl_callback_depth l - 1) l).
Proof.
  intros Hi Hd. unfold leave_barrier, Barrier.barrier_leave. rewrite Hi. simpl.
  apply Z.ltb_lt in Hd. rewrite Hd. reflexivity.
Qed.

(** ** The event registry *)

Lemma ensure_events_capacity_unfold needed g h :
  ensure_events_capacity needed g h =
    if events_count g + needed <=? events_capacity g then (true, g, h)
    else if fst (alloc h) then
      (true,
       set_events (events g)
         (double_until (Z.to_nat (events_count g + needed))
            (if events_capacity g =? 0 then INITIAL_EVENTS_CAPACITY
             else events_capacity g * 2)
            (events_count g + needed)) g,
       snd (alloc h))
    else (false, g, snd (alloc h)).
Proof.
  unfold ensure_events_capacity.
  destruct (events_count g + needed <=? events_capacity g); [reflexivity|].
  destruct (alloc h) as [[|] h']; reflexivity.
Qed.

(** The fuel of [double_until] is enough: the loop ends because its
    condition fails. *)
Lemma double_until_reaches fuel : forall c target,
  1 <= c -> target <= c + Z.of_nat fuel -> target <= double_until fuel c target.
Proof.
  induction fuel as [|fuel IH]; intros c target Hc Ht; simpl.
  - destruct (c <? target) eqn:Hlt; [lia|]. apply Z.ltb_ge in Hlt. exact Hlt.
  - destruct (c <? target) eqn:Hlt.
    + apply IH; lia.
    + apply Z.ltb_ge in Hlt. exact Hlt.
Qed.

(** When [ensure_events_capacity] returns 1 there is room for [needed]
    more records. *)
Lemma ensure_events_capacity_room needed g h g' h' :
  0 <= events_capacity g ->
  ensure_events_capacity needed g h = (true, g', h') ->
  events_count g' + needed <= events_capacity g'.
Proof.
  intros Hcap. rewrite ensure_events_capacity_unfold.
  destruct (events_count g + needed <=? events_capacity g) eqn:Hle.
  - intros H. injection H as <- <-. apply Z.leb_le. exact Hle.
  - destruct (fst (alloc h)); [|discriminate].
    intros H. injection H as <- <-. unfold events_count. cbn.
    apply Z.leb_gt in Hle. unfold events_count in Hle.
    apply double_until_reaches.
    + unfold INITIAL_EVENTS_CAPACITY. destruct (events_capacity g =? 0) eqn:H0; [lia|].
      apply Z.eqb_neq in H0. lia.
    + unfold INITIAL_EVENTS_CAPACITY. destruct (events_capacity g =? 0); lia.
Qed.

Lemma ensure_events_capacity_refused needed g h :
  no_room needed g -> fst (alloc h) = false ->
  ensure_events_capacity needed g h = (false, g, snd (alloc h)).
Proof.
  intros Hroom Ha. rewrite ensure_events_capacity_unfold, Ha.
  unfold no_room in Hroom.
  destruct (events_count g + needed <=? events_capacity g) eqn:Hle; [|reflexivity].
  apply Z.leb_le in Hle. lia.
Qed.

Lemma ensure_events_capacity_granted needed g h :
  ~ (no_room needed g /\ fst (alloc h) = false) ->
  exists cap h',
    ensure_events_capacity needed g h = (true, set_events (events g) cap g, h').
Proof.
  intros Hnot. rewrite ensure_events_capacity_unfold.
  destruct (events_count g + needed <=? events_capacity g) eqn:Hle.
  - exists (events_capacity g), h. destruct g; reflexivity.
  - destruct (fst (alloc h)) eqn:Ha; [eauto|].
    exfalso. apply Hnot. split; [|reflexivity].
    apply Z.leb_gt in Hle. exact Hle.
Qed.

Lemma ensure_events_capacity_cases needed g h :
  (no_room needed g /\ fst (alloc h) = false /\
   ensure_events_capacity needed g h = (false, g, snd (alloc h))) \/
  (~ (no_room needed g /\ fst (alloc h) = false) /\
   exists cap h',
     ensure_events_capacity needed g h = (true, set_events (events g) cap g, h')).
Proof.
  destruct (events_count g + needed <=? events_capacity g) eqn:Hle.
  - right. assert (Hn : ~ (no_room needed g /\ fst (alloc h) = false)).
    { intros [Hr _]. unfold no_room in Hr. apply Z.leb_le in Hle. lia. }
    split; [exact Hn|]. apply ensure_events_capacity_granted. exact Hn.
  - apply Z.leb_gt in Hle.
    destruct (Bool.bool_dec (fst (alloc h)) false) as [Ha|Ha].
    + left. split; [exact Hle|]. split; [exact Ha|].
      apply ensure_events_capacity_refused; assumption.
    + right. assert (Hn : ~ (no_room needed g /\ fst (alloc h) = false)).
      { intros [_ Hf]. contradiction. }
      split; [exact Hn|]. apply ensure_events_capacity_granted. exact Hn.
Qed.

(** ** The handlers *)

Lemma handle_ref_create_spec obj ty g l h :
  exists g' h',
    handle_ref_create obj ty g l h = (g', h') /\
    obj_creation_map g' =
      (if fst (alloc h)
       then <[obj := capture_creation ty l CreationInfo_zero]> (obj_creation_map g)
       else obj_creation_map g) /\
    barrier g' = barrier g /\
    tracking_active g' = tracking_active g /\
    ((growth_refused (RefTrace PyRefTracer_CREATE obj ty) g h /\ events g' = events g) \/
     (~ growth_refused (RefTrace PyRefTracer_CREATE obj ty) g h /\
      exists ev, events g' = events g ++ [ev] /\ type ev = EVENT_CREATE /\
                 obj_id ev = obj /\ creation_info ev = None)).
Proof.
  unfold handle_ref_create, vt_insert, growth_refused.
  destruct (alloc h) as [ok1 h1] eqn:Ha. cbn [fst snd].
  destruct ok1; cbv beta iota zeta; [rewrite insert_insert_eq|];
    match goal with
    | |- context [ensure_events_capacity 1 ?g0 ?h0] =>
        destruct (ensure_events_capacity_cases 1 g0 h0)
          as [(Hroom & Hfail & ->)|(Hnot & cap & h2 & ->)]
    end; cbn [negb].
  1, 3: eexists _, _; (split; [reflexivity|]); cbn;
    (split; [reflexivity|]); (split; [reflexivity|]); (split; [reflexivity|]);
    left; split; [split; [exact Hroom|exact Hfail]|reflexivity].
  all: unfold fill_create_event;
    destruct (copy_frame_info (top_of_stack l) FrameInfo_zero h2) as [loc h3];
    eexists _, _; (split; [reflexivity|]); cbn;
    (split; [reflexivity|]); (split; [reflexivity|]); (split; [reflexivity|]);
    right; (split; [exact Hnot|]); eexists; (split; [reflexivity|]); cbn; auto.
Qed.

Lemma handle_ref_destroy_spec obj ty g l h :
  exists g' h',
    handle_ref_destroy obj ty g l h = (g', h') /\
    obj_creation_map g' = delete obj (obj_creation_map g) /\
    barrier g' = barrier g /\
    tracking_active g' = tracking_active g /\
    ((growth_refused (RefTrace PyRefTracer_DESTROY obj ty) g h /\ events g' = events g) \/
     (~ growth_refused (RefTrace PyRefTracer_DESTROY obj ty) g h /\
      exists ev, events g' = events g ++ [ev] /\ type ev = EVENT_DESTROY /\
                 obj_id ev = obj /\
                 creation_info ev =
                   match obj_creation_map g !! obj with
                   | Some info => if fst (alloc h) then Some info else None
                   | None => None
                   end)).
Proof.
  unfold handle_ref_destroy, vt_get, vt_erase, growth_refused.
  destruct (obj_creation_map g !! obj) as [info|] eqn:Hget.
  - destruct (alloc h) as [ok1 h1] eqn:Ha. cbn [fst snd].
    destruct (ensure_events_capacity_cases 1 g h1)
      as [(Hroom & Hfail & ->)|(Hnot & cap & h2 & ->)].
    + eexists _, _. split; [reflexivity|]. cbn.
      split; [reflexivity|]. split; [reflexivity|]. split; [reflexivity|].
      left. auto.
    + unfold fill_destroy_event.
      destruct (copy_frame_info (top_of_stack l) FrameInfo_zero h2) as [loc h3].
      eexists _, _. split; [reflexivity|]. cbn.
      split; [reflexivity|]. split; [reflexivity|]. split; [reflexivity|].
      right. split; [exact Hnot|]. eexists. split; [reflexivity|]. cbn. auto.
  - destruct (ensure_events_capacity_cases 1 g h)
      as [(Hroom & Hfail & ->)|(Hnot & cap & h2 & ->)].
    + eexists _, _. split; [reflexivity|]. cbn.
      split; [symmetry; apply delete_id; exact Hget|].
      split; [reflexivity|]. split; [reflexivity|]. left. auto.
    + unfold fill_destroy_event.
      destruct (copy_frame_info (top_of_stack l) FrameInfo_zero h2) as [loc h3].
      eexists _, _. split; [reflexivity|]. cbn.
      split; [symmetry; apply delete_id; exact Hget|].
      split; [reflexivity|]. split; [reflexivity|].
      right. split; [exact Hnot|]. eexists. split; [reflexivity|]. cbn. auto.
Qed.

(** ** What the barrier calls and the registry leave alone *)

Lemma try_enter_barrier_frame g l entered g1 l1 :
  try_enter_barrier g l = (entered, g1, l1) ->
  obj_creation_map g1 = obj_creation_map g /\ events g1 = events g /\
  events_capacity g1 = events_capacity g /\ tracking_active g1 = tracking_active g /\
  call_stack l1 = call_stack l /\ stack_depth l1 = stack_depth l.
Proof.
  unfold try_enter_barrier.
  destruct (Barrier.barrier_try_enter (barrier g) (tl_callback_depth l)) as [[en b] d].
  intros H. injection H as <- <- <-. cbn. auto 10.
Qed.

Lemma leave_barrier_frame g l g1 l1 :
  leave_barrier g l = Ret (g1, l1) ->
  obj_creation_map g1 = obj_creation_map g /\ events g1 = events g /\
  events_capacity g1 = events_capacity g /\ tracking_active g1 = tracking_active g /\
  call_stack l1 = call_stack l /\ stack_depth l1 = stack_depth l.
Proof.
  unfold leave_barrier.
  destruct (Barrier.barrier_leave (barrier g) (tl_callback_depth l)) as [[b d]|msg];
    cbn; [|discriminate].
  intros H. injection H as <- <-. cbn. auto 10.
Qed.

Lemma ensure_events_capacity_frame needed g h ok g1 h1 :
  ensure_events_capacity needed g h = (ok, g1, h1) ->
  obj_creation_map g1 = obj_creation_map g /\ events g1 = events g /\
  tracking_active g1 = tracking_active g /\ barrier g1 = barrier g.
Proof.
  rewrite ensure_events_capacity_unfold.
  destruct (events_count g + needed <=? events_capacity g);
    [|destruct (fst (alloc h))]; intros H; injection H as <- <- <-; cbn; auto.
Qed.

Lemma add_active_cancel b :
  Barrier.add_active (-1) (Barrier.add_active 1 b) = b.
Proof.
  destruct b as [n s i]. unfold Barrier.add_active. cbn. f_equal. lia.
Qed.

(** ** The hooks of an accepted event *)

Lemma ref_tracer_callback_spec event obj ty g l h :
  accepting g l ->
  exists g' h',
    ref_tracer_callback event obj ty g l h = Ret (g', l, h') /\
    barrier g' = barrier g /\
    tracking_active g' = tracking_active g /\
    obj_creation_map g' =
      match event with
      | PyRefTracer_CREATE =>
          if fst (alloc h)
          then <[obj := capture_creation ty l CreationInfo_zero]> (obj_creation_map g)
          else obj_creation_map g
      | PyRefTracer_DESTROY => delete obj (obj_creation_map g)
      end /\
    ((growth_refused (RefTrace event obj ty) g h /\ events g' = events g) \/
     (~ growth_refused (RefTrace event obj ty) g h /\
      exists ev, events g' = events g ++ [ev] /\
                 type ev = match event with
                           | PyRefTracer_CREATE => EVENT_CREATE
                           | PyRefTracer_DESTROY => EVENT_DESTROY
                           end /\
                 obj_id ev = obj /\
                 creation_info ev =
                   match event with
                   | PyRefTracer_CREATE => None
                   | PyRefTracer_DESTROY =>
                       match obj_creation_map g !! obj with
                       | Some info => if fst (alloc h) then Some info else None
                       | None => None
                       end
                   end)).
Proof.
  intros Hacc. pose proof Hacc as (Hact & Hinit & Hstop & Hdepth).
  unfold ref_tracer_callback.
  apply Z.eqb_neq in Hact. rewrite Hact, (try_enter_accepting _ _ Hacc). cbn [negb].
  set (g1 := set_barrier (Barrier.add_active 1 (barrier g)) g).
  set (l1 := set_callback_depth (tl_callback_depth l + 1) l).
  assert (Hl : forall g2, barrier g2 = barrier g1 ->
            leave_barrier g2 l1 = Ret (set_barrier (barrier g) g2, l)).
  { intros g2 Hb. rewrite leave_entered.
    - rewrite Hb. subst g1 l1. cbn. rewrite add_active_cancel.
      destruct l as [cs sd d]. unfold set_callback_depth. cbn. do 3 f_equal. lia.
    - rewrite Hb. exact Hinit.
    - subst l1. cbn. lia. }
  destruct event.
  - destruct (handle_ref_create_spec obj ty g1 l1 h)
      as (g2 & h2 & -> & Hmap & Hbar & Hact2 & Hev).
    rewrite (Hl g2 Hbar). cbn [rbind].
    eexists _, _. split; [reflexivity|]. cbn.
    split; [reflexivity|]. split; [exact Hact2|]. split; [exact Hmap|].
    exact Hev.
  - destruct (handle_ref_destroy_spec obj ty g1 l1 h)
      as (g2 & h2 & -> & Hmap & Hbar & Hact2 & Hev).
    rewrite (Hl g2 Hbar). cbn [rbind].
    eexists _, _. split; [reflexivity|]. cbn.
    split; [reflexivity|]. split; [exact Hact2|]. split; [exact Hmap|].
    exact Hev.
Qed.




(** ** What any hook does to the call stack and to the creation map *)

Lemma before_original_eval_frame code g l h e g' l' h' :
  before_original_eval code g l h = Ret (e, g', l', h') ->
  obj_creation_map g' = obj_creation_map g /\
  stack_depth l' =
    match e with
    | Recorded _ =>
        if stack_depth l <? MAX_STACK_DEPTH then stack_depth l + 1 else stack_depth l
    | Skipped => stack_depth l
    end.
Proof.
  unfold before_original_eval.
  destruct (tracking_active g =? 0).
  { intros H. injection H as <- <- <- <-. auto. }
  destruct (try_enter_barrier g l) as [[en g1] l1] eqn:He.
  apply try_enter_barrier_frame in He as (Hm1 & _ & _ & _ & _ & Hs1).
  destruct en; cbn [negb].
  2: { intros H. injection H as <- <- <- <-. auto. }
  destruct code as [code|].
  - destruct (ensure_events_capacity 2 g1 h) as [[ok g2] h2] eqn:Hc.
    apply ensure_events_capacity_frame in Hc as (Hm2 & _ & _ & _).
    destruct ok; cbn [negb].
    + destruct (fill_call_event code (top_of_stack l1) h2) as [ev h3]. cbv zeta.
      match goal with
      | |- context [leave_barrier ?g3 ?l3] =>
          destruct (leave_barrier g3 l3) as [[g4 l4]|msg] eqn:Hl; cbn [rbind];
            [|discriminate]
      end.
      apply leave_barrier_frame in Hl as (Hm4 & _ & _ & _ & _ & Hs4).
      intros H. injection H as <- <- <- <-. split.
      * rewrite Hm4. cbn. congruence.
      * rewrite Hs4, <- Hs1. destruct (stack_depth l1 <? MAX_STACK_DEPTH); reflexivity.
    + destruct (leave_barrier g2 l1) as [[g4 l4]|msg] eqn:Hl; cbn [rbind]; [|discriminate].
      apply leave_barrier_frame in Hl as (Hm4 & _ & _ & _ & _ & Hs4).
      intros H. injection H as <- <- <- <-. split; congruence.
  - destruct (leave_barrier g1 l1) as [[g4 l4]|msg] eqn:Hl; cbn [rbind]; [|discriminate].
    apply leave_barrier_frame in Hl as (Hm4 & _ & _ & _ & _ & Hs4).
    intros H. injection H as <- <- <- <-. split; congruence.
Qed.

Lemma after_original_eval_frame saved res g l h g' l' h' :
  after_original_eval saved res g l h = Ret (g', l', h') ->
  obj_creation_map g' = obj_creation_map g /\
  stack_depth l' = if 0 <? stack_depth l then stack_depth l - 1 else stack_depth l.
Proof.
  unfold after_original_eval.
  set (l0 := if 0 <? stack_depth l
             then {| call_stack := call_stack l; stack_depth := stack_depth l - 1;
                     tl_callback_depth := tl_callback_depth l |}
             else l).
  assert (Hs0 : stack_depth l0 =
                if 0 <? stack_depth l then stack_depth l - 1 else stack_depth l).
  { subst l0. destruct (0 <? stack_depth l); reflexivity. }
  rewrite <- Hs0. clearbody l0. clear Hs0.
  destruct (try_enter_barrier g l0) as [[en g1] l1] eqn:He.
  apply try_enter_barrier_frame in He as (Hm1 & _ & _ & _ & _ & Hs1).
  destruct en; cbn [negb].
  2: { intros H. injection H as <- <- <-. auto. }
  destruct ((tracking_active g1 =? 0) || (events_capacity g1 =? 0))%bool.
  - destruct (leave_barrier g1 l1) as [[g4 l4]|msg] eqn:Hl; cbn [rbind]; [|discriminate].
    apply leave_barrier_frame in Hl as (Hm4 & _ & _ & _ & _ & Hs4).
    intros H. injection H as <- <- <-. split; congruence.
  - destruct (ensure_events_capacity 1 g1 h) as [[ok g2] h2] eqn:Hc.
    apply ensure_events_capacity_frame in Hc as (Hm2 & _ & _ & _).
    destruct ok; cbn [negb].
    + destruct (fill_return_event saved res h2) as [ev h3].
      match goal with
      | |- context [leave_barrier ?g3 ?l3] =>
          destruct (leave_barrier g3 l3) as [[g4 l4]|msg] eqn:Hl; cbn [rbind];
            [|discriminate]
      end.
      apply leave_barrier_frame in Hl as (Hm4 & _ & _ & _ & _ & Hs4).
      intros H. injection H as <- <- <-. split.
      * rewrite Hm4. cbn. congruence.
      * congruence.
    + destruct (leave_barrier g2 l1) as [[g4 l4]|msg] eqn:Hl; cbn [rbind]; [|discriminate].
      apply leave_barrier_frame in Hl as (Hm4 & _ & _ & _ & _ & Hs4).
      intros H. injection H as <- <- <-. split; congruence.
Qed.

Lemma ref_tracer_callback_frame event obj ty g l h g' l' h' :
  ref_tracer_callback event obj ty g l h = Ret (g', l', h') ->
  stack_depth l' = stack_depth l /\
  (forall o, o <> obj -> obj_creation_map g' !! o = obj_creation_map g !! o) /\
  (event = PyRefTracer_DESTROY -> obj_creation_map g !! obj = None ->
   obj_creation_map g' !! obj = None).
Proof.
  unfold ref_tracer_callback.
  destruct (tracking_active g =? 0).
  { intros H. injection H as <- <- <-. auto. }
  destruct (try_enter_barrier g l) as [[en g1] l1] eqn:He.
  apply try_enter_barrier_frame in He as (Hm1 & _ & _ & _ & _ & Hs1).
  destruct en; cbn [negb].
  2: { intros H. injection H as <- <- <-. rewrite Hm1. auto. }
  assert (Hh : exists g2 h2,
     match event with
     | PyRefTracer_CREATE => handle_ref_create obj ty g1 l1 h
     | PyRefTracer_DESTROY => handle_ref_destroy obj ty g1 l1 h
     end = (g2, h2) /\
     (forall o, o <> obj -> obj_creation_map g2 !! o = obj_creation_map g1 !! o) /\
     (event = PyRefTracer_DESTROY -> obj_creation_map g1 !! obj = None ->
      obj_creation_map g2 !! obj = None)).
  { destruct event.
    - destruct (handle_ref_create_spec obj ty g1 l1 h) as (g2 & h2 & Heq & Hm & _).
      exists g2, h2. split; [exact Heq|]. split; [|discriminate].
      intros o Ho. rewrite Hm. destruct (fst (alloc h)); [|reflexivity].
      apply lookup_insert_ne. congruence.
    - destruct (handle_ref_destroy_spec obj ty g1 l1 h) as (g2 & h2 & Heq & Hm & _).
      exists g2, h2. split; [exact Heq|]. split.
      + intros o Ho. rewrite Hm. apply lookup_delete_ne. congruence.
      + intros _ _. rewrite Hm. apply lookup_delete_eq. }
  destruct Hh as (g2 & h2 & -> & Hother & Hnone).
  destruct (leave_barrier g2 l1) as [[g4 l4]|msg] eqn:Hl; cbn [rbind]; [|discriminate].
  apply leave_barrier_frame in Hl as (Hm4 & _ & _ & _ & _ & Hs4).
  intros H. injection H as <- <- <-. rewrite Hm4, <- Hm1. split; [congruence|]. auto.
Qed.

(** ** Runs of hooks *)

Lemma run_hook_frame tid k p e p' :
  run_hook tid k p = Ret (e, p') ->
  (forall t, t <> tid -> locals p' t = locals p t) /\
  stack_depth (locals p' tid) =
    (let sd := stack_depth (locals p tid) in
     match k, e with
     | FrameEnter _, Recorded _ => if sd <? MAX_STACK_DEPTH then sd + 1 else sd
     | FrameExit _ _, _ => if 0 <? sd then sd - 1 else sd
     | _, _ => sd
     end) /\
  (forall o, match k with RefTrace _ obj _ => o <> obj | _ => True end ->
             obj_creation_map (globals p') !! o = obj_creation_map (globals p) !! o) /\
  (forall o, match k with RefTrace PyRefTracer_CREATE obj _ => o <> obj | _ => True end ->
             obj_creation_map (globals p) !! o = None ->
             obj_creation_map (globals p') !! o = None).
Proof.
  assert (Hset : forall l ls, (forall t, t <> tid -> set_locals tid l ls t = ls t) /\
                              set_locals tid l ls tid = l).
  { intros l ls. unfold set_locals. split.
    - intros t Ht. apply Nat.eqb_neq in Ht. rewrite Ht. reflexivity.
    - rewrite Nat.eqb_refl. reflexivity. }
  unfold run_hook. destruct k as [code|saved res|event obj ty].
  - destruct (before_original_eval code (globals p) (locals p tid) (memory p))
      as [[[[e0 g'] l'] h']|msg] eqn:Hb; cbn [rbind]; [|discriminate].
    apply before_original_eval_frame in Hb as [Hm Hs].
    intros H. injection H as <- <-. cbn.
    destruct (Hset l' (locals p)) as [Hother ->].
    split; [exact Hother|]. split.
    + rewrite Hs. destruct e0; reflexivity.
    + rewrite Hm. auto.
  - destruct (after_original_eval saved res (globals p) (locals p tid) (memory p))
      as [[[g' l'] h']|msg] eqn:Hb; cbn [rbind]; [|discriminate].
    apply after_original_eval_frame in Hb as [Hm Hs].
    intros H. injection H as <- <-. cbn.
    destruct (Hset l' (locals p)) as [Hother ->].
    split; [exact Hother|]. split; [exact Hs|]. rewrite Hm. auto.
  - destruct (ref_tracer_callback event obj ty (globals p) (locals p tid) (memory p))
      as [[[g' l'] h']|msg] eqn:Hb; cbn [rbind]; [|discriminate].
    apply ref_tracer_callback_frame in Hb as (Hs & Hm & Hnone).
    intros H. injection H as <- <-. cbn.
    destruct (Hset l' (locals p)) as [Hother ->].
    split; [exact Hother|]. split; [exact Hs|]. split; [exact Hm|].
    intros o Ho Hnil. destruct event.
    + rewrite Hm; assumption.
    + destruct (Z.eq_dec o obj) as [->|Hne]; [auto|]. rewrite Hm; assumption.
Qed.

Lemma run_hooks_nesting tid ks : forall p es p',
  run_hooks ks p = Ret (es, p') ->
  within_bound_from tid (stack_depth (locals p tid)) ks es ->
  stack_depth (locals p' tid) = nesting_from tid (stack_depth (locals p tid)) ks es.
Proof.
  induction ks as [|[t k] ks IH]; intros p es p' Hrun Hb; simpl in Hrun.
  - injection Hrun as <- <-. reflexivity.
  - destruct (run_hook t k p) as [[e p1]|msg] eqn:Hk; cbn [rbind] in Hrun; [|discriminate].
    destruct (run_hooks ks p1) as [[es1 p2]|msg] eqn:Hks; cbn [rbind] in Hrun;
      [|discriminate].
    injection Hrun as <- <-.
    apply run_hook_frame in Hk as (Hother & Hsd & _).
    simpl in Hb |- *. destruct (Nat.eqb t tid) eqn:Ht.
    + apply Nat.eqb_eq in Ht. subst t.
      assert (Hnext : forall n, stack_depth (locals p1 tid) = n ->
                within_bound_from tid n ks es1 ->
                stack_depth (locals p2 tid) = nesting_from tid n ks es1).
      { intros n <-. apply IH. exact Hks. }
      cbv zeta in Hsd. destruct k as [code|saved res|event obj ty].
      * destruct e.
        -- destruct Hb as [Hlt Hb]. apply Hnext; [|exact Hb].
           apply Z.ltb_lt in Hlt. rewrite Hsd, Hlt. reflexivity.
        -- apply Hnext; assumption.
      * destruct Hb as [Hpos Hb]. apply Hnext; [|exact Hb].
        apply Z.ltb_lt in Hpos. rewrite Hsd, Hpos. reflexivity.
      * apply Hnext; assumption.
    + apply Nat.eqb_neq in Ht.
      rewrite <- (Hother tid) in * by congruence. apply IH; assumption.
Qed.

Lemma run_hooks_prefix ks1 ks2 : forall p es p',
  run_hooks (ks1 ++ ks2) p = Ret (es, p') ->
  exists es1 p1 es2,
    run_hooks ks1 p = Ret (es1, p1) /\ run_hooks ks2 p1 = Ret (es2, p') /\
    es = es1 ++ es2.
Proof.
  induction ks1 as [|[t k] ks1 IH]; intros p es p' H; simpl in H |- *.
  - exists [], p, es. auto.
  - destruct (run_hook t k p) as [[e p0]|msg]; cbn [rbind] in H |- *; [|discriminate].
    destruct (run_hooks (ks1 ++ ks2) p0) as [[es0 p2]|msg] eqn:Hrest;
      cbn [rbind] in H; [|discriminate].
    injection H as <- <-.
    destruct (IH _ _ _ Hrest) as (es1 & p1 & es2 & -> & H2 & ->).
    cbn [rbind]. exists (e :: es1), p1, es2. auto.
Qed.

Lemma run_hooks_untouched obj ks : forall p es p',
  run_hooks ks p = Ret (es, p') ->
  untouched obj ks ->
  obj_creation_map (globals p') !! obj = obj_creation_map (globals p) !! obj.
Proof.
  induction ks as [|[t k] ks IH]; intros p es p' Hrun Hun; simpl in Hrun.
  - injection Hrun as <- <-. reflexivity.
  - destruct (run_hook t k p) as [[e p1]|msg] eqn:Hk; cbn [rbind] in Hrun; [|discriminate].
    destruct (run_hooks ks p1) as [[es1 p2]|msg] eqn:Hks; cbn [rbind] in Hrun;
      [|discriminate].
    injection Hrun as <- <-.
    apply run_hook_frame in Hk as (_ & _ & Hmap & _).
    rewrite (IH _ _ _ Hks).
    + apply Hmap. destruct k as [| |event o ty]; try exact I.
      apply not_eq_sym. eapply Hun. left.
    + intros tid event o ty Hin. eapply Hun. right. exact Hin.
Qed.

Lemma run_hooks_never_created obj ks : forall p es p',
  run_hooks ks p = Ret (es, p') ->
  never_created obj ks ->
  obj_creation_map (globals p) !! obj = None ->
  obj_creation_map (globals p') !! obj = None.
Proof.
  induction ks as [|[t k] ks IH]; intros p es p' Hrun Hnc Hnone; simpl in Hrun.
  - injection Hrun as <- <-. exact Hnone.
  - destruct (run_hook t k p) as [[e p1]|msg] eqn:Hk; cbn [rbind] in Hrun; [|discriminate].
    destruct (run_hooks ks p1) as [[es1 p2]|msg] eqn:Hks; cbn [rbind] in Hrun;
      [|discriminate].
    injection Hrun as <- <-.
    apply run_hook_frame in Hk as (_ & _ & _ & Hkeep).
    apply (IH _ _ _ Hks).
    + intros tid o ty Hin. eapply Hnc. right. exact Hin.
    + apply Hkeep; [|exact Hnone]. destruct k as [| |[|] o ty]; try exact I.
      apply not_eq_sym. eapply Hnc. left.
Qed.

(** ** Event-log growth *)




Lemma accepting_started : accepting started Locals_zero.
Proof. vm_compute. repeat split; congruence. Qed.



(** ** Depth of the call stacks *)

(** C4, as the code has it.  The Frame Stack of frame.c: at every point of
    a sequence of pushes, pops and clears that the code survives, its depth
    is the number of Calls minus Returns since the last clear, at any depth
    of recursion; and the code survives every sequence without a Return on
    an empty stack or a null push while allocation succeeds.  The
    [call_stack] of the frame hook in _tracking.c: at every point of a run
    of hooks a worker's [stack_depth] is its recorded Calls minus Returns
    since the stack was cleared, as long as the nesting has stayed within
    [MAX_STACK_DEPTH]. *)
Theorem frame_stack_depth_counts_unmatched_calls :
  (forall ops1 ops2 h,
     (forall s h', Frame.run (ops1 ++ ops2) Frame.thread_start h = Ret (s, h') ->
        exists s1 h1,
          Frame.run ops1 Frame.thread_start h = Ret (s1, h1) /\
          Z.of_nat (Frame.tl_depth s1) = Frame.unmatched ops1) /\
     (allocs_ok h -> Frame.balanced_from 0 (ops1 ++ ops2) ->
      exists s h', Frame.run (ops1 ++ ops2) Frame.thread_start h = Ret (s, h'))) /\
  (forall tid ks1 ks2 p es p',
     stack_depth (locals p tid) = 0 ->
     run_hooks (ks1 ++ ks2) p = Ret (es, p') ->
     exists es1 p1,
       run_hooks ks1 p = Ret (es1, p1) /\
       (within_bound_from tid 0 ks1 es1 ->
        stack_depth (locals p1 tid) = nesting_from tid 0 ks1 es1)).
Proof.
  split.
  - intros ops1 ops2 h. split.
    + intros s h' Hrun.
      destruct (FrameFacts.run_prefix _ _ _ _ _ _ Hrun) as (s1 & h1 & H1 & _).
      exists s1, h1. split; [exact H1|].
      apply (FrameFacts.run_depth _ _ _ _ _ H1).
    + intros Hh Hb. apply FrameFacts.run_total; assumption.
  - intros tid ks1 ks2 p es p' Hzero Hrun.
    destruct (run_hooks_prefix _ _ _ _ _ Hrun) as (es1 & p1 & es2 & H1 & _ & _).
    exists es1, p1. split; [exact H1|].
    intros Hb. rewrite <- Hzero in Hb |- *. apply run_hooks_nesting; assumption.
Qed.

Lemma sample_run_eq : run_hooks sample_hooks (started_process []) = Ret sample_run.
Proof. vm_compute. reflexivity. Qed.

Lemma frame_stack_depth_counts_unmatched_calls_witness :
  (allocs_ok [] /\
   Frame.balanced_from 0 ([Frame.Push (Some Frame.FRAME_NO_CALLER)] ++ [Frame.Pop]) /\
   exists s h', Frame.run ([Frame.Push (Some Frame.FRAME_NO_CALLER)] ++ [Frame.Pop])
                  Frame.thread_start [] = Ret (s, h')) /\
  (stack_depth (locals (started_process []) 0) = 0 /\
   run_hooks (take 2 sample_hooks ++ drop 2 sample_hooks) (started_process [])
     = Ret sample_run /\
   exists es1 p1,
     run_hooks (take 2 sample_hooks) (started_process []) = Ret (es1, p1) /\
     (within_bound_from 0 0 (take 2 sample_hooks) es1 ->
      stack_depth (locals p1 0) = nesting_from 0 0 (take 2 sample_hooks) es1)).
Proof.
  pose proof frame_stack_depth_counts_unmatched_calls as [Hframe Hhook].
  split.
  - assert (Hb : Frame.balanced_from 0
                   ([Frame.Push (Some Frame.FRAME_NO_CALLER)] ++ [Frame.Pop])).
    { simpl. repeat split; try discriminate; lia. }
    split; [exact allocs_ok_nil|]. split; [exact Hb|].
    exact (proj2 (Hframe _ _ []) allocs_ok_nil Hb).
  - split; [reflexivity|]. split; [exact sample_run_eq|].
    apply (Hhook 0%nat (take 2 sample_hooks) (drop 2 sample_hooks)
             (started_process []) (fst sample_run) (snd sample_run)).
    + reflexivity.
    + rewrite <- surjective_pairing. exact sample_run_eq.
Defined.

(** C4 as stated fails on the frame hook: 257 nested recorded calls leave
    [stack_depth] at 256. *)
Lemma deep_recursion_exceeds_call_stack :
  match run_hooks (replicate 257 (0%nat, FrameEnter (Some sample_call)))
          (started_process []) with
  | Ret (es, p) =>
      nesting_from 0 0 (replicate 257 (0%nat, FrameEnter (Some sample_call))) es = 257 /\
      stack_depth (locals p 0) = 256
  | Abort _ => False
  end.
Proof. vm_compute. split; reflexivity. Qed.

(** ** Creation correlation *)

(** C6, as the code has it.  (a) A CREATE notification that is let in and
    whose map insertion succeeds stores the CreationInfo captured from the
    worker's call stack, and the entry stays as stored while no CREATE or
    DESTROY notification for that identity is handled.  (b) A DESTROY for
    an identity with an entry erases the entry and, unless the record is
    dropped for lack of room, appends a DESTROY record that carries a copy
    equal to the stored CreationInfo when [malloc] gives the copy, and
    none when [malloc] fails.  (c) A DESTROY for an identity without an
    entry appends a DESTROY record without CreationInfo, and is no error.
    (d) An identity for which no CREATE was handled since [py_start] has
    no entry. *)
Theorem destroy_carries_the_creation_record :
  (forall tid obj ty p e p1 ks es p2,
     accepting (globals p) (locals p tid) ->
     fst (alloc (memory p)) = true ->
     run_hook tid (RefTrace PyRefTracer_CREATE obj ty) p = Ret (e, p1) ->
     untouched obj ks ->
     run_hooks ks p1 = Ret (es, p2) ->
     obj_creation_map (globals p2) !! obj =
       Some (capture_creation ty (locals p tid) CreationInfo_zero)) /\
  (forall tid obj ty p info,
     accepting (globals p) (locals p tid) ->
     obj_creation_map (globals p) !! obj = Some info ->
     exists e p',
       run_hook tid (RefTrace PyRefTracer_DESTROY obj ty) p = Ret (e, p') /\
       obj_creation_map (globals p') !! obj = None /\
       (dropped (globals p) (globals p') \/
        exists ev, events (globals p') = events (globals p) ++ [ev] /\
                   type ev = EVENT_DESTROY /\ obj_id ev = obj /\
                   creation_info ev =
                     if fst (alloc (memory p)) then Some info else None)) /\
  (forall tid obj ty p,
     accepting (globals p) (locals p tid) ->
     obj_creation_map (globals p) !! obj = None ->
     exists e p',
       run_hook tid (RefTrace PyRefTracer_DESTROY obj ty) p = Ret (e, p') /\
       (dropped (globals p) (globals p') \/
        exists ev, events (globals p') = events (globals p) ++ [ev] /\
                   type ev = EVENT_DESTROY /\ obj_id ev = obj /\
                   creation_info ev = None)) /\
  (forall obj ks h es p,
     never_created obj ks ->
     run_hooks ks (started_process h) = Ret (es, p) ->
     obj_creation_map (globals p) !! obj = None).
Proof.
  split; [|split; [|split]].
  - intros tid obj ty p e p1 ks es p2 Hacc Hins Hcreate Hun Hrun.
    rewrite (run_hooks_untouched _ _ _ _ _ Hrun Hun).
    unfold run_hook in Hcreate.
    destruct (ref_tracer_callback_spec PyRefTracer_CREATE obj ty _ _ (memory p) Hacc)
      as (g' & h' & Heq & _ & _ & Hmap & _).
    rewrite Heq in Hcreate. cbn [rbind] in Hcreate. injection Hcreate as <- <-.
    cbn. rewrite Hmap, Hins. apply lookup_insert_eq.
  - intros tid obj ty p info Hacc Hget. unfold run_hook.
    destruct (ref_tracer_callback_spec PyRefTracer_DESTROY obj ty _ _ (memory p) Hacc)
      as (g' & h' & -> & _ & _ & Hmap & Hev).
    cbn [rbind]. eexists _, _. split; [reflexivity|]. cbn. split.
    + rewrite Hmap. apply lookup_delete_eq.
    + destruct Hev as [[_ Hsame]|[_ (ev & Hev & Hty & Hid & Hci)]].
      * left. exact Hsame.
      * right. exists ev. rewrite Hget in Hci. auto.
  - intros tid obj ty p Hacc Hget. unfold run_hook.
    destruct (ref_tracer_callback_spec PyRefTracer_DESTROY obj ty _ _ (memory p) Hacc)
      as (g' & h' & -> & _ & _ & Hmap & Hev).
    cbn [rbind]. eexists _, _. split; [reflexivity|]. cbn.
    destruct Hev as [[_ Hsame]|[_ (ev & Hev & Hty & Hid & Hci)]].
    + left. exact Hsame.
    + right. exists ev. rewrite Hget in Hci. auto.
  - intros obj ks h es p Hnc Hrun.
    apply (run_hooks_never_created _ _ _ _ _ Hrun Hnc). reflexivity.
Qed.

Lemma destroy_carries_the_creation_record_witness :
  (accepting (globals sample_called) (locals sample_called 0) /\
   fst (alloc (memory sample_called)) = true /\
   run_hook 0 (RefTrace PyRefTracer_CREATE 16 (Some "int"%string)) sample_called
     = Ret (Skipped, sample_created) /\
   untouched 16 [(0%nat, FrameExit FrameInfo_zero None)] /\
   obj_creation_map (globals sample_created) !! 16 =
     Some (capture_creation (Some "int"%string) (locals sample_called 0)
             CreationInfo_zero)) /\
  (accepting (globals sample_created) (locals sample_created 0) /\
   exists e p',
     run_hook 0 (RefTrace PyRefTracer_DESTROY 16 (Some "int"%string)) sample_created
       = Ret (e, p') /\
     obj_creation_map (globals p') !! 16 = None /\
     (dropped (globals sample_created) (globals p') \/
      exists ev, events (globals p') = events (globals sample_created) ++ [ev] /\
                 type ev = EVENT_DESTROY /\ obj_id ev = 16 /\
                 creation_info ev =
                   if fst (alloc (memory sample_created))
                   then obj_creation_map (globals sample_created) !! 16
                   else None)) /\
  (accepting started Locals_zero /\
   exists e p',
     run_hook 0 (RefTrace PyRefTracer_DESTROY 32 None) (started_process []) = Ret (e, p') /\
     (dropped started (globals p') \/
      exists ev, events (globals p') = events started ++ [ev] /\
                 type ev = EVENT_DESTROY /\ obj_id ev = 32 /\
                 creation_info ev = None)) /\
  (never_created 32 sample_hooks /\
   obj_creation_map (globals (snd sample_run)) !! 32 = None).
Proof.
  pose proof destroy_carries_the_creation_record as (Hstored & Hfound & Hunseen & Hnever).
  assert (Hacc1 : accepting (globals sample_called) (locals sample_called 0)).
  { vm_compute. repeat split; congruence. }
  assert (Hacc2 : accepting (globals sample_created) (locals sample_created 0)).
  { vm_compute. repeat split; congruence. }
  assert (Hcreate :
    run_hook 0 (RefTrace PyRefTracer_CREATE 16 (Some "int"%string)) sample_called
      = Ret (Skipped, sample_created)).
  { vm_compute. reflexivity. }
  assert (Hun : untouched 16 [(0%nat, FrameExit FrameInfo_zero None)]).
  { intros tid event o ty Hin. apply list_elem_of_singleton in Hin. discriminate. }
  assert (Hget : exists info, obj_creation_map (globals sample_created) !! 16 = Some info).
  { vm_compute. eexists. reflexivity. }
  assert (Hnc : never_created 32 sample_hooks).
  { intros tid o ty Hin. unfold sample_hooks in Hin.
    repeat (apply elem_of_cons in Hin as [Hin|Hin]; [inversion Hin; subst; lia|]).
    apply elem_of_nil in Hin. contradiction. }
  split; [|split; [|split]].
  - split; [exact Hacc1|]. split; [reflexivity|]. split; [exact Hcreate|].
    split; [exact Hun|].
    apply (Hstored 0%nat 16 (Some "int"%string) sample_called Skipped sample_created
             [] [] sample_created Hacc1 eq_refl Hcreate).
    + intros tid event o ty Hin. apply elem_of_nil in Hin. contradiction.
    + reflexivity.
  - split; [exact Hacc2|]. destruct Hget as [info Hget]. rewrite Hget.
    exact (Hfound 0%nat 16 (Some "int"%string) sample_created info Hacc2 Hget).
  - split; [exact accepting_started|].
    apply (Hunseen 0%nat 32 None (started_process []) accepting_started). reflexivity.
  - split; [exact Hnc|].
    apply (Hnever 32 sample_hooks [] (fst sample_run) (snd sample_run) Hnc).
    rewrite <- surjective_pairing. exact sample_run_eq.
Defined.

(** C6 as stated fails: the identity 16 is created and stored, then
    destroyed while [malloc] cannot give the copy (the third answer of the
    oracle); the DESTROY record is appended without CreationInfo. *)
Lemma destroy_without_record_when_copy_fails :
  match run_hooks
          [ (0%nat, RefTrace PyRefTracer_CREATE 16 (Some "int"%string));
            (0%nat, RefTrace PyRefTracer_DESTROY 16 (Some "int"%string)) ]
          (started_process [true; true; false]) with
  | Ret (_, p) =>
      map type (events (globals p)) = [EVENT_CREATE; EVENT_DESTROY] /\
      map obj_id (events (globals p)) = [16; 16] /\
      map creation_info (events (globals p)) = [None; None]
  | Abort _ => False
  end.
Proof. vm_compute. repeat split. Qed.

End TrackingFacts.

Module SessionFacts.
Import Tracking TrackingSpec Samples.

Local Open Scope Z_scope.

(** ** Stopping from inside a protected section *)

(** C3.  Called by a thread whose nesting depth is positive,
    [barrier_stop] returns [STOP_FROM_CALLBACK] and leaves the barrier as
    it is; [py_stop] then fails with its error, the session is active
    afterwards and, [tracking_active] being the 1 that [py_start] wrote,
    the globals are what they were; [tracking_stop] returns
    [STOP_FROM_CALLBACK] and leaves its state as it is. *)
Theorem stop_from_inside_is_rejected :
  (forall b depth,
     0 < depth ->
     Barrier.barrier_stop b depth = (Barrier.Stopped Barrier.STOP_FROM_CALLBACK, b)) /\
  (forall encoder_ok g l,
     tracking_active g <> 0 -> 0 < tl_callback_depth l ->
     py_stop encoder_ok g l =
       (Returns (Py_RuntimeError "Cannot stop() from tracked callback"), set_active 1 g) /\
     py_is_active (set_active 1 g) = true /\
     (tracking_active g = 1 -> set_active 1 g = g)) /\
  (forall st,
     Callback.g_active st = true -> 0 < Callback.tl_callback_depth st ->
     Callback.tracking_stop st = (Barrier.Stopped Barrier.STOP_FROM_CALLBACK, st) /\
     Callback.tracking_is_active st = true).
Proof.
  split; [|split].
  - intros b depth Hd. unfold Barrier.barrier_stop.
    apply Z.ltb_lt in Hd. rewrite Hd. reflexivity.
  - intros enc g l Hact Hd. split; [|split].
    + unfold py_stop, Barrier.barrier_stop.
      apply Z.eqb_neq in Hact. rewrite Hact.
      apply Z.ltb_lt in Hd. cbn. rewrite Hd. reflexivity.
    + reflexivity.
    + intros H1. destruct g. unfold set_active. cbn in *. subst. reflexivity.
  - intros st Hact Hd. split; [|exact Hact].
    unfold Callback.tracking_stop, Barrier.barrier_stop.
    rewrite Hact. apply Z.ltb_lt in Hd. cbn. rewrite Hd.
    destruct st. reflexivity.
Qed.

Lemma stop_from_inside_is_rejected_witness :
  (0 < 1 /\
   Barrier.barrier_stop (Callback.g_barrier in_handler) 1 =
     (Barrier.Stopped Barrier.STOP_FROM_CALLBACK, Callback.g_barrier in_handler)) /\
  (tracking_active started <> 0 /\ 0 < tl_callback_depth inside_section /\
   py_stop true started inside_section =
     (Returns (Py_RuntimeError "Cannot stop() from tracked callback"), started)) /\
  (Callback.g_active in_handler = true /\ 0 < Callback.tl_callback_depth in_handler /\
   Callback.tracking_stop in_handler =
     (Barrier.Stopped Barrier.STOP_FROM_CALLBACK, in_handler)).
Proof.
  pose proof stop_from_inside_is_rejected as (Hbarrier & Hpy & Hsession).
  assert (Hact : tracking_active started <> 0) by (vm_compute; discriminate).
  assert (Hd : 0 < tl_callback_depth inside_section) by (simpl; lia).
  split; [|split].
  - split; [lia|]. apply Hbarrier. lia.
  - split; [exact Hact|]. split; [exact Hd|].
    destruct (Hpy true started inside_section Hact Hd) as (Hstop & _ & Hsame).
    rewrite Hstop. rewrite (Hsame eq_refl). reflexivity.
  - split; [reflexivity|]. split; [simpl; lia|].
    apply (Hsession in_handler); [reflexivity|simpl; lia].
Defined.

(** ** Stopping twice *)

(** Only [barrier_init] undoes a stop. *)
Lemma stopped_kept b depth :
  Barrier.stopped b ->
  Barrier.stopped (snd (fst (Barrier.barrier_try_enter b depth))) /\
  (forall b' d', Barrier.barrier_leave b depth = Ret (b', d') -> Barrier.stopped b') /\
  Barrier.stopped (snd (Barrier.barrier_stop b depth)) /\
  Barrier.stopped (Barrier.barrier_destroy b).
Proof.
  unfold Barrier.stopped, Barrier.barrier_try_enter, Barrier.barrier_leave,
    Barrier.barrier_stop, Barrier.barrier_destroy.
  destruct b as [n s i]. cbn. intros Hs.
  assert (Hcase : i = false \/ (i = true /\ s = true)).
  { destruct i; [right|left; reflexivity]. destruct Hs; [discriminate|auto]. }
  clear Hs. destruct Hcase as [->|[-> ->]]; cbn.
  - split; [auto|]. split; [|split; [|auto]].
    + intros b' d' H. injection H as <- <-. auto.
    + destruct (0 <? depth); cbn; auto.
  - split; [auto|]. split; [|split; [|auto]].
    + intros b' d'. destruct (0 <? depth); cbn; [|discriminate].
      intros H. injection H as <- <-. auto.
    + destruct (0 <? depth); cbn; auto.
Qed.

(** C7, as the code has it.  When [barrier_stop] returns [STOP_OK] the
    barrier is stopped (flag set, or destroyed) and the caller is outside
    any section; only [barrier_init] undoes that; and on a stopped barrier
    every call from outside a section returns [STOP_OK] at once, without
    waiting and without touching the barrier, whatever the in-flight
    counter is.  When [tracking_stop] returns [STOP_OK] the session is
    inactive, and on an inactive session it returns [STOP_OK] at once.
    [py_stop] is different: when it has handed the events over the session
    is inactive, and on an inactive session it fails with "Not started". *)
Theorem stop_again_after_success :
  (forall b depth b',
     Barrier.barrier_stop b depth = (Barrier.Stopped Barrier.STOP_OK, b') ->
     Barrier.stopped b' /\ depth <= 0) /\
  (forall b depth,
     Barrier.stopped b ->
     Barrier.stopped (snd (fst (Barrier.barrier_try_enter b depth))) /\
     (forall b' d', Barrier.barrier_leave b depth = Ret (b', d') -> Barrier.stopped b') /\
     Barrier.stopped (snd (Barrier.barrier_stop b depth)) /\
     Barrier.stopped (Barrier.barrier_destroy b)) /\
  (forall b depth,
     Barrier.stopped b -> depth <= 0 ->
     Barrier.barrier_stop b depth = (Barrier.Stopped Barrier.STOP_OK, b)) /\
  (forall st st',
     Callback.tracking_stop st = (Barrier.Stopped Barrier.STOP_OK, st') ->
     Callback.g_active st' = false) /\
  (forall st,
     Callback.g_active st = false ->
     Callback.tracking_stop st = (Barrier.Stopped Barrier.STOP_OK, st)) /\
  (forall encoder_ok g l r g',
     py_stop encoder_ok g l = (Returns r, g') ->
     r = Py_NoMemory \/ (exists handed_over, r = Py_Result handed_over) ->
     tracking_active g' = 0) /\
  (forall encoder_ok g l,
     tracking_active g = 0 ->
     py_stop encoder_ok g l = (Returns (Py_RuntimeError "Not started"), g)).
Proof.
  split; [|split; [|split; [|split; [|split; [|split]]]]].
  - intros b depth b' H. unfold Barrier.barrier_stop, Barrier.stopped in *.
    destruct (0 <? depth) eqn:Hd; [discriminate|]. apply Z.ltb_ge in Hd.
    split; [|exact Hd].
    destruct b as [n s i]. cbn in H. destruct i; cbn in H.
    + destruct s; cbn in H.
      * injection H as <-. right. reflexivity.
      * destruct (0 <? n); [discriminate|]. injection H as <-. right. reflexivity.
    + injection H as <-. left. reflexivity.
  - intros b depth Hs. apply stopped_kept. exact Hs.
  - intros b depth Hs Hd. unfold Barrier.barrier_stop.
    apply Z.ltb_ge in Hd. rewrite Hd.
    destruct Hs as [Hs|Hs]; rewrite Hs; cbn; [reflexivity|].
    destruct (Barrier.initialized b); reflexivity.
  - intros st st' H. unfold Callback.tracking_stop in H.
    destruct (Callback.g_active st) eqn:Hact; cbn [negb] in H.
    + destruct (Barrier.barrier_stop (Callback.g_barrier st) (Callback.tl_callback_depth st))
        as [[[|]|] b] eqn:Hb; try discriminate.
      injection H as <-. reflexivity.
    + injection H as <-. exact Hact.
  - intros st Hact. unfold Callback.tracking_stop. rewrite Hact. reflexivity.
  - intros enc g l r g' H Hr. unfold py_stop in H.
    destruct (tracking_active g =? 0) eqn:Hact.
    + injection H as <- <-. destruct Hr as [Hr|[evs Hr]]; discriminate.
    + destruct (Barrier.barrier_stop (barrier (set_active 0 g)) (tl_callback_depth l))
        as [[[|]|] b] eqn:Hb; try discriminate.
      * injection H as <- <-. reflexivity.
      * injection H as <- <-. destruct Hr as [Hr|[evs Hr]]; discriminate.
  - intros enc g l Hact. unfold py_stop. rewrite Hact. reflexivity.
Qed.

Lemma stop_again_after_success_witness :
  (Barrier.barrier_stop (barrier started) 0 =
     (Barrier.Stopped Barrier.STOP_OK, Barrier.set_stopping true (barrier started)) /\
   Barrier.stopped (Barrier.set_stopping true (barrier started)) /\
   Barrier.barrier_stop
     (Barrier.add_active 2 (Barrier.set_stopping true (barrier started))) 0 =
     (Barrier.Stopped Barrier.STOP_OK,
      Barrier.add_active 2 (Barrier.set_stopping true (barrier started)))) /\
  (fst (Callback.tracking_stop outside_handler) = Barrier.Stopped Barrier.STOP_OK /\
   Callback.tracking_stop (snd (Callback.tracking_stop outside_handler)) =
     (Barrier.Stopped Barrier.STOP_OK, snd (Callback.tracking_stop outside_handler))) /\
  (py_stop true started Locals_zero =
     (Returns (Py_Result []), snd (py_stop true started Locals_zero)) /\
   py_stop true (snd (py_stop true started Locals_zero)) Locals_zero =
     (Returns (Py_RuntimeError "Not started"), snd (py_stop true started Locals_zero))).
Proof.
  pose proof stop_again_after_success as (Hb1 & _ & Hb2 & Ht1 & Ht2 & Hp1 & Hp2).
  assert (H : Barrier.barrier_stop (barrier started) 0 =
              (Barrier.Stopped Barrier.STOP_OK, Barrier.set_stopping true (barrier started)))
    by reflexivity.
  assert (Ht : Callback.tracking_stop outside_handler =
               (Barrier.Stopped Barrier.STOP_OK, snd (Callback.tracking_stop outside_handler)))
    by reflexivity.
  assert (Hp : py_stop true started Locals_zero =
               (Returns (Py_Result []), snd (py_stop true started Locals_zero)))
    by reflexivity.
  split; [|split].
  - split; [exact H|]. destruct (Hb1 _ _ _ H) as [Hstopped Hdepth].
    split; [exact Hstopped|]. apply Hb2; [|exact Hdepth]. right. reflexivity.
  - split; [reflexivity|]. apply Ht2. exact (Ht1 _ _ Ht).
  - split; [exact Hp|]. apply Hp2. apply (Hp1 _ _ _ _ _ Hp). right. eexists. reflexivity.
Defined.

(** C7 as stated fails at the session level of _tracking.c: the first
    [py_stop] of a started session hands over the (empty) log, the second
    one fails. *)
Lemma second_py_stop_fails :
  fst (py_stop true started Locals_zero) = Returns (Py_Result []) /\
  fst (py_stop true (snd (py_stop true started Locals_zero)) Locals_zero) =
    Returns (Py_RuntimeError "Not started").
Proof. vm_compute. split; reflexivity. Qed.

(** ** Outside a session *)

(** C9.  For a string that is not [nullptr], [string_intern] on a table
    that is not initialized (never initialized, or destroyed) aborts with
    the diagnostic of [ASSERT_INITIALIZED]; it returns neither a value nor
    an error.  The barrier operations on a barrier that is not initialized
    all return: [barrier_try_enter] false, [barrier_leave] without effect,
    [barrier_stop] a result, which is [STOP_OK] from outside a section. *)
Theorem intern_outside_session_aborts :
  (forall s T h,
     Interning.initialized T = false ->
     Interning.string_intern (Some s) T h = Abort "StringTable not initialized") /\
  Interning.initialized Interning.g_table_zero = false /\
  (forall T, Interning.initialized (Interning.string_table_destroy T) = false) /\
  (forall b, Barrier.initialized (Barrier.barrier_destroy b) = false) /\
  (forall b depth,
     Barrier.initialized b = false ->
     Barrier.barrier_try_enter b depth = (false, b, depth) /\
     Barrier.barrier_leave b depth = Ret (b, depth) /\
     (exists r, Barrier.barrier_stop b depth = (Barrier.Stopped r, b)) /\
     (depth <= 0 -> Barrier.barrier_stop b depth = (Barrier.Stopped Barrier.STOP_OK, b))).
Proof.
  split; [|split; [|split; [|split]]].
  - intros s T h Hinit. unfold Interning.string_intern. rewrite Hinit. reflexivity.
  - reflexivity.
  - intros T. unfold Interning.string_table_destroy.
    destruct (Interning.initialized T) eqn:Hi; [reflexivity|exact Hi].
  - intros b. unfold Barrier.barrier_destroy.
    destruct (Barrier.initialized b) eqn:Hi; [reflexivity|exact Hi].
  - intros b depth Hinit.
    unfold Barrier.barrier_try_enter, Barrier.barrier_leave, Barrier.barrier_stop.
    rewrite Hinit. cbn. split; [reflexivity|]. split; [reflexivity|]. split.
    + destruct (0 <? depth); eauto.
    + intros Hd. apply Z.ltb_ge in Hd. rewrite Hd. reflexivity.
Qed.

Lemma intern_outside_session_aborts_witness :
  (Interning.initialized (Interning.string_table_destroy Interning.sample_table)
     = false /\
   Interning.string_intern (Some "late"%string)
     (Interning.string_table_destroy Interning.sample_table) [] =
     Abort "StringTable not initialized") /\
  (Barrier.initialized (Barrier.barrier_destroy (barrier started)) = false /\
   Barrier.barrier_try_enter (Barrier.barrier_destroy (barrier started)) 0 =
     (false, Barrier.barrier_destroy (barrier started), 0) /\
   Barrier.barrier_leave (Barrier.barrier_destroy (barrier started)) 1 =
     Ret (Barrier.barrier_destroy (barrier started), 1) /\
   Barrier.barrier_stop (Barrier.barrier_destroy (barrier started)) 0 =
     (Barrier.Stopped Barrier.STOP_OK, Barrier.barrier_destroy (barrier started))).
Proof.
  pose proof intern_outside_session_aborts as (Hintern & _ & Hdestroyed & Hbd & Hbarrier).
  split.
  - split; [apply Hdestroyed|]. apply Hintern. apply Hdestroyed.
  - split; [apply Hbd|].
    split; [apply (Hbarrier _ 0 (Hbd _))|].
    split; [apply (Hbarrier _ 1 (Hbd _))|].
    apply (Hbarrier _ 0 (Hbd _)). lia.
Defined.

(** ** Dispatch of a null event *)

(** C10.  With a null event [tracking_dispatch] returns at once: the
    state is what it was, active or not; in particular the barrier counter
    and the caller's depth are untouched and no callback was called.
    [barrier_dispatch] does the same for a null callback. *)
Theorem dispatch_null_event_is_noop :
  (forall invoke st, Callback.tracking_dispatch invoke None st = Ret st) /\
  (forall st : Callback.state,
     Barrier.barrier_dispatch Callback.get_barrier Callback.set_barrier None st = Ret st).
Proof.
  split.
  - intros invoke st. unfold Callback.tracking_dispatch. reflexivity.
  - intros st. unfold Barrier.barrier_dispatch. reflexivity.
Qed.

(** With an event, an active session and an open barrier the same call
    does enter the barrier and call the callback. *)
Example dispatch_event_delivers :
  let event := Callback.RawDestroy
                 {| Callback.destroy_obj_id := 16; Callback.destroy_type_name := None;
                    Callback.destroy_thread_id := 1; Callback.destroy_timestamp_ns := 5 |} in
  match Callback.tracking_dispatch (fun _ _ _ st => Ret st) (Some event) in_handler with
  | Ret st => Callback.delivered st = [(7%nat, event, 0)] /\
              Callback.tl_callback_depth st = 1
  | Abort _ => False
  end.
Proof. vm_compute. split; reflexivity. Qed.

End SessionFacts.

(* ---------------------------------------------------------------------- *)
(** ** interning.c: lookups, counts and growth                              *)
(* ---------------------------------------------------------------------- *)

Module InterningLaws.
Import Interning InterningFacts.

(** The tail of [string_intern] for a new string: it stores the string in
    the next slot, or aborts after a failed allocation. *)
Lemma store_new_cases s b T h :
  (exists T' h',
     store_new s b T h = Ret (Some (strings_count T), T', h') /\
     strings T' = strings T ++ [s] /\
     buckets_capacity T' = buckets_capacity T) \/
  (exists msg, store_new s b T h = Abort msg /\ allocation_failure msg).
Proof.
  unfold store_new, ensure_strings_capacity, allocation_failure.
  destruct (strings_count T <? strings_capacity T); cbn [rbind].
  - destruct (alloc h) as [[|] h1]; cbn [REQUIRE rbind].
    + left. eexists _, _. split; [reflexivity|]. split; [reflexivity|].
      unfold buckets_capacity. cbn. apply length_insert.
    + right. eexists. split; [reflexivity|]. auto.
  - destruct (alloc h) as [[|] h1]; cbn [REQUIRE rbind].
    + destruct (alloc h1) as [[|] h2]; cbn [REQUIRE rbind].
      * left. eexists _, _. split; [reflexivity|]. split; [reflexivity|].
        unfold buckets_capacity. cbn. apply length_insert.
      * right. eexists. split; [reflexivity|]. auto.
    + right. eexists. split; [reflexivity|]. auto.
Qed.

(** What [string_intern] does with a string, by whether [strings[]] holds
    its content. *)
Lemma string_intern_cases T s h :
  table_ok T ->
  (exists e, strings T !! e = Some s /\
             string_intern (Some s) T h = Ret (Some e, T, h)) \/
  ((s ∉ strings T) /\
   ((exists T' h',
       string_intern (Some s) T h = Ret (Some (strings_count T), T', h') /\
       strings T' = strings T ++ [s] /\
       (buckets_capacity T' = buckets_capacity T \/
        buckets_capacity T' = 2 * buckets_capacity T)) \/
    (exists msg, string_intern (Some s) T h = Abort msg /\ allocation_failure msg))).
Proof.
  intros HT. destruct (decide (s ∈ strings T)) as [Hin|Hnin].
  - left. apply list_elem_of_lookup in Hin as [e He]. exists e. split; [exact He|].
    apply string_intern_found; assumption.
  - right. split; [exact Hnin|]. destruct HT as [Hok Hload Hinit].
    assert (Hfresh : forall strs, strs = strings T ->
              forall e : nat, strs !! e <> Some s).
    { intros strs -> e He. apply Hnin. eapply list_elem_of_lookup_2. exact He. }
    unfold string_intern. rewrite Hinit. cbn [REQUIRE rbind].
    rewrite find_bucket_probe.
    destruct (probe_total _ _ _ s Hok) as (b & f & Hp). rewrite Hp. cbn [rbind].
    assert (f = false).
    { eapply probe_fresh; [exact Hok| |exact Hp]. intros e _. apply Hfresh. reflexivity. }
    subst f. destruct (load_exceeded T).
    + destruct (resize_buckets_ok T Hok) as (T1 & Hres & Hs1 & Hc1 & Hi1 & Hl1 & Hok1).
      rewrite Hres. destruct (alloc h) as [[|] h1]; cbn [fst snd rbind].
      * rewrite find_bucket_probe.
        destruct (probe_total _ _ _ s Hok1) as (b1 & f1 & Hp1). rewrite Hp1.
        assert (f1 = false).
        { eapply probe_fresh; [exact Hok1| |exact Hp1]. intros e _. apply Hfresh.
          exact Hs1. }
        subst f1. cbn [rbind negb REQUIRE].
        destruct (store_new_cases s b1 T1 h1)
          as [(T' & h' & Hst & Hs' & Hb')|(msg & Hst & Hmsg)];
          unfold store_new in Hst; rewrite Hst.
        -- left. exists T', h'. unfold strings_count, buckets_capacity in *.
           rewrite Hs1. split; [reflexivity|]. split; [congruence|]. right. lia.
        -- right. exists msg. auto.
      * right. eexists. split; [reflexivity|]. left. reflexivity.
    + cbn [rbind].
      destruct (store_new_cases s b T h)
        as [(T' & h' & Hst & Hs' & Hb')|(msg & Hst & Hmsg)];
        unfold store_new in Hst; rewrite Hst.
      * left. exists T', h'. auto.
      * right. exists msg. auto.
Qed.

(** A successful call leaves a table of a session. *)
Lemma string_intern_keeps_ok T s h r T' h' :
  table_ok T -> string_intern (Some s) T h = Ret (r, T', h') -> table_ok T'.
Proof.
  intros HT H. pose proof (string_intern_spec T s h HT) as Hpost.
  rewrite H in Hpost. apply Hpost.
Qed.

Lemma intern_all_keeps_ok l T h hs T' h' :
  table_ok T -> intern_all l T h = Ret (hs, T', h') -> table_ok T'.
Proof.
  intros HT H. pose proof (intern_all_spec l T h HT) as Hpost.
  rewrite H in Hpost. apply Hpost.
Qed.

Lemma intern_all_extends l T h hs T' h' :
  table_ok T -> intern_all l T h = Ret (hs, T', h') ->
  exists ext, strings T' = strings T ++ ext.
Proof.
  intros HT H. pose proof (intern_all_spec l T h HT) as Hpost.
  rewrite H in Hpost. apply Hpost.
Qed.

Lemma string_table_lookup_stored T e s :
  table_ok T -> strings T !! e = Some s -> string_table_lookup e T = Ret s.
Proof.
  intros [_ _ Hinit] Hs. unfold string_table_lookup. rewrite Hinit. cbn [REQUIRE rbind].
  pose proof (lookup_lt_Some _ _ _ Hs) as Hlt. apply Nat.ltb_lt in Hlt.
  unfold strings_count. rewrite Hlt. cbn [REQUIRE rbind]. rewrite Hs. reflexivity.
Qed.

(** X1.  Round trip: the handle that [string_intern] returns for a string
    is an offset at which [string_table_lookup] returns that string, right
    away and after any further calls of [string_intern] in the session
    (growth of [strings[]] and rebuilds of the index included). *)
Theorem lookup_returns_the_interned_string T s h e T1 h1 l hs T2 h2 :
  session_table T ->
  string_intern (Some s) T h = Ret (Some e, T1, h1) ->
  intern_all l T1 h1 = Ret (hs, T2, h2) ->
  string_table_lookup e T1 = Ret s /\ string_table_lookup e T2 = Ret s.
Proof.
  intros HT Hin Hall. apply session_table_ok in HT.
  pose proof (string_intern_spec T s h HT) as Hpost. rewrite Hin in Hpost.
  destruct Hpost as (HT1 & (e' & He' & Hs) & _ & _). injection He' as <-.
  split; [apply string_table_lookup_stored; assumption|].
  destruct (intern_all_extends _ _ _ _ _ _ HT1 Hall) as [ext Hext].
  apply string_table_lookup_stored; [eapply intern_all_keeps_ok; eassumption|].
  rewrite Hext. apply lookup_app_l_Some. exact Hs.
Qed.

Lemma lookup_returns_the_interned_string_witness :
  string_table_lookup 0 (snd (fst (match string_intern (Some "a"%string) sample_table []
                                   with Ret r => r | Abort _ => (None, sample_table, []) end)))
    = Ret "a"%string.
Proof.
  refine (proj1 (lookup_returns_the_interned_string sample_table "a"%string [] 0 _ []
                   [] [] _ [] sample_table_session _ _)); reflexivity.
Defined.

(** X2.  Interning a string again is a pure hit: the call returns the
    handle of the first call, leaves the table as it is and allocates
    nothing, so it succeeds even when no memory is left. *)
Theorem intern_again_changes_nothing T s h r T1 h1 h' :
  session_table T ->
  string_intern (Some s) T h = Ret (r, T1, h1) ->
  string_intern (Some s) T1 h' = Ret (r, T1, h').
Proof.
  intros HT Hin. apply session_table_ok in HT.
  pose proof (string_intern_spec T s h HT) as Hpost. rewrite Hin in Hpost.
  destruct Hpost as (HT1 & (e & -> & Hs) & _ & _).
  apply string_intern_found; assumption.
Qed.

Lemma intern_again_changes_nothing_witness :
  string_intern (Some "a"%string)
    {| strings := ["a"%string]; strings_capacity := 256;
       buckets := [Some 0; None]; initialized := true |} [false]
  = Ret (Some 0,
         {| strings := ["a"%string]; strings_capacity := 256;
            buckets := [Some 0; None]; initialized := true |}, [false]).
Proof.
  apply (intern_again_changes_nothing sample_table "a"%string [] (Some 0) _ [] [false]
           sample_table_session).
  reflexivity.
Defined.

Lemma first_seen_intern_all l : forall T h hs T' h',
  table_ok T -> intern_all l T h = Ret (hs, T', h') ->
  strings T' = strings T ++ first_seen (strings T) l.
Proof.
  induction l as [|[s|] l IH]; intros T h hs T' h' HT H; cbn [intern_all] in H.
  - injection H as <- <- <-. simpl. rewrite app_nil_r. reflexivity.
  - destruct (string_intern (Some s) T h) as [[[r T1] h1]|msg] eqn:Hs;
      cbn [rbind] in H; [|discriminate].
    destruct (intern_all l T1 h1) as [[[rs T2] h2]|msg] eqn:Hl;
      cbn [rbind] in H; [|discriminate].
    injection H as <- <- <-.
    pose proof (string_intern_keeps_ok _ _ _ _ _ _ HT Hs) as HT1.
    rewrite (IH _ _ _ _ _ HT1 Hl). cbn [first_seen].
    destruct (string_intern_cases T s h HT)
      as [(e & He & Heq)|(Hnin & [(T' & h' & Heq & Hstr & _)|(msg & Heq & _)])];
      rewrite Heq in Hs; try discriminate; injection Hs as <- <- <-.
    + rewrite decide_True by (eapply list_elem_of_lookup_2; exact He). reflexivity.
    + rewrite decide_False by exact Hnin. rewrite Hstr, <- app_assoc. reflexivity.
  - cbn [string_intern rbind] in H.
    destruct (intern_all l T h) as [[[rs T2] h2]|msg] eqn:Hl;
      cbn [rbind] in H; [|discriminate].
    injection H as <- <- <-. cbn [first_seen]. eapply IH; eassumption.
Qed.

(** X3.  Handles are given out in the order of first appearance: after a
    session's calls [strings[]] lists each distinct content once, in the
    order in which the calls met it, and [string_table_count] is the
    number of distinct contents. *)
Theorem count_is_the_number_of_distinct_strings ic rc h0 T0 h l hs T h' :
  string_table_init ic rc g_table_zero h0 = Ret (T0, h) ->
  intern_all l T0 h = Ret (hs, T, h') ->
  strings T = first_seen [] l /\
  string_table_count T = length (remove_dups (omap id l)).
Proof.
  intros Hinit Hall.
  apply string_table_init_ok in Hinit as (HT0 & Hnil & _).
  pose proof (first_seen_intern_all _ _ _ _ _ _ HT0 Hall) as Hstr.
  rewrite Hnil in Hstr. simpl in Hstr. split; [exact Hstr|].
  pose proof (intern_all_keeps_ok _ _ _ _ _ _ HT0 Hall) as [Hok _ _].
  pose proof (ok_strings _ _ _ Hok) as Hnd.
  pose proof (intern_all_spec l T0 h HT0) as Hpost. rewrite Hall in Hpost.
  destruct Hpost as (_ & _ & Hfound & _).
  unfold string_table_count, strings_count.
  apply Permutation_length. apply NoDup_Permutation.
  - exact Hnd.
  - apply NoDup_remove_dups.
  - intros s. rewrite elem_of_remove_dups, list_elem_of_omap. split.
    + rewrite Hstr. clear. generalize (@nil string) as seen.
      induction l as [|[x|] l IH]; intros seen Hin; simpl in Hin.
      * apply elem_of_nil in Hin. contradiction.
      * destruct (decide (x ∈ seen)).
        -- destruct (IH _ Hin) as (o & Ho & Hid). exists o. split; [right; exact Ho|exact Hid].
        -- apply elem_of_cons in Hin as [->|Hin].
           ++ exists (Some x). split; [left|reflexivity].
           ++ destruct (IH _ Hin) as (o & Ho & Hid). exists o.
              split; [right; exact Ho|exact Hid].
      * destruct (IH _ Hin) as (o & Ho & Hid). exists o. split; [right; exact Ho|exact Hid].
    + intros (o & Ho & Hid). destruct o as [x|]; [|discriminate]. injection Hid as ->.
      apply list_elem_of_lookup in Ho as [i Hi].
      destruct (Hfound i s Hi) as (e & _ & He). eapply list_elem_of_lookup_2. exact He.
Qed.

Lemma count_is_the_number_of_distinct_strings_witness :
  strings sample_interned = first_seen [] sample_strings /\
  string_table_count sample_interned = length (remove_dups (omap id sample_strings)).
Proof.
  apply (count_is_the_number_of_distinct_strings 1 0 [] sample_table []
           sample_strings sample_returned sample_interned []).
  - vm_compute. reflexivity.
  - vm_compute. reflexivity.
Defined.

Lemma round_up_pow2_spec fuel : forall j ic,
  1 <= ic -> 2 ^ j < 2 * ic -> ic <= 2 ^ j + fuel ->
  exists k, round_up_pow2 fuel (2 ^ j) ic = 2 ^ k /\ ic <= 2 ^ k < 2 * ic.
Proof.
  induction fuel as [|fuel IH]; intros j ic Hic Hlt Hfuel; simpl;
    assert (Hpos : 2 ^ j <> 0) by (apply Nat.pow_nonzero; lia).
  - destruct (2 ^ j <? ic) eqn:Hc.
    + apply Nat.ltb_lt in Hc. lia.
    + apply Nat.ltb_ge in Hc. exists j. split; [reflexivity|lia].
  - destruct (2 ^ j <? ic) eqn:Hc.
    + apply Nat.ltb_lt in Hc.
      replace (2 ^ j * 2) with (2 ^ (S j)) by (rewrite Nat.pow_succ_r'; lia).
      apply IH; [lia| |]; rewrite Nat.pow_succ_r'; lia.
    + apply Nat.ltb_ge in Hc. exists j. split; [reflexivity|lia].
Qed.

(** X4.  [string_table_init] is idempotent, and on a table that is not
    initialised, for a request of at most 2^60 buckets, it makes an empty
    index whose capacity is the requested one (1024 for a request of 0)
    rounded up to a power of two.  Up to 2^60 neither the doubling nor
    the byte count [capacity * sizeof(size_t)] leaves the 64 bits of a
    [size_t]; beyond, the code computes with wrapped values and the
    statement says nothing. *)
Theorem string_table_init_rounds_up_to_a_power_of_two ic rc T h :
  (initialized T = true -> string_table_init ic rc T h = Ret (T, h)) /\
  (forall T' h',
     (Z.of_nat ic <= 2 ^ 60)%Z ->
     initialized T = false ->
     string_table_init ic rc T h = Ret (T', h') ->
     let wanted := if ic =? 0 then STRING_TABLE_INITIAL_CAPACITY else ic in
     (exists k, buckets_capacity T' = 2 ^ k) /\
     wanted <= buckets_capacity T' < 2 * wanted /\
     buckets T' = replicate (buckets_capacity T') None /\
     string_table_count T' = 0 /\
     string_table_is_initialized T' = true).
Proof.
  split.
  - intros Hi. unfold string_table_init. rewrite Hi. reflexivity.
  - intros T' h' _ Hi. unfold string_table_init. rewrite Hi.
    destruct (alloc h) as [[|] h1]; cbn [REQUIRE rbind]; [|discriminate].
    destruct (alloc h1) as [[|] h2]; cbn [REQUIRE rbind]; [|discriminate].
    destruct (rc =? 0)%Z; cbn [REQUIRE rbind]; [|discriminate].
    intros H. injection H as <- <-. cbv zeta.
    set (wanted := if ic =? 0 then STRING_TABLE_INITIAL_CAPACITY else ic).
    assert (Hw : 1 <= wanted).
    { subst wanted. destruct (ic =? 0) eqn:H0; [unfold STRING_TABLE_INITIAL_CAPACITY; lia|].
      apply Nat.eqb_neq in H0. lia. }
    destruct (round_up_pow2_spec wanted 0 wanted Hw) as (k & Hk & Hb); simpl; [lia..|].
    simpl in Hk. unfold buckets_capacity, string_table_count, strings_count,
      string_table_is_initialized. cbn. rewrite length_replicate, Hk.
    split; [exists k; reflexivity|]. split; [exact Hb|]. auto.
Qed.

Lemma string_table_init_rounds_up_to_a_power_of_two_witness :
  let T' := {| strings := []; strings_capacity := 256;
               buckets := replicate 8 None; initialized := true |} in
  (exists k, buckets_capacity T' = 2 ^ k) /\
  5 <= buckets_capacity T' < 2 * 5 /\
  buckets T' = replicate (buckets_capacity T') None /\
  string_table_count T' = 0 /\
  string_table_is_initialized T' = true.
Proof.
  refine (proj2 (string_table_init_rounds_up_to_a_power_of_two 5 0 g_table_zero [])
            _ [] _ _ _); [cbn; lia|reflexivity|reflexivity].
Defined.

(** X5.  In a session [string_intern] of a string returns a handle that
    is not null, unless an allocation fails: the only aborts are the ones
    after a failed [malloc], [realloc] or [strdup], so the "hash table
    full" and "string appeared during resize" checks never fire. *)
Theorem intern_aborts_only_when_memory_runs_out T s h :
  session_table T ->
  match string_intern (Some s) T h with
  | Ret (r, _, _) => r <> None
  | Abort msg => allocation_failure msg /\ ~ allocs_ok h
  end.
Proof.
  intros HT. apply session_table_ok in HT.
  pose proof (string_intern_spec T s h HT) as Hpost.
  destruct (string_intern_cases T s h HT)
    as [(e & _ & Heq)|(_ & [(T' & h' & Heq & _)|(msg & Heq & Hmsg)])];
    rewrite Heq in Hpost |- *; try discriminate.
  split; assumption.
Qed.

Lemma intern_aborts_only_when_memory_runs_out_witness :
  allocation_failure "bucket allocation failed" /\ ~ allocs_ok [false].
Proof.
  exact (intern_aborts_only_when_memory_runs_out sample_table "a"%string [false]
           sample_table_session).
Defined.

Lemma string_intern_capacity T s h r T' h' :
  table_ok T -> string_intern (Some s) T h = Ret (r, T', h') ->
  buckets_capacity T' = buckets_capacity T \/
  buckets_capacity T' = 2 * buckets_capacity T.
Proof.
  intros HT H.
  destruct (string_intern_cases T s h HT)
    as [(e & _ & Heq)|(_ & [(T1 & h1 & Heq & _ & Hcap)|(msg & Heq & _)])];
    rewrite Heq in H; try discriminate; injection H as <- <- <-; auto.
Qed.

Lemma intern_all_capacity l : forall T h hs T' h',
  table_ok T -> intern_all l T h = Ret (hs, T', h') ->
  exists k, buckets_capacity T' = buckets_capacity T * 2 ^ k.
Proof.
  induction l as [|[s|] l IH]; intros T h hs T' h' HT H; cbn [intern_all] in H.
  - injection H as <- <- <-. exists 0. simpl. lia.
  - destruct (string_intern (Some s) T h) as [[[r T1] h1]|msg] eqn:Hs;
      cbn [rbind] in H; [|discriminate].
    destruct (intern_all l T1 h1) as [[[rs T2] h2]|msg] eqn:Hl;
      cbn [rbind] in H; [|discriminate].
    injection H as <- <- <-.
    pose proof (string_intern_keeps_ok _ _ _ _ _ _ HT Hs) as HT1.
    destruct (IH _ _ _ _ _ HT1 Hl) as [k Hk].
    destruct (string_intern_capacity _ _ _ _ _ _ HT Hs) as [Hc|Hc]; rewrite Hk, Hc.
    + exists k. reflexivity.
    + exists (S k). rewrite Nat.pow_succ_r'. lia.
  - cbn [string_intern rbind] in H.
    destruct (intern_all l T h) as [[[rs T2] h2]|msg] eqn:Hl;
      cbn [rbind] in H; [|discriminate].
    injection H as <- <- <-. eapply IH; eassumption.
Qed.

Lemma string_table_init_pow2 ic rc h0 T0 h :
  string_table_init ic rc g_table_zero h0 = Ret (T0, h) ->
  exists k, buckets_capacity T0 = 2 ^ k.
Proof.
  unfold string_table_init. simpl initialized. cbv iota.
  destruct (alloc h0) as [[|] h1]; cbn [REQUIRE rbind]; [|discriminate].
  destruct (alloc h1) as [[|] h2]; cbn [REQUIRE rbind]; [|discriminate].
  destruct (rc =? 0)%Z; cbn [REQUIRE rbind]; [|discriminate].
  intros H. injection H as <- <-.
  set (wanted := if ic =? 0 then STRING_TABLE_INITIAL_CAPACITY else ic).
  assert (Hw : 1 <= wanted).
  { subst wanted. destruct (ic =? 0) eqn:H0; [unfold STRING_TABLE_INITIAL_CAPACITY; lia|].
    apply Nat.eqb_neq in H0. lia. }
  destruct (round_up_pow2_spec wanted 0 wanted Hw) as (k & Hk & _); simpl; [lia..|].
  simpl in Hk. exists k. unfold buckets_capacity. cbn. rewrite length_replicate. exact Hk.
Qed.

(** X6.  The index only ever doubles: throughout a session its capacity
    is the initial capacity times a power of two, hence a power of two,
    it holds at most three quarters of its capacity in strings, and an
    empty bucket is left for the probing to stop at. *)
Theorem index_doubles_and_stays_three_quarters_full ic rc h0 T0 h l hs T h' :
  string_table_init ic rc g_table_zero h0 = Ret (T0, h) ->
  intern_all l T0 h = Ret (hs, T, h') ->
  (exists k, buckets_capacity T = buckets_capacity T0 * 2 ^ k) /\
  (exists k, buckets_capacity T = 2 ^ k) /\
  4 * string_table_count T <= 3 * buckets_capacity T /\
  (exists b, buckets T !! b = Some None).
Proof.
  intros Hinit Hall.
  destruct (string_table_init_pow2 _ _ _ _ _ Hinit) as [k0 Hk0].
  apply string_table_init_ok in Hinit as (HT0 & _ & _).
  destruct (intern_all_capacity _ _ _ _ _ _ HT0 Hall) as [k Hk].
  pose proof (intern_all_keeps_ok _ _ _ _ _ _ HT0 Hall) as [Hok Hload _].
  split; [exists k; exact Hk|]. split.
  { exists (k0 + k). rewrite Hk, Hk0, Nat.pow_add_r. reflexivity. }
  split; [exact Hload|].
  apply entries_room. rewrite (ok_entries _ _ _ Hok). apply (ok_room _ _ _ Hok).
Qed.

Lemma index_doubles_and_stays_three_quarters_full_witness :
  (exists k, buckets_capacity sample_interned = buckets_capacity sample_table * 2 ^ k) /\
  (exists k, buckets_capacity sample_interned = 2 ^ k) /\
  4 * string_table_count sample_interned <= 3 * buckets_capacity sample_interned /\
  (exists b, buckets sample_interned !! b = Some None).
Proof.
  apply (index_doubles_and_stays_three_quarters_full 1 0 [] sample_table []
           sample_strings sample_returned sample_interned []).
  - vm_compute. reflexivity.
  - vm_compute. reflexivity.
Defined.

End InterningLaws.

(* ---------------------------------------------------------------------- *)
(** ** frame.c: the stack as a stack                                        *)
(* ---------------------------------------------------------------------- *)

Module FrameLaws.
Import Frame FrameFacts.

Lemma ensure_capacity_live s h s' h' :
  within_allocation s ->
  ensure_capacity s h = Ret (s', h') ->
  within_allocation s' /\ tl_depth s' < tl_capacity s' /\
  tl_depth s' = tl_depth s /\ live s' = live s /\
  (tl_capacity s' = tl_capacity s \/
   (tl_capacity s = 0 /\ tl_capacity s' = FRAME_STACK_INITIAL_CAPACITY) \/
   (0 < tl_capacity s /\ tl_capacity s' = 2 * tl_capacity s)).
Proof.
  intros [Hd Hl]. unfold ensure_capacity.
  destruct (tl_depth s <? tl_capacity s) eqn:Hlt.
  - apply Nat.ltb_lt in Hlt. intros H. injection H as <- <-.
    unfold within_allocation. auto 10.
  - apply Nat.ltb_ge in Hlt.
    destruct (alloc h) as [[|] h1]; cbn [REQUIRE rbind]; [|discriminate].
    intros H. injection H as <- <-. unfold within_allocation, live. cbn.
    rewrite length_app, length_replicate, take_app_le by lia.
    unfold FRAME_STACK_INITIAL_CAPACITY, FRAME_STACK_GROWTH_FACTOR.
    destruct (tl_capacity s =? 0) eqn:H0.
    + apply Nat.eqb_eq in H0. repeat split; lia.
    + apply Nat.eqb_neq in H0. repeat split; lia.
Qed.

Lemma take_pred_removelast {A} (l : list A) n :
  0 < n <= length l -> take (n - 1) l = removelast (take n l).
Proof.
  intros Hn. destruct n as [|n]; [lia|].
  replace (S n - 1) with n by lia.
  destruct (lookup_lt_is_Some_2 l n ltac:(lia)) as [x Hx].
  rewrite (take_S_r _ _ _ Hx), removelast_last. reflexivity.
Qed.

Lemma apply_op_live o s h s' h' :
  within_allocation s ->
  apply_op o s h = Ret (s', h') ->
  within_allocation s' /\ live s' = open_frames (live s) [o].
Proof.
  intros Hw. destruct o as [[info|]| |]; simpl.
  - destruct (ensure_capacity s h) as [[s1 h1]|msg] eqn:He; cbn [rbind]; [|discriminate].
    destruct (ensure_capacity_live _ _ _ _ Hw He) as ([Hd1 Hl1] & Hlt & Hdep & Hlive & _).
    intros H. injection H as <- <-. unfold within_allocation, live in *. cbn.
    rewrite length_insert. split; [lia|].
    replace (tl_depth s1 + 1) with (S (tl_depth s1)) by lia.
    rewrite (take_S_r _ _ info) by (apply list_lookup_insert_eq; lia).
    rewrite take_insert_ge by lia. rewrite Hlive. reflexivity.
  - discriminate.
  - unfold frame_stack_pop. destruct (0 <? tl_depth s) eqn:Hd; cbn [REQUIRE rbind];
      [|discriminate].
    apply Nat.ltb_lt in Hd. destruct Hw as [Hdc Hl].
    intros H. injection H as <- <-. unfold within_allocation, live. cbn.
    rewrite length_insert. split; [lia|].
    rewrite take_insert_ge by lia. apply take_pred_removelast. lia.
  - intros H. injection H as <- <-. unfold within_allocation, live in *. cbn.
    split; [lia|reflexivity].
Qed.

Lemma open_frames_cons st o ops :
  open_frames st (o :: ops) = open_frames (open_frames st [o]) ops.
Proof. destruct o as [[f|]| |]; reflexivity. Qed.

Lemma run_live ops : forall s h s' h',
  within_allocation s ->
  run ops s h = Ret (s', h') ->
  within_allocation s' /\ live s' = open_frames (live s) ops.
Proof.
  induction ops as [|o ops IH]; intros s h s' h' Hw H; simpl in H.
  - injection H as <- <-. auto.
  - destruct (apply_op o s h) as [[s1 h1]|msg] eqn:Ho; cbn [rbind] in H; [|discriminate].
    destruct (apply_op_live _ _ _ _ _ Hw Ho) as [Hw1 Hl1].
    rewrite open_frames_cons, <- Hl1. eauto.
Qed.

Lemma within_allocation_start : within_allocation thread_start.
Proof. split; reflexivity. Qed.

(** X7.  The frame stack is a stack: after any run of pushes, pops and
    clears that does not abort, the slots in use hold the frames that are
    still open, in the order they were pushed, and [frame_stack_caller]
    returns the frame pushed just before the top one ([nullptr] when
    fewer than two frames are open). *)
Theorem frame_stack_is_last_in_first_out ops h s h' :
  run ops thread_start h = Ret (s, h') ->
  let open := open_frames [] ops in
  live s = open /\
  frame_stack_depth s = length open /\
  frame_stack_caller s =
    (if length open <? 2 then None else open !! (length open - 2)).
Proof.
  intros H. destruct (run_live _ _ _ _ _ within_allocation_start H) as [[Hd Hl] Hlive].
  change (live thread_start) with (@nil StackFrame) in Hlive. cbv zeta.
  assert (Hlen : tl_depth s = length (open_frames [] ops)).
  { rewrite <- Hlive. unfold live. rewrite length_take. lia. }
  split; [exact Hlive|]. split; [exact Hlen|].
  unfold frame_stack_caller. rewrite <- Hlen.
  destruct (tl_depth s <? 2) eqn:H2; [reflexivity|].
  apply Nat.ltb_ge in H2. rewrite <- Hlive. unfold live.
  rewrite lookup_take_lt by lia. reflexivity.
Qed.

Lemma frame_stack_is_last_in_first_out_witness :
  let F n := {| file := Some n; line := Z.of_nat n; func := Some n |} in
  let s := {| tl_stack := [F 1; F 3; FRAME_NO_CALLER] ++ replicate 61 FRAME_NO_CALLER;
              tl_depth := 2; tl_capacity := 64 |} in
  live s = [F 1; F 3] /\
  frame_stack_depth s = 2 /\
  frame_stack_caller s = Some (F 1).
Proof.
  intros F s.
  apply (frame_stack_is_last_in_first_out
           [Push (Some (F 1)); Push (Some (F 2)); Pop; Push (Some (F 3)); Push (Some (F 4)); Pop]
           [] s []).
  reflexivity.
Defined.

Lemma run_capacity ops : forall s h s' h',
  within_allocation s ->
  (tl_capacity s = 0 \/ exists k, tl_capacity s = FRAME_STACK_INITIAL_CAPACITY * 2 ^ k) ->
  run ops s h = Ret (s', h') ->
  tl_capacity s' = 0 \/ exists k, tl_capacity s' = FRAME_STACK_INITIAL_CAPACITY * 2 ^ k.
Proof.
  induction ops as [|o ops IH]; intros s h s' h' Hw Hc H; simpl in H.
  - injection H as <- <-. exact Hc.
  - destruct (apply_op o s h) as [[s1 h1]|msg] eqn:Ho; cbn [rbind] in H; [|discriminate].
    destruct (apply_op_live _ _ _ _ _ Hw Ho) as [Hw1 _].
    apply (IH s1 h1 s' h' Hw1); [|exact H]. clear IH H.
    destruct o as [[info|]| |]; simpl in Ho.
    + destruct (ensure_capacity s h) as [[s2 h2]|msg] eqn:He; cbn [rbind] in Ho;
        [|discriminate].
      destruct (ensure_capacity_live _ _ _ _ Hw He) as (_ & _ & _ & _ & Hcap).
      injection Ho as <- <-. cbn [tl_capacity].
      destruct Hcap as [->|[[_ ->]|[Hpos ->]]]; [exact Hc| |].
      * right. exists 0. rewrite Nat.pow_0_r, Nat.mul_1_r. reflexivity.
      * destruct Hc as [Hc|[k Hk]]; [lia|]. right. exists (S k).
        rewrite Hk, Nat.pow_succ_r'. unfold FRAME_STACK_INITIAL_CAPACITY. lia.
    + discriminate.
    + unfold frame_stack_pop in Ho. destruct (0 <? tl_depth s); cbn [REQUIRE rbind] in Ho;
        [|discriminate].
      injection Ho as <- <-. exact Hc.
    + injection Ho as <- <-. exact Hc.
Qed.

(** X8.  The stack never leaves its allocation: after any run that does
    not abort the depth is at most the capacity, [tl_stack] has exactly
    that many slots, and the capacity is 0 (nothing allocated yet) or 64
    doubled some number of times. *)
Theorem frame_stack_stays_within_its_allocation ops h s h' :
  run ops thread_start h = Ret (s, h') ->
  frame_stack_depth s <= tl_capacity s /\
  length (tl_stack s) = tl_capacity s /\
  (tl_capacity s = 0 \/ exists k, tl_capacity s = 64 * 2 ^ k).
Proof.
  intros H. destruct (run_live _ _ _ _ _ within_allocation_start H) as [[Hd Hl] _].
  split; [exact Hd|]. split; [exact Hl|].
  apply (run_capacity _ _ _ _ _ within_allocation_start (or_introl eq_refl) H).
Qed.

Lemma frame_stack_stays_within_its_allocation_witness :
  let s := {| tl_stack := replicate 128 FRAME_NO_CALLER; tl_depth := 65;
              tl_capacity := 128 |} in
  frame_stack_depth s <= tl_capacity s /\
  length (tl_stack s) = tl_capacity s /\
  (tl_capacity s = 0 \/ exists k, tl_capacity s = 64 * 2 ^ k).
Proof.
  intros s.
  apply (frame_stack_stays_within_its_allocation
           (pushes (replicate 65 FRAME_NO_CALLER)) [] s []).
  vm_compute. reflexivity.
Defined.

Lemma pushes_within_capacity fs : forall s h,
  tl_depth s + length fs <= tl_capacity s ->
  exists s', run (pushes fs) s h = Ret (s', h) /\
             tl_depth s' = tl_depth s + length fs /\
             tl_capacity s' = tl_capacity s.
Proof.
  induction fs as [|f fs IH]; intros s h Hroom; simpl in *.
  - exists s. split; [reflexivity|]. lia.
  - unfold ensure_capacity.
    assert (Hlt : (tl_depth s <? tl_capacity s) = true) by (apply Nat.ltb_lt; lia).
    rewrite Hlt. cbn [rbind].
    match goal with |- context [run _ ?s1 h] => destruct (IH s1 h) as (s' & Hrun & Hd & Hc) end.
    { cbn. lia. }
    exists s'. split; [exact Hrun|]. cbn in Hd, Hc. lia.
Qed.

(** X9.  [frame_stack_clear] keeps the allocation for reuse: pushes that
    fit the capacity take no memory, so after a clear the stack can be
    filled up to its capacity again without a single allocation, even
    when the allocator has nothing left to give. *)
Theorem pushes_within_capacity_do_not_allocate fs s h :
  length fs <= tl_capacity s ->
  exists s',
    run (Clear :: pushes fs) s h = Ret (s', h) /\
    frame_stack_depth s' = length fs /\
    tl_capacity s' = tl_capacity s.
Proof.
  intros Hroom. cbn [run apply_op rbind].
  destruct (pushes_within_capacity fs (frame_stack_clear s) h) as (s' & Hrun & Hd & Hc).
  - cbn. exact Hroom.
  - exists s'. split; [exact Hrun|]. split; [exact Hd|exact Hc].
Qed.

Lemma pushes_within_capacity_do_not_allocate_witness :
  let s := {| tl_stack := replicate 64 FRAME_NO_CALLER; tl_depth := 40;
              tl_capacity := 64 |} in
  exists s',
    run (Clear :: pushes (replicate 64 FRAME_NO_CALLER)) s [false] = Ret (s', [false]) /\
    frame_stack_depth s' = 64 /\
    tl_capacity s' = 64.
Proof.
  intros s.
  apply (pushes_within_capacity_do_not_allocate (replicate 64 FRAME_NO_CALLER) s [false]).
  vm_compute. reflexivity.
Defined.

Lemma ptr_eqb_eq p q : ptr_eqb p q = true <-> p = q.
Proof.
  destruct p as [x|], q as [y|]; simpl; try (split; [discriminate|congruence]).
  - rewrite Nat.eqb_eq. split; congruence.
  - split; reflexivity.
Qed.

(** X10.  [frame_equals] decides equality of frames: it returns true
    exactly when both arguments are [nullptr] or both are frames with the
    same file pointer, line and function pointer; so it is reflexive,
    symmetric and transitive, and a null frame equals no frame. *)
Theorem frame_equals_decides_equality a b :
  frame_equals a b = true <-> a = b.
Proof.
  destruct a as [[fa la na]|], b as [[fb lb nb]|]; simpl;
    try (split; [discriminate|congruence]); [|split; reflexivity].
  rewrite !andb_true_iff, !ptr_eqb_eq, Z.eqb_eq. split.
  - intros [[-> ->] ->]. reflexivity.
  - intros H. injection H as -> -> ->. auto.
Qed.

End FrameLaws.

(* ---------------------------------------------------------------------- *)
(** ** barrier.c: nesting, the counter, and a stop that does not wait       *)
(* ---------------------------------------------------------------------- *)

Module BarrierLaws.
Import Barrier BarrierFacts.

Local Open Scope Z_scope.

Lemma add_active_add n m b : add_active n (add_active m b) = add_active (m + n) b.
Proof. destruct b as [c s i]. unfold add_active. cbn. f_equal. lia. Qed.

Lemma add_active_zero b : add_active 0 b = b.
Proof. destruct b as [c s i]. unfold add_active. cbn. f_equal. lia. Qed.

Lemma enter_nested_accepting n : forall b d,
  initialized b = true -> stopping b = false ->
  enter_nested n b d = Some (add_active (Z.of_nat n) b, d + Z.of_nat n).
Proof.
  induction n as [|n IH]; intros b d Hi Hs.
  - simpl. rewrite add_active_zero, Z.add_0_r. reflexivity.
  - cbn [enter_nested]. unfold barrier_try_enter. rewrite Hi, Hs. cbn.
    rewrite Hs. rewrite IH by (cbn; assumption).
    rewrite add_active_add.
    replace (1 + Z.of_nat n) with (Z.of_nat (S n)) by lia.
    replace (d + 1 + Z.of_nat n) with (d + Z.of_nat (S n)) by lia. reflexivity.
Qed.

Lemma leave_nested_entered n : forall b d,
  initialized b = true -> Z.of_nat n <= d ->
  leave_nested n b d = Ret (add_active (- Z.of_nat n) b, d - Z.of_nat n).
Proof.
  induction n as [|n IH]; intros b d Hi Hd.
  - simpl. rewrite add_active_zero, Z.sub_0_r. reflexivity.
  - cbn [leave_nested]. unfold barrier_leave. rewrite Hi. cbn [negb].
    assert (Hpos : (0 <? d) = true) by (apply Z.ltb_lt; lia).
    rewrite Hpos. cbn [REQUIRE rbind]. rewrite IH by (cbn; first [assumption|lia]).
    rewrite add_active_add.
    replace (-1 + - Z.of_nat n) with (- Z.of_nat (S n)) by lia.
    replace (d - 1 - Z.of_nat n) with (d - Z.of_nat (S n)) by lia. reflexivity.
Qed.

(** X11.  Protected sections nest: on a barrier that accepts entries, [n]
    nested calls of [barrier_try_enter] all succeed and raise the counter
    and the caller's depth by [n]; [n] calls of [barrier_leave] then put
    the barrier and the depth back exactly; and a further
    [barrier_leave], made at depth 0, aborts. *)
Theorem nested_sections_balance n b :
  initialized b = true -> stopping b = false ->
  exists b1,
    enter_nested n b 0 = Some (b1, Z.of_nat n) /\
    barrier_active_count b1 = barrier_active_count b + Z.of_nat n /\
    barrier_in_callback (Z.of_nat n) = negb (n =? 0)%nat /\
    leave_nested n b1 (Z.of_nat n) = Ret (b, 0) /\
    barrier_leave b 0 = Abort "barrier_leave without barrier_try_enter".
Proof.
  intros Hi Hs. exists (add_active (Z.of_nat n) b).
  split; [rewrite enter_nested_accepting by assumption; reflexivity|].
  split; [unfold barrier_active_count; cbn; rewrite Hi; reflexivity|].
  split.
  { unfold barrier_in_callback. destruct n; [reflexivity|]. cbn [Nat.eqb negb].
    apply Z.ltb_lt. lia. }
  split.
  - rewrite leave_nested_entered by (cbn; first [assumption|lia]).
    rewrite add_active_add, Z.add_opp_diag_r, add_active_zero, Z.sub_diag. reflexivity.
  - unfold barrier_leave. rewrite Hi. reflexivity.
Qed.

Lemma nested_sections_balance_witness :
  exists b1,
    enter_nested 3 (shared (start 1)) 0 = Some (b1, 3) /\
    barrier_active_count b1 = barrier_active_count (shared (start 1)) + 3 /\
    barrier_in_callback 3 = true /\
    leave_nested 3 b1 3 = Ret (shared (start 1), 0) /\
    barrier_leave (shared (start 1)) 0 = Abort "barrier_leave without barrier_try_enter".
Proof.
  exact (nested_sections_balance 3 (shared (start 1)) eq_refl eq_refl).
Defined.

Lemma total_held_running ps :
  all_running ps -> total_held ps = open_sections ps.
Proof.
  induction ps as [|p ps IH]; intros Hr; simpl; [reflexivity|].
  rewrite IH by (intros q Hq; apply Hr; right; exact Hq).
  unfold held. rewrite (Hr p) by left. lia.
Qed.

(** X12.  The counter is accurate: in every interleaving of producers and
    a stopping thread, [barrier_active_count] is what the producers have
    added and not yet taken back; it is never negative, and whenever no
    producer is inside a call of the barrier it is the number of
    protected sections that are open. *)
Theorem active_count_counts_the_open_sections n ls sys :
  exec (start n) ls sys ->
  barrier_active_count (shared sys) = total_held (producers sys) /\
  0 <= barrier_active_count (shared sys) /\
  (all_running (producers sys) ->
   barrier_active_count (shared sys) = open_sections (producers sys)).
Proof.
  intros Hexec.
  destruct (invariant_exec _ _ _ (invariant_start n) Hexec)
    as [Hcount Hdepth _ Hinit _ _ _].
  unfold barrier_active_count. rewrite Hinit. cbn [negb].
  split; [exact Hcount|]. split.
  - rewrite Hcount. apply total_held_nonneg. exact Hdepth.
  - intros Hr. rewrite Hcount. apply total_held_running. exact Hr.
Qed.

Local Ltac producer_moves tid c :=
  eapply exec_step; [eapply (step_producer _ tid c); reflexivity|]; cbn.
Local Ltac stopper_moves :=
  eapply exec_step; [eapply step_stopper; reflexivity|]; cbn.

Lemma busy_exec : exec (start 2) busy_labels busy_system.
Proof.
  unfold busy_labels, start. cbn.
  do 5 producer_moves 0%nat CallTryEnter.
  do 5 producer_moves 1%nat CallTryEnter.
  do 5 producer_moves 0%nat CallTryEnter.
  apply exec_nil.
Defined.

Lemma active_count_counts_the_open_sections_witness :
  barrier_active_count (shared busy_system) = total_held (producers busy_system) /\
  0 <= barrier_active_count (shared busy_system) /\
  (all_running (producers busy_system) ->
   barrier_active_count (shared busy_system) = open_sections (producers busy_system)).
Proof.
  exact (active_count_counts_the_open_sections 2 busy_labels busy_system busy_exec).
Defined.

Lemma none_entering_insert ps tid p' :
  none_entering ps -> (forall pc, act p' <> InTryEnter pc) ->
  none_entering (<[tid := p']> ps).
Proof.
  intros Hps Hp' q pc Hq. destruct (elem_of_insert_cases _ _ _ _ Hq) as [->|Hin].
  - apply Hp'.
  - apply (Hps q pc Hin).
Qed.

(** While the counter is 0 and nobody calls [barrier_try_enter], no step
    raises the counter, starts an entry or parks the stopping thread. *)
Lemma idle_step sys l sys' :
  invariant sys ->
  active_callbacks (shared sys) = 0 ->
  none_entering (producers sys) ->
  stopping_thread sys <> InStop S_cond_wait ->
  step sys l sys' ->
  (forall tid, l <> TryEnterCalled tid) ->
  active_callbacks (shared sys') = 0 /\
  none_entering (producers sys') /\
  stopping_thread sys' <> InStop S_cond_wait.
Proof.
  intros [Hcount Hdepth Hsd Hinit _ _ _] Hzero Hnone Hwait Hstep Hl.
  destruct Hstep as [sys tid c p l b p' Hp Hstep|sys l b s' Hstep]; cbn [shared producers stopping_thread].
  - assert (Hin : p ∈ producers sys) by (eapply list_elem_of_lookup_2; eassumption).
    assert (Hdr : drained (producers sys)).
    { apply total_held_zero; [exact Hdepth|]. rewrite <- Hcount, Hzero. lia. }
    destruct (Hdr p Hin) as [Hd Hdec].
    unfold producer_step in Hstep. destruct (act p) as [|pc|pc] eqn:Hact.
    + destruct c; injection Hstep as <- <- <-.
      * exfalso. apply (Hl tid). reflexivity.
      * split; [exact Hzero|]. split; [|exact Hwait].
        apply none_entering_insert; [exact Hnone|]. intros pc. discriminate.
    + exfalso. apply (Hnone p pc Hin). exact Hact.
    + destruct pc; cbn [leave_step] in Hstep.
      * rewrite Hinit, Hd in Hstep. cbn in Hstep. discriminate.
      * contradiction.
      * injection Hstep as <- <- <-. split; [exact Hzero|]. split; [|exact Hwait].
        apply none_entering_insert; [exact Hnone|]. intros pc. discriminate.
  - unfold stopper_step in Hstep. rewrite Hsd in Hstep.
    destruct (stopping_thread sys) as [|pc].
    + injection Hstep as <- <- <-. split; [exact Hzero|]. split; [exact Hnone|discriminate].
    + destruct pc; cbn [stop_step] in Hstep;
        try rewrite Hinit in Hstep; try rewrite Hzero in Hstep; cbn in Hstep;
        try (destruct (stopping (shared sys)));
        try contradiction;
        injection Hstep as <- <- <-;
        (split; [exact Hzero|]); (split; [exact Hnone|discriminate]).
Qed.

Lemma idle_exec sys ls sys' :
  invariant sys ->
  active_callbacks (shared sys) = 0 ->
  none_entering (producers sys) ->
  stopping_thread sys <> InStop S_cond_wait ->
  exec sys ls sys' ->
  (forall tid, TryEnterCalled tid ∉ ls) ->
  invariant sys' /\
  active_callbacks (shared sys') = 0 /\
  stopping_thread sys' <> InStop S_cond_wait.
Proof.
  intros Hinv Hzero Hnone Hwait Hexec.
  induction Hexec as [|sys1 sys2 sys3 l ls Hstep Hrest IH]; intros Hl; [auto|].
  destruct (idle_step _ _ _ Hinv Hzero Hnone Hwait Hstep) as (Hz & Hn & Hw).
  { intros tid ->. apply (Hl tid). left. }
  apply IH; try assumption.
  - eapply invariant_step; eassumption.
  - intros tid Hin. apply (Hl tid). right. exact Hin.
Qed.

(** X13.  A stop does not wait when nothing is in flight.  From any state
    that producers and the stopping thread can reach in which the
    stopping thread is outside [barrier_stop], the counter is 0 and no
    thread is inside [barrier_try_enter]: along every interleaving in
    which no thread calls [barrier_try_enter], whatever else the
    producers do, the counter stays 0, the stopping thread is never
    parked in
    [pthread_cond_wait], and wherever it is inside [barrier_stop], at
    most seven further steps of its own take it to the return of
    [STOP_OK]. *)
Theorem stop_returns_at_once_when_nothing_is_in_flight n ls sys ls' sys' :
  exec (start n) ls sys ->
  stopping_thread sys = Idle ->
  barrier_active_count (shared sys) = 0 ->
  none_entering (producers sys) ->
  exec sys ls' sys' ->
  (forall tid, TryEnterCalled tid ∉ ls') ->
  barrier_active_count (shared sys') = 0 /\
  stopping_thread sys' <> InStop S_cond_wait /\
  (forall pc, stopping_thread sys' = InStop pc ->
     exists b, run_stop 7 pc (shared sys') (stopper_depth sys') = (Stopped STOP_OK, b)).
Proof.
  intros Hexec Hidle Hzero Hnone Hexec' Hl.
  pose proof (invariant_exec _ _ _ (invariant_start n) Hexec) as Hinv.
  assert (Hi : initialized (shared sys) = true) by apply Hinv.
  unfold barrier_active_count in Hzero. rewrite Hi in Hzero. cbn [negb] in Hzero.
  destruct (idle_exec sys ls' sys' Hinv Hzero Hnone) as (Hinv' & Hz & Hw);
    [rewrite Hidle; discriminate|exact Hexec'|exact Hl|].
  destruct Hinv' as [_ _ Hsd Hinit _ _ _].
  unfold barrier_active_count. rewrite Hinit. cbn [negb].
  split; [exact Hz|]. split; [exact Hw|].
  intros pc Hpc. rewrite Hsd.
  destruct (shared sys') as [c s i]. cbn in Hz, Hinit. subst c i.
  destruct pc, s; try (eexists; reflexivity).
  all: exfalso; apply Hw; exact Hpc.
Qed.

Lemma stop_returns_at_once_when_nothing_is_in_flight_witness :
  barrier_active_count (shared unlocking_system) = 0 /\
  stopping_thread unlocking_system <> InStop S_cond_wait /\
  (forall pc, stopping_thread unlocking_system = InStop pc ->
     exists b, run_stop 7 pc (shared unlocking_system) (stopper_depth unlocking_system)
               = (Stopped STOP_OK, b)).
Proof.
  apply (stop_returns_at_once_when_nothing_is_in_flight 2 [] (start 2)
           unlocking_labels unlocking_system).
  - apply exec_nil.
  - reflexivity.
  - reflexivity.
  - intros p pc Hin. apply elem_of_replicate in Hin as [-> _]. discriminate.
  - unfold unlocking_labels, start. cbn. do 7 stopper_moves. apply exec_nil.
  - intros tid Hin. unfold unlocking_labels in Hin.
    repeat (apply elem_of_cons in Hin as [Hin|Hin]; [discriminate Hin|]).
    apply elem_of_nil in Hin. exact Hin.
Defined.

End BarrierLaws.

(* ---------------------------------------------------------------------- *)
(** ** callback.c: delivery, silence and restart                            *)
(* ---------------------------------------------------------------------- *)

Module CallbackLaws.
Import Callback.

Local Open Scope Z_scope.

Lemma set_barrier_get st : set_barrier (get_barrier st) st = st.
Proof. destruct st. reflexivity. Qed.

(** One dispatch on a running session with a registered callback. *)
Lemma tracking_dispatch_delivers invoke cb event st :
  plain_callbacks invoke -> dispatching st -> g_callback st = Some cb ->
  exists st',
    tracking_dispatch invoke (Some event) st = Ret st' /\
    g_callback st' = g_callback st /\ g_user_data st' = g_user_data st /\
    g_active st' = g_active st /\ g_barrier st' = g_barrier st /\
    tl_callback_depth st' = tl_callback_depth st /\
    delivered st' = delivered st ++ [(cb, event, g_user_data st)].
Proof.
  intros Hplain (Hact & Hinit & Hstop & Hdepth) Hcb.
  unfold tracking_dispatch. rewrite Hact. cbn [negb].
  unfold Barrier.barrier_dispatch, get_barrier, Barrier.barrier_try_enter.
  rewrite Hinit, Hstop. cbn [negb]. cbn [Barrier.add_active Barrier.stopping].
  rewrite Hstop. unfold dispatch_wrapper. cbn [set_barrier g_callback fst snd].
  rewrite Hcb.
  match goal with |- context [invoke cb event ?ud ?s] =>
    destruct (Hplain cb event ud s) as (st1 & -> & Hc & Hu & Ha & Hb & Hd & Hdel)
  end.
  cbn [rbind]. cbn in Hc, Hu, Ha, Hb, Hd, Hdel.
  unfold Barrier.barrier_leave. rewrite Hb, Hd.
  change (Barrier.initialized (Barrier.add_active 1 (g_barrier st)))
    with (Barrier.initialized (g_barrier st)).
  rewrite Hinit. cbn [negb].
  assert (Hpos : (0 <? tl_callback_depth st + 1) = true) by (apply Z.ltb_lt; lia).
  rewrite Hpos. cbn [REQUIRE rbind].
  eexists. split; [reflexivity|]. cbn.
  split; [congruence|]. split; [congruence|]. split; [congruence|].
  split; [|split; [lia|exact Hdel]].
  destruct (g_barrier st) as [c s i]. unfold Barrier.add_active. cbn. f_equal. lia.
Qed.

(** X14.  Every dispatched event is delivered exactly once and in order:
    on a running session with a registered callback, dispatching a list
    of events calls the callback once per event, in the order of the
    list, each time with the user data given to [tracking_start]; when
    the last one has returned the barrier's counter and the caller's
    depth are what they were before. *)
Theorem dispatched_events_are_delivered_once_in_order invoke cb events : forall st,
  plain_callbacks invoke -> dispatching st -> g_callback st = Some cb ->
  exists st',
    dispatch_all invoke events st = Ret st' /\
    delivered st' =
      delivered st ++ map (fun event => (cb, event, g_user_data st)) events /\
    g_barrier st' = g_barrier st /\
    tl_callback_depth st' = tl_callback_depth st.
Proof.
  induction events as [|event events IH]; intros st Hplain Hd Hcb; cbn [dispatch_all map].
  - exists st. rewrite app_nil_r. auto.
  - destruct (tracking_dispatch_delivers invoke cb event st Hplain Hd Hcb)
      as (st1 & -> & Hc & Hu & Ha & Hb & Hdep & Hdel).
    cbn [rbind]. destruct (IH st1 Hplain) as (st' & Hrun & Hdel' & Hb' & Hdep').
    + destruct Hd as (? & ? & ? & ?). unfold dispatching. rewrite Ha, Hb, Hdep. auto.
    + congruence.
    + exists st'. split; [exact Hrun|]. rewrite Hdel', Hdel, Hu, <- app_assoc.
      split; [reflexivity|]. split; congruence.
Qed.

Lemma dispatched_events_are_delivered_once_in_order_witness :
  exists st',
    dispatch_all no_op [sample_event 1; sample_event 2; sample_event 3]
      Samples.outside_handler = Ret st' /\
    delivered st' =
      [] ++ map (fun event => (7%nat, event, 0))
              [sample_event 1; sample_event 2; sample_event 3] /\
    g_barrier st' = g_barrier Samples.outside_handler /\
    tl_callback_depth st' = 0.
Proof.
  apply (dispatched_events_are_delivered_once_in_order no_op 7%nat
           [sample_event 1; sample_event 2; sample_event 3] Samples.outside_handler).
  - intros cb event ud st. exists st. split; [reflexivity|].
    unfold same_but_table. auto 10.
  - unfold dispatching. cbn. split; [reflexivity|]. split; [reflexivity|].
    split; [reflexivity|]. lia.
  - reflexivity.
Defined.

(** X15.  No delivery without a running session, an open barrier and a
    callback: when tracking is not active (as after [tracking_stop]
    returned [STOP_OK]), or the barrier is stopped or destroyed, or the
    registered callback is [nullptr], [tracking_dispatch] returns with
    everything as it was, whatever the callbacks would do. *)
Theorem dispatch_delivers_nothing invoke event st :
  g_active st = false \/
  Barrier.stopped (g_barrier st) \/
  (g_callback st = None /\ 0 <= tl_callback_depth st) ->
  tracking_dispatch invoke event st = Ret st.
Proof.
  intros H. destruct event as [event|]; [|reflexivity].
  unfold tracking_dispatch. destruct (g_active st) eqn:Hact; [|reflexivity].
  cbn [negb]. destruct H as [H|[H|[Hcb Hd]]]; [discriminate| |].
  - unfold Barrier.barrier_dispatch, get_barrier, Barrier.barrier_try_enter.
    destruct H as [H|H]; rewrite H; cbn [negb].
    + change (Ret (set_barrier (get_barrier st) st) = Ret st).
      rewrite set_barrier_get. reflexivity.
    + destruct (Barrier.initialized (g_barrier st)); cbn [negb];
        change (Ret (set_barrier (get_barrier st) st) = Ret st);
        rewrite set_barrier_get; reflexivity.
  - unfold Barrier.barrier_dispatch, get_barrier, Barrier.barrier_try_enter.
    destruct st as [cb ud a T [c s i] d del]. cbn in *. subst.
    destruct i; cbn; [|reflexivity]. destruct s; cbn; [reflexivity|].
    assert (Hpos : (0 <? d + 1) = true) by (apply Z.ltb_lt; lia).
    rewrite Hpos. cbn [REQUIRE rbind].
    rewrite TrackingFacts.add_active_cancel. replace (d + 1 - 1) with d by lia.
    reflexivity.
Qed.

Lemma dispatch_delivers_nothing_witness :
  tracking_dispatch no_op (Some (sample_event 1)) state_zero = Ret state_zero.
Proof.
  apply (dispatch_delivers_nothing no_op (Some (sample_event 1)) state_zero).
  left. reflexivity.
Defined.

(** X16.  A session can be started again, and starting twice is
    harmless.  [tracking_stop] on a session that is not running returns
    [STOP_OK] and changes nothing.  After a [tracking_stop] of a running
    session that returned [STOP_OK], [tracking_start] (with memory for
    the two arrays) gives a running session with an empty string table
    and a barrier that takes entries.  On a state whose string table and
    barrier are initialised (a session that is running already, or one
    that is not running while the two modules are initialised) it only
    replaces the callback and its user data and sets the session running:
    the interned strings and the barrier stay, and nothing is
    allocated. *)
Theorem tracking_start_restarts_and_reregisters cb user_data st0 st h :
  (g_active st0 = false ->
   tracking_stop st0 = (Barrier.Stopped Barrier.STOP_OK, st0)) /\
  (g_active st0 = true ->
   tracking_stop st0 = (Barrier.Stopped Barrier.STOP_OK, st) ->
   allocs_ok h ->
   exists st' h',
     tracking_start cb user_data 0 0 0 st h = Ret (st', h') /\
     tracking_is_active st' = true /\
     g_callback st' = cb /\ g_user_data st' = user_data /\
     Interning.table_ok (g_table st') /\
     Interning.string_table_count (g_table st') = 0%nat /\
     Barrier.barrier_is_stopping (g_barrier st') = false /\
     Barrier.barrier_active_count (g_barrier st') = 0 /\
     Barrier.initialized (g_barrier st') = true) /\
  (Interning.initialized (g_table st0) = true ->
   Barrier.initialized (g_barrier st0) = true ->
   forall rc1 rc2 rc3,
     tracking_start cb user_data rc1 rc2 rc3 st0 h =
       Ret ({| g_callback := cb; g_user_data := user_data; g_active := true;
               g_table := g_table st0; g_barrier := g_barrier st0;
               tl_callback_depth := tl_callback_depth st0;
               delivered := delivered st0 |}, h)).
Proof.
  split; [|split].
  - intros Hoff. unfold tracking_stop. rewrite Hoff. reflexivity.
  - intros Hact Hstop Hh. unfold tracking_stop in Hstop. rewrite Hact in Hstop.
    cbn [negb] in Hstop.
    destruct (Barrier.barrier_stop (g_barrier st0) (tl_callback_depth st0))
      as [[[|]|] b] eqn:Hb; try (injection Hstop; discriminate).
    injection Hstop as <-.
    assert (HT : Interning.initialized (Interning.string_table_destroy (g_table st0)) = false).
    { unfold Interning.string_table_destroy.
      destruct (Interning.initialized (g_table st0)) eqn:Hi; [reflexivity|exact Hi]. }
    assert (HB : Barrier.initialized (Barrier.barrier_destroy b) = false).
    { unfold Barrier.barrier_destroy.
      destruct (Barrier.initialized b) eqn:Hi; [reflexivity|exact Hi]. }
    unfold tracking_start. cbn [g_table g_barrier].
    unfold Interning.string_table_init, Barrier.barrier_init. rewrite HT, HB.
    destruct (alloc h) as [ok1 h1] eqn:Ha1.
    destruct (allocs_ok_step _ _ _ Ha1 Hh) as [-> Hh1].
    destruct (alloc h1) as [ok2 h2] eqn:Ha2.
    destruct (allocs_ok_step _ _ _ Ha2 Hh1) as [-> Hh2].
    cbn [REQUIRE rbind Z.eqb]. eexists _, _. split; [reflexivity|]. cbn.
    split; [reflexivity|]. split; [reflexivity|]. split; [reflexivity|].
    split; [|auto].
    assert (Hinit : Interning.string_table_init 0 0 Interning.g_table_zero h
                    = Ret ({| Interning.strings := [];
                              Interning.strings_capacity := 256;
                              Interning.buckets := replicate 1024 None;
                              Interning.initialized := true |}, h2)).
    { unfold Interning.string_table_init. cbn [Interning.initialized Interning.g_table_zero].
      rewrite Ha1. cbn [REQUIRE rbind]. rewrite Ha2. reflexivity. }
    apply InterningFacts.string_table_init_ok in Hinit as [Hok _]. exact Hok.
  - intros HT HB rc1 rc2 rc3. unfold tracking_start.
    unfold Interning.string_table_init, Barrier.barrier_init. rewrite HT, HB.
    reflexivity.
Qed.

Lemma tracking_start_restarts_and_reregisters_witness :
  exists st' h',
    tracking_start (Some 9%nat) 5 0 0 0
      (snd (tracking_stop Samples.outside_handler)) [] = Ret (st', h') /\
    tracking_is_active st' = true /\
    g_callback st' = Some 9%nat /\ g_user_data st' = 5 /\
    Interning.table_ok (g_table st') /\
    Interning.string_table_count (g_table st') = 0%nat /\
    Barrier.barrier_is_stopping (g_barrier st') = false /\
    Barrier.barrier_active_count (g_barrier st') = 0 /\
    Barrier.initialized (g_barrier st') = true.
Proof.
  apply (proj1 (proj2 (tracking_start_restarts_and_reregisters (Some 9%nat) 5
                  Samples.outside_handler (snd (tracking_stop Samples.outside_handler)) []))).
  - reflexivity.
  - reflexivity.
  - apply allocs_ok_nil.
Defined.

End CallbackLaws.

(* ---------------------------------------------------------------------- *)
(** ** _tracking.c: what every hook keeps                                   *)
(* ---------------------------------------------------------------------- *)

Module TrackingLaws.
Import Tracking TrackingSpec HookSpec TrackingFacts.

Local Open Scope Z_scope.

(** *** The barrier around a hook, whatever the state *)

Lemma set_barrier_same g : set_barrier (barrier g) g = g.
Proof. destruct g. reflexivity. Qed.

Lemma set_callback_depth_same l : set_callback_depth (tl_callback_depth l) l = l.
Proof. destruct l. reflexivity. Qed.

Lemma try_enter_barrier_cases g l :
  (Barrier.initialized (barrier g) = true /\ Barrier.stopping (barrier g) = false /\
   try_enter_barrier g l =
     (true, set_barrier (Barrier.add_active 1 (barrier g)) g,
      set_callback_depth (tl_callback_depth l + 1) l)) \/
  ((Barrier.initialized (barrier g) = false \/ Barrier.stopping (barrier g) = true) /\
   try_enter_barrier g l = (false, g, l)).
Proof.
  destruct g as [m evs cap a [n s i]], l as [cs sd d].
  destruct i, s; cbn; auto.
Qed.

(** Leaving the section that [try_enter_barrier] opened on [g] and [l]. *)
Lemma leave_opened g l g2 l2 :
  Barrier.initialized (barrier g) = true -> 0 <= tl_callback_depth l ->
  barrier g2 = Barrier.add_active 1 (barrier g) ->
  tl_callback_depth l2 = tl_callback_depth l + 1 ->
  leave_barrier g2 l2 =
    Ret (set_barrier (barrier g) g2, set_callback_depth (tl_callback_depth l) l2).
Proof.
  intros Hinit Hd Hb Hl. rewrite leave_entered.
  - rewrite Hb, Hl, add_active_cancel. do 3 f_equal. lia.
  - rewrite Hb. exact Hinit.
  - lia.
Qed.

(** *** The registry *)

Lemma ensure_events_capacity_grown needed g h :
  ensure_events_capacity needed g h =
    if events_count g + needed <=? events_capacity g then (true, g, h)
    else if fst (alloc h) then (true, set_events (events g) (grown needed g) g, snd (alloc h))
    else (false, g, snd (alloc h)).
Proof.
  rewrite ensure_events_capacity_unfold. unfold grown.
  destruct (events_count g + needed <=? events_capacity g); reflexivity.
Qed.

Lemma ensure_events_capacity_true needed g h g1 h1 :
  ensure_events_capacity needed g h = (true, g1, h1) ->
  g1 = set_events (events g) (grown needed g) g /\ (h1 = h \/ h1 = snd (alloc h)).
Proof.
  rewrite ensure_events_capacity_grown. unfold grown.
  destruct (events_count g + needed <=? events_capacity g).
  - intros H. injection H as <- <-. split; [destruct g; reflexivity|auto].
  - destruct (fst (alloc h)); [|discriminate].
    intros H. injection H as <- <-. auto.
Qed.

Lemma ensure_events_capacity_false needed g h g1 h1 :
  ensure_events_capacity needed g h = (false, g1, h1) ->
  g1 = g /\ h1 = snd (alloc h).
Proof.
  rewrite ensure_events_capacity_grown.
  destruct (events_count g + needed <=? events_capacity g); [discriminate|].
  destruct (fst (alloc h)); [discriminate|].
  intros H. injection H as <- <-. auto.
Qed.

Lemma ensure_events_capacity_set_barrier needed b g h :
  ensure_events_capacity needed (set_barrier b g) h =
    let '(ok, g1, h1) := ensure_events_capacity needed g h in (ok, set_barrier b g1, h1).
Proof.
  rewrite !ensure_events_capacity_grown.
  change (events_count (set_barrier b g)) with (events_count g).
  change (events_capacity (set_barrier b g)) with (events_capacity g).
  destruct (events_count g + needed <=? events_capacity g); [reflexivity|].
  destruct (fst (alloc h)); reflexivity.
Qed.

Lemma double_until_ge fuel : forall c target, 0 <= c -> c <= double_until fuel c target.
Proof.
  induction fuel as [|fuel IH]; intros c target Hc; simpl.
  - destruct (c <? target); lia.
  - destruct (c <? target); [|lia].
    specialize (IH (c * 2) target ltac:(lia)). lia.
Qed.

(** The capacity that [ensure_events_capacity] grants holds the log and
    [needed] more records, and is no less than before. *)
Lemma grown_room needed g :
  0 <= needed -> log_within_capacity g ->
  events_count g + needed <= grown needed g /\ events_capacity g <= grown needed g.
Proof.
  intros Hn Hw. unfold log_within_capacity in Hw. unfold grown.
  assert (H0 : 0 <= events_count g) by (unfold events_count; lia).
  destruct (events_count g + needed <=? events_capacity g) eqn:Hle.
  - apply Z.leb_le in Hle. lia.
  - split.
    + apply double_until_reaches.
      * unfold INITIAL_EVENTS_CAPACITY. destruct (events_capacity g =? 0) eqn:Hz; [lia|].
        apply Z.eqb_neq in Hz. lia.
      * unfold INITIAL_EVENTS_CAPACITY. destruct (events_capacity g =? 0); lia.
    + etransitivity; [|apply double_until_ge].
      * unfold INITIAL_EVENTS_CAPACITY. destruct (events_capacity g =? 0) eqn:Hz; [|lia].
        apply Z.eqb_eq in Hz. lia.
      * unfold INITIAL_EVENTS_CAPACITY. destruct (events_capacity g =? 0); lia.
Qed.

(** *** What each hook returns

    A hook of a worker whose depth is not negative always returns, and
    what it returns is one of a few shapes. *)

Lemma top_of_stack_depth d l : top_of_stack (set_callback_depth d l) = top_of_stack l.
Proof. reflexivity. Qed.

Lemma before_original_eval_shape code g l h :
  0 <= tl_callback_depth l ->
  (exists h', before_original_eval code g l h = Ret (Skipped, g, l, h') /\
              (h' = h \/ h' = snd (alloc h)) /\
              (accepting g l -> code <> None ->
               fst (fst (ensure_events_capacity 2 g h)) = false)) \/
  (exists c h2,
     code = Some c /\ accepting g l /\ (h2 = h \/ h2 = snd (alloc h)) /\
     before_original_eval code g l h =
       Ret (Recorded (ev_location (fst (fill_call_event c (top_of_stack l) h2))),
            set_events (events g ++ [fst (fill_call_event c (top_of_stack l) h2)])
              (grown 2 g) g,
            pushed (ev_location (fst (fill_call_event c (top_of_stack l) h2))) l,
            snd (fill_call_event c (top_of_stack l) h2))).
Proof.
  intros Hd. unfold before_original_eval.
  destruct (tracking_active g =? 0) eqn:Hact.
  { left. exists h. split; [reflexivity|]. split; [auto|].
    intros (Ha & _) _. apply Z.eqb_eq in Hact. contradiction. }
  destruct (try_enter_barrier_cases g l) as [(Hi & Hs & ->)|(Hclosed & ->)].
  2: { left. exists h. split; [reflexivity|]. split; [auto|].
       intros (_ & Hi & Hs & _) _. destruct Hclosed; congruence. }
  cbn [negb].
  set (g1 := set_barrier (Barrier.add_active 1 (barrier g)) g).
  set (l1 := set_callback_depth (tl_callback_depth l + 1) l).
  assert (Hleave : leave_barrier g1 l1 = Ret (g, l)).
  { rewrite (leave_opened g l g1 l1 Hi Hd eq_refl eq_refl). subst g1 l1.
    destruct g, l. reflexivity. }
  destruct code as [c|].
  2: { rewrite Hleave. left. exists h. split; [reflexivity|]. split; [auto|].
       intros _ Hc. contradiction. }
  subst g1. rewrite ensure_events_capacity_set_barrier.
  destruct (ensure_events_capacity 2 g h) as [[ok g2] h2] eqn:He.
  destruct ok; cbn [negb].
  - apply ensure_events_capacity_true in He as [-> Hh2].
    right. exists c, h2. split; [reflexivity|]. split.
    { apply Z.eqb_neq in Hact. unfold accepting. auto. }
    split; [exact Hh2|].
    change (top_of_stack l1) with (top_of_stack l).
    destruct (fill_call_event c (top_of_stack l) h2) as [ev h3]. cbn [fst snd].
    rewrite (leave_opened g l _ _ Hi Hd);
      [|reflexivity|subst l1; destruct (stack_depth _ <? MAX_STACK_DEPTH); reflexivity].
    cbn [rbind]. subst l1. unfold pushed. destruct g, l. cbn.
    destruct (_ <? MAX_STACK_DEPTH); reflexivity.
  - apply ensure_events_capacity_false in He as [-> ->].
    rewrite Hleave. left. exists (snd (alloc h)). split; [reflexivity|]. split; [auto|].
    intros _ _. reflexivity.
Qed.

Lemma after_original_eval_shape saved res g l h :
  0 <= tl_callback_depth l ->
  (exists h', after_original_eval saved res g l h = Ret (g, popped l, h') /\
              (h' = h \/ h' = snd (alloc h)) /\
              (accepting g l -> events_capacity g <> 0 ->
               fst (fst (ensure_events_capacity 1 g h)) = false)) \/
  (exists h2,
     accepting g l /\ events_capacity g <> 0 /\ (h2 = h \/ h2 = snd (alloc h)) /\
     after_original_eval saved res g l h =
       Ret (set_events (events g ++ [fst (fill_return_event saved res h2)]) (grown 1 g) g,
            popped l,
            snd (fill_return_event saved res h2))).
Proof.
  intros Hd. unfold after_original_eval. fold (popped l).
  assert (Hd0 : tl_callback_depth (popped l) = tl_callback_depth l).
  { unfold popped. destruct (0 <? stack_depth l); reflexivity. }
  destruct (try_enter_barrier_cases g (popped l)) as [(Hi & Hs & ->)|(Hclosed & ->)].
  2: { left. exists h. split; [reflexivity|]. split; [auto|].
       intros (_ & Hi & Hs & _) _. destruct Hclosed; congruence. }
  cbn [negb].
  set (g1 := set_barrier (Barrier.add_active 1 (barrier g)) g).
  set (l1 := set_callback_depth (tl_callback_depth (popped l) + 1) (popped l)).
  assert (Hleave : leave_barrier g1 l1 = Ret (g, popped l)).
  { rewrite (leave_opened g (popped l) g1 l1 Hi ltac:(lia) eq_refl eq_refl). subst g1 l1.
    destruct g, (popped l). reflexivity. }
  change (tracking_active g1) with (tracking_active g).
  change (events_capacity g1) with (events_capacity g).
  destruct (tracking_active g =? 0) eqn:Hact; cbn [orb].
  { rewrite Hleave. left. exists h. split; [reflexivity|]. split; [auto|].
    intros (Ha & _) _. apply Z.eqb_eq in Hact. contradiction. }
  destruct (events_capacity g =? 0) eqn:Hcap.
  { rewrite Hleave. left. exists h. split; [reflexivity|]. split; [auto|].
    intros _ Hc. apply Z.eqb_eq in Hcap. contradiction. }
  subst g1. rewrite ensure_events_capacity_set_barrier.
  destruct (ensure_events_capacity 1 g h) as [[ok g2] h2] eqn:He.
  destruct ok; cbn [negb].
  - apply ensure_events_capacity_true in He as [-> Hh2].
    right. exists h2. split.
    { apply Z.eqb_neq in Hact. unfold accepting. auto. }
    split; [apply Z.eqb_neq; exact Hcap|]. split; [exact Hh2|].
    destruct (fill_return_event saved res h2) as [ev h3]. cbn [fst snd].
    rewrite (leave_opened g (popped l) _ _ Hi ltac:(lia)); [|reflexivity|reflexivity].
    cbn [rbind]. subst l1. destruct g, (popped l). reflexivity.
  - apply ensure_events_capacity_false in He as [-> ->].
    rewrite Hleave. left. exists (snd (alloc h)). split; [reflexivity|]. split; [auto|].
    intros _ _. reflexivity.
Qed.

Lemma handle_ref_create_set_barrier obj ty b d g l h :
  handle_ref_create obj ty (set_barrier b g) (set_callback_depth d l) h =
    (set_barrier b (fst (handle_ref_create obj ty g l h)),
     snd (handle_ref_create obj ty g l h)).
Proof.
  unfold handle_ref_create.
  change (obj_creation_map (set_barrier b g)) with (obj_creation_map g).
  destruct (vt_insert (obj_creation_map g) obj CreationInfo_zero h) as [[ins m] h1].
  change (capture_creation ty (set_callback_depth d l)) with (capture_creation ty l).
  set (m' := if ins then _ else m).
  change (set_map m' (set_barrier b g)) with (set_barrier b (set_map m' g)).
  rewrite ensure_events_capacity_set_barrier.
  destruct (ensure_events_capacity 1 (set_map m' g) h1) as [[ok g2] h2].
  destruct ok; cbn [negb]; [|reflexivity].
  change (fill_create_event obj ty (set_callback_depth d l) h2)
    with (fill_create_event obj ty l h2).
  destruct (fill_create_event obj ty l h2) as [ev h3]. reflexivity.
Qed.

Lemma handle_ref_destroy_set_barrier obj ty b d g l h :
  handle_ref_destroy obj ty (set_barrier b g) (set_callback_depth d l) h =
    (set_barrier b (fst (handle_ref_destroy obj ty g l h)),
     snd (handle_ref_destroy obj ty g l h)).
Proof.
  unfold handle_ref_destroy.
  change (obj_creation_map (set_barrier b g)) with (obj_creation_map g).
  destruct (vt_get (obj_creation_map g) obj) as [info|].
  - destruct (alloc h) as [ok1 h1].
    rewrite ensure_events_capacity_set_barrier.
    destruct (ensure_events_capacity 1 g h1) as [[ok g2] h2].
    destruct ok; [|reflexivity].
    change (fill_destroy_event obj ty (set_callback_depth d l))
      with (fill_destroy_event obj ty l).
    destruct (fill_destroy_event obj ty l _ h2) as [ev h3]. reflexivity.
  - rewrite ensure_events_capacity_set_barrier.
    destruct (ensure_events_capacity 1 g h) as [[ok g2] h2].
    destruct ok; [|reflexivity].
    change (fill_destroy_event obj ty (set_callback_depth d l))
      with (fill_destroy_event obj ty l).
    destruct (fill_destroy_event obj ty l None h2) as [ev h3]. reflexivity.
Qed.

Lemma handle_ref_set_barrier event obj ty b d g l h :
  handle_ref event obj ty (set_barrier b g) (set_callback_depth d l) h =
    (set_barrier b (fst (handle_ref event obj ty g l h)),
     snd (handle_ref event obj ty g l h)).
Proof.
  destruct event; [apply handle_ref_create_set_barrier|apply handle_ref_destroy_set_barrier].
Qed.

Lemma ref_tracer_callback_shape event obj ty g l h :
  0 <= tl_callback_depth l ->
  (~ accepting g l /\ ref_tracer_callback event obj ty g l h = Ret (g, l, h)) \/
  (accepting g l /\
   ref_tracer_callback event obj ty g l h =
     Ret (set_barrier (barrier g) (fst (handle_ref event obj ty g l h)), l,
          snd (handle_ref event obj ty g l h))).
Proof.
  intros Hd. unfold ref_tracer_callback.
  destruct (tracking_active g =? 0) eqn:Hact.
  { left. split; [|reflexivity]. intros (Ha & _). apply Z.eqb_eq in Hact. contradiction. }
  destruct (try_enter_barrier_cases g l) as [(Hi & Hs & ->)|(Hclosed & ->)].
  2: { left. split; [|reflexivity]. intros (_ & Hi & Hs & _). destruct Hclosed; congruence. }
  cbn [negb]. right. split.
  { apply Z.eqb_neq in Hact. unfold accepting. auto. }
  change (match event with
          | PyRefTracer_CREATE => handle_ref_create obj ty ?g1 ?l1 h
          | PyRefTracer_DESTROY => handle_ref_destroy obj ty ?g1 ?l1 h
          end) with (handle_ref event obj ty g1 l1 h).
  rewrite handle_ref_set_barrier.
  destruct (handle_ref event obj ty g l h) as [g2 h2]. cbn [fst snd].
  rewrite (leave_opened g l _ _ Hi Hd); [|reflexivity|reflexivity].
  cbn [rbind]. destruct g2, l. reflexivity.
Qed.

(** *** What each hook does to the log *)

Lemma log_step_refl g : log_step g g.
Proof. unfold log_step. auto 10 with zarith. Qed.

Lemma log_step_append needed g ev :
  1 <= needed ->
  log_step g (set_events (events g ++ [ev]) (grown needed g) g).
Proof.
  intros Hn. unfold log_step. cbn. split; [reflexivity|]. split; [reflexivity|].
  split; [right; eauto|]. intros Hw.
  destruct (grown_room needed g ltac:(lia) Hw) as [Hroom Hcap].
  split; [|exact Hcap].
  unfold log_within_capacity, events_count in *. cbn. rewrite length_app. cbn. lia.
Qed.

Lemma log_step_set_map m g g' :
  log_step (set_map m g) g' -> log_step g g'.
Proof. intros H. exact H. Qed.

Lemma log_step_map_after g g' m :
  log_step g g' -> log_step g (set_map m g').
Proof. intros H. exact H. Qed.

Lemma handle_ref_create_log obj ty g l h :
  log_step g (fst (handle_ref_create obj ty g l h)).
Proof.
  unfold handle_ref_create.
  destruct (vt_insert (obj_creation_map g) obj CreationInfo_zero h) as [[ins m] h1].
  set (m' := if ins then _ else m). apply (log_step_set_map m').
  destruct (ensure_events_capacity 1 (set_map m' g) h1) as [[ok g2] h2] eqn:He.
  destruct ok; cbn [negb].
  - apply ensure_events_capacity_true in He as [-> _].
    destruct (fill_create_event obj ty l h2) as [ev h3]. cbn [fst].
    apply (log_step_append 1 (set_map m' g) ev). lia.
  - apply ensure_events_capacity_false in He as [-> _]. apply log_step_refl.
Qed.

Lemma handle_ref_destroy_log obj ty g l h :
  log_step g (fst (handle_ref_destroy obj ty g l h)).
Proof.
  unfold handle_ref_destroy.
  destruct (vt_get (obj_creation_map g) obj) as [info|].
  - destruct (alloc h) as [ok1 h1].
    destruct (ensure_events_capacity 1 g h1) as [[ok g2] h2] eqn:He.
    destruct ok.
    + apply ensure_events_capacity_true in He as [-> _].
      destruct (fill_destroy_event obj ty l _ h2) as [ev h3]. cbn [fst].
      apply log_step_map_after. apply (log_step_append 1 g ev). lia.
    + apply ensure_events_capacity_false in He as [-> _]. cbn [fst].
      apply log_step_map_after. apply log_step_refl.
  - destruct (ensure_events_capacity 1 g h) as [[ok g2] h2] eqn:He.
    destruct ok.
    + apply ensure_events_capacity_true in He as [-> _].
      destruct (fill_destroy_event obj ty l None h2) as [ev h3]. cbn [fst].
      apply (log_step_append 1 g ev). lia.
    + apply ensure_events_capacity_false in He as [-> _]. apply log_step_refl.
Qed.

Lemma log_step_restore g g' : log_step g g' -> log_step g (set_barrier (barrier g) g').
Proof.
  intros (Hb & Ha & He & Hc). unfold log_step. cbn. auto.
Qed.

(** Every hook of a worker whose depth is not negative returns; it
    leaves the barrier, the activity flag and every depth as they were,
    and appends at most one record. *)
Lemma run_hook_log tid k p :
  0 <= tl_callback_depth (locals p tid) ->
  exists e p',
    run_hook tid k p = Ret (e, p') /\
    log_step (globals p) (globals p') /\
    (forall t, tl_callback_depth (locals p' t) = tl_callback_depth (locals p t)).
Proof.
  intros Hd. unfold run_hook.
  assert (Hset : forall l', tl_callback_depth l' = tl_callback_depth (locals p tid) ->
            forall t, tl_callback_depth (set_locals tid l' (locals p) t)
                      = tl_callback_depth (locals p t)).
  { intros l' Hl t. unfold set_locals. destruct (Nat.eqb t tid) eqn:Ht; [|reflexivity].
    apply Nat.eqb_eq in Ht. subst t. exact Hl. }
  destruct k as [code|saved res|event obj ty].
  - destruct (before_original_eval_shape code (globals p) (locals p tid) (memory p) Hd)
      as [(h' & -> & _)|(c & h2 & _ & _ & _ & ->)]; cbn [rbind];
      eexists _, _; (split; [reflexivity|]); cbn [globals locals]; split.
    + apply log_step_refl.
    + apply Hset. reflexivity.
    + apply log_step_append. lia.
    + apply Hset. unfold pushed. destruct (_ <? MAX_STACK_DEPTH); reflexivity.
  - assert (Hp : tl_callback_depth (popped (locals p tid))
                 = tl_callback_depth (locals p tid)).
    { unfold popped. destruct (0 <? _); reflexivity. }
    destruct (after_original_eval_shape saved res (globals p) (locals p tid) (memory p) Hd)
      as [(h' & -> & _)|(h2 & _ & _ & _ & ->)]; cbn [rbind];
      eexists _, _; (split; [reflexivity|]); cbn [globals locals]; split.
    + apply log_step_refl.
    + apply Hset. exact Hp.
    + apply log_step_append. lia.
    + apply Hset. exact Hp.
  - destruct (ref_tracer_callback_shape event obj ty (globals p) (locals p tid) (memory p) Hd)
      as [[_ ->]|(_ & ->)]; cbn [rbind];
      eexists _, _; (split; [reflexivity|]); cbn [globals locals]; split.
    + apply log_step_refl.
    + apply Hset. reflexivity.
    + apply log_step_restore.
      destruct event; [apply handle_ref_create_log|apply handle_ref_destroy_log].
    + apply Hset. reflexivity.
Qed.

Lemma depths_nonneg_started h : depths_nonneg (started_process h).
Proof. intros t. cbn. lia. Qed.



(** X18.  The log is append-only and stays within its array: a run of
    hooks leaves every record that was in the log where it was, adds at
    most one record per hook behind them, never shrinks the array, and if
    the log fitted the array before the run it fits it after. *)
Theorem log_is_append_only_and_fits_its_array ks : forall p es p',
  depths_nonneg p ->
  run_hooks ks p = Ret (es, p') ->
  exists new,
    events (globals p') = events (globals p) ++ new /\
    (length new <= length ks)%nat /\
    (log_within_capacity (globals p) ->
     log_within_capacity (globals p') /\
     events_capacity (globals p) <= events_capacity (globals p')).
Proof.
  induction ks as [|[tid k] ks IH]; intros p es p' Hp Hrun; cbn [run_hooks] in Hrun.
  - injection Hrun as <- <-. exists []. rewrite app_nil_r.
    split; [reflexivity|]. split; [reflexivity|]. intros Hw. split; [exact Hw|lia].
  - destruct (run_hook_log tid k p (Hp tid)) as (e & p1 & He & (_ & _ & Hev & Hcap) & Hd).
    rewrite He in Hrun. cbn [rbind] in Hrun.
    destruct (run_hooks ks p1) as [[es1 p2]|msg] eqn:Hks; cbn [rbind] in Hrun;
      [|discriminate].
    injection Hrun as <- <-.
    destruct (IH p1 es1 p2) as (new & Hnew & Hlen & Hcap'); [|exact Hks|].
    { intros t. rewrite Hd. apply Hp. }
    destruct Hev as [Hev|[ev Hev]].
    + exists new. rewrite Hnew, Hev. split; [reflexivity|]. split; [cbn; lia|].
      intros Hw. destruct (Hcap Hw) as [Hw1 Hc1]. destruct (Hcap' Hw1). split; [assumption|lia].
    + exists (ev :: new). rewrite Hnew, Hev, <- app_assoc. split; [reflexivity|].
      split; [cbn; lia|].
      intros Hw. destruct (Hcap Hw) as [Hw1 Hc1]. destruct (Hcap' Hw1). split; [assumption|lia].
Qed.

Lemma log_is_append_only_and_fits_its_array_witness :
  exists new,
    events (globals (snd sample_run)) = events (globals (started_process [])) ++ new /\
    (length new <= length sample_hooks)%nat /\
    (log_within_capacity (globals (started_process [])) ->
     log_within_capacity (globals (snd sample_run)) /\
     events_capacity (globals (started_process []))
       <= events_capacity (globals (snd sample_run))).
Proof.
  apply (log_is_append_only_and_fits_its_array sample_hooks (started_process [])
           (fst sample_run) (snd sample_run)).
  - apply depths_nonneg_started.
  - vm_compute. reflexivity.
Defined.

(** *** What each hook does to the call stack *)

Lemma run_hook_stack tid k p e p' :
  0 <= tl_callback_depth (locals p tid) ->
  run_hook tid k p = Ret (e, p') ->
  (forall t, t <> tid -> locals p' t = locals p t) /\
  locals p' tid =
    match k, e with
    | FrameEnter _, Recorded loc => pushed loc (locals p tid)
    | FrameExit _ _, _ => popped (locals p tid)
    | _, _ => locals p tid
    end.
Proof.
  intros Hd. unfold run_hook.
  assert (Hset : forall l ls, (forall t, t <> tid -> set_locals tid l ls t = ls t) /\
                              set_locals tid l ls tid = l).
  { intros l ls. unfold set_locals. split.
    - intros t Ht. apply Nat.eqb_neq in Ht. rewrite Ht. reflexivity.
    - rewrite Nat.eqb_refl. reflexivity. }
  destruct k as [code|saved res|event obj ty].
  - destruct (before_original_eval_shape code (globals p) (locals p tid) (memory p) Hd)
      as [(h' & -> & _)|(c & h2 & _ & _ & _ & ->)]; cbn [rbind];
      intros H; injection H as <- <-; cbn [locals]; apply Hset.
  - destruct (after_original_eval_shape saved res (globals p) (locals p tid) (memory p) Hd)
      as [(h' & -> & _)|(h2 & _ & _ & _ & ->)]; cbn [rbind];
      intros H; injection H as <- <-; cbn [locals]; apply Hset.
  - destruct (ref_tracer_callback_shape event obj ty (globals p) (locals p tid) (memory p) Hd)
      as [[_ ->]|(_ & ->)]; cbn [rbind];
      intros H; injection H as <- <-; cbn [locals]; apply Hset.
Qed.

Lemma pushed_in_bounds loc l : stack_in_bounds l -> stack_in_bounds (pushed loc l).
Proof.
  intros [Hd Hl]. unfold pushed, stack_in_bounds.
  destruct (stack_depth l <? MAX_STACK_DEPTH) eqn:Hlt; [|auto].
  apply Z.ltb_lt in Hlt. cbn. rewrite length_insert. split; [lia|exact Hl].
Qed.

Lemma popped_in_bounds l : stack_in_bounds l -> stack_in_bounds (popped l).
Proof.
  intros [Hd Hl]. unfold popped, stack_in_bounds.
  destruct (0 <? stack_depth l) eqn:Hlt; [|auto].
  apply Z.ltb_lt in Hlt. cbn. split; [lia|exact Hl].
Qed.

Lemma run_hook_in_bounds tid k p e p' :
  0 <= tl_callback_depth (locals p tid) ->
  run_hook tid k p = Ret (e, p') ->
  (forall t, stack_in_bounds (locals p t)) ->
  forall t, stack_in_bounds (locals p' t).
Proof.
  intros Hd Hrun Hb t. destruct (run_hook_stack _ _ _ _ _ Hd Hrun) as [Hother Hself].
  destruct (Nat.eq_dec t tid) as [->|Hne]; [|rewrite Hother by exact Hne; apply Hb].
  rewrite Hself. destruct k as [code|saved res|event obj ty].
  - destruct e; [apply pushed_in_bounds|]; apply Hb.
  - apply popped_in_bounds, Hb.
  - apply Hb.
Qed.

Lemma in_bounds_started h t : stack_in_bounds (locals (started_process h) t).
Proof. split; [cbn; unfold MAX_STACK_DEPTH; lia|reflexivity]. Qed.

(** X19.  The per-worker call stack never leaves its array: along any
    run of hooks, nested as deep and returned as often as one likes,
    every worker's [stack_depth] stays between 0 and [MAX_STACK_DEPTH]
    and [call_stack] keeps its [MAX_STACK_DEPTH] slots, so every slot the
    hooks write or read exists. *)
Theorem call_stack_stays_within_its_array ks : forall p es p',
  depths_nonneg p ->
  (forall t, stack_in_bounds (locals p t)) ->
  run_hooks ks p = Ret (es, p') ->
  forall t, stack_in_bounds (locals p' t).
Proof.
  induction ks as [|[tid k] ks IH]; intros p es p' Hp Hb Hrun; cbn [run_hooks] in Hrun.
  - injection Hrun as <- <-. exact Hb.
  - destruct (run_hook_log tid k p (Hp tid)) as (e & p1 & He & _ & Hd).
    rewrite He in Hrun. cbn [rbind] in Hrun.
    destruct (run_hooks ks p1) as [[es1 p2]|msg] eqn:Hks; cbn [rbind] in Hrun;
      [|discriminate].
    injection Hrun as <- <-.
    apply (IH p1 es1 p2); [| |exact Hks].
    + intros t. rewrite Hd. apply Hp.
    + eapply run_hook_in_bounds; [apply Hp|exact He|exact Hb].
Qed.

Lemma call_stack_stays_within_its_array_witness :
  stack_in_bounds (locals (snd sample_run) 0%nat).
Proof.
  apply (call_stack_stays_within_its_array sample_hooks (started_process [])
           (fst sample_run) (snd sample_run)).
  - apply depths_nonneg_started.
  - apply in_bounds_started.
  - vm_compute. reflexivity.
Defined.

Lemma pushed_open loc l :
  stack_in_bounds l -> stack_depth l < MAX_STACK_DEPTH ->
  open_slots (pushed loc l) = open_slots l ++ [loc] /\
  stack_depth (pushed loc l) = stack_depth l + 1.
Proof.
  intros [Hd Hl] Hlt. unfold pushed, open_slots.
  apply Z.ltb_lt in Hlt. rewrite Hlt. cbn. apply Z.ltb_lt in Hlt.
  split; [|reflexivity].
  replace (Z.to_nat (stack_depth l + 1)) with (S (Z.to_nat (stack_depth l))) by lia.
  rewrite (take_S_r _ _ loc) by (apply list_lookup_insert_eq; lia).
  rewrite take_insert_ge by lia. reflexivity.
Qed.

Lemma popped_open l :
  stack_in_bounds l -> 0 < stack_depth l ->
  open_slots (popped l) = removelast (open_slots l) /\
  stack_depth (popped l) = stack_depth l - 1.
Proof.
  intros [Hd Hl] Hlt. unfold popped, open_slots.
  apply Z.ltb_lt in Hlt. rewrite Hlt. cbn. apply Z.ltb_lt in Hlt.
  split; [|reflexivity].
  replace (Z.to_nat (stack_depth l - 1)) with (Z.to_nat (stack_depth l) - 1)%nat by lia.
  apply FrameLaws.take_pred_removelast. lia.
Qed.

(** X20.  The call stack of a worker holds the calls it has open: along
    a run of hooks in which the worker's nesting stays within
    [MAX_STACK_DEPTH], the slots in use list the locations of its
    recorded calls that have not returned yet, the outermost first,
    whatever the other workers do in between. *)
Theorem call_stack_holds_the_open_calls tid ks : forall p es p',
  depths_nonneg p ->
  stack_in_bounds (locals p tid) ->
  run_hooks ks p = Ret (es, p') ->
  within_bound_from tid (stack_depth (locals p tid)) ks es ->
  open_slots (locals p' tid) = open_calls tid (open_slots (locals p tid)) ks es.
Proof.
  induction ks as [|[t k] ks IH]; intros p es p' Hp Hb Hrun Hw; cbn [run_hooks] in Hrun.
  - injection Hrun as <- <-. reflexivity.
  - destruct (run_hook_log t k p (Hp t)) as (e & p1 & He & _ & Hd).
    rewrite He in Hrun. cbn [rbind] in Hrun.
    destruct (run_hooks ks p1) as [[es1 p2]|msg] eqn:Hks; cbn [rbind] in Hrun;
      [|discriminate].
    injection Hrun as <- <-.
    destruct (run_hook_stack _ _ _ _ _ (Hp t) He) as [Hother Hself].
    assert (Hp1 : depths_nonneg p1) by (intros u; rewrite Hd; apply Hp).
    cbn [open_calls within_bound_from] in Hw |- *.
    destruct (Nat.eqb t tid) eqn:Ht.
    + apply Nat.eqb_eq in Ht. subst t.
      assert (Hnext : forall l1 st,
                locals p1 tid = l1 -> stack_in_bounds l1 -> open_slots l1 = st ->
                within_bound_from tid (stack_depth l1) ks es1 ->
                open_slots (locals p2 tid) = open_calls tid st ks es1).
      { intros l1 st Hl1 Hb1 <- Hw1. rewrite <- Hl1 in *. apply IH; assumption. }
      destruct k as [code|saved res|event obj ty].
      * destruct e as [loc|].
        -- destruct Hw as [Hlt Hw]. destruct (pushed_open loc _ Hb Hlt) as [Ho Hs].
           apply (Hnext _ _ Hself); [apply pushed_in_bounds, Hb|exact Ho|].
           rewrite Hs. exact Hw.
        -- apply (Hnext _ _ Hself); [exact Hb|reflexivity|exact Hw].
      * destruct Hw as [Hlt Hw]. destruct (popped_open _ Hb Hlt) as [Ho Hs].
        apply (Hnext _ _ Hself); [apply popped_in_bounds, Hb|exact Ho|].
        rewrite Hs. exact Hw.
      * apply (Hnext _ _ Hself); [exact Hb|reflexivity|exact Hw].
    + apply Nat.eqb_neq in Ht.
      rewrite <- (Hother tid) in * by congruence. apply IH; assumption.
Qed.

Lemma call_stack_holds_the_open_calls_witness :
  open_slots (locals sample_called 0%nat)
  = open_calls 0 (open_slots (locals (started_process []) 0%nat))
      (take 1 sample_hooks)
      [Recorded {| file := Some "app.py"%string; line := 3; func := Some "f"%string |}].
Proof.
  apply (call_stack_holds_the_open_calls 0 (take 1 sample_hooks) (started_process [])
           _ sample_called).
  - apply depths_nonneg_started.
  - apply in_bounds_started.
  - vm_compute. reflexivity.
  - cbn. unfold MAX_STACK_DEPTH. split; [lia|exact I].
Defined.

(** *** What the records say *)

Lemma call_stack_at_open l i :
  stack_in_bounds l -> 0 <= i < stack_depth l ->
  open_slots l !! Z.to_nat i = Some (call_stack_at l i).
Proof.
  intros [Hd Hl] Hi. unfold open_slots, call_stack_at.
  rewrite lookup_take_lt by lia.
  destruct (lookup_lt_is_Some_2 (call_stack l) (Z.to_nat i)) as [x Hx];
    [unfold MAX_STACK_DEPTH in *; lia|].
  rewrite Hx. reflexivity.
Qed.

Lemma open_slots_length l :
  stack_in_bounds l -> length (open_slots l) = Z.to_nat (stack_depth l).
Proof.
  intros [Hd Hl]. unfold open_slots. rewrite length_take. lia.
Qed.

Lemma top_of_stack_last l :
  stack_in_bounds l -> top_of_stack l = last (open_slots l).
Proof.
  intros Hb. pose proof (open_slots_length l Hb) as Hlen.
  unfold top_of_stack. rewrite last_lookup, Hlen.
  destruct (0 <? stack_depth l) eqn:Hpos.
  - apply Z.ltb_lt in Hpos.
    replace (Init.Nat.pred (Z.to_nat (stack_depth l)))
      with (Z.to_nat (stack_depth l - 1)) by lia.
    rewrite call_stack_at_open by (assumption || lia). reflexivity.
  - apply Z.ltb_ge in Hpos. destruct Hb as [Hd _].
    assert (H0 : stack_depth l = 0) by lia.
    unfold open_slots. rewrite H0. reflexivity.
Qed.

Lemma capture_traceback_S l d tb :
  0 <= d ->
  capture_traceback l (d + 1) tb =
    <[Z.to_nat d := call_stack_at l (stack_depth l - 1 - d)]> (capture_traceback l d tb).
Proof.
  intros Hd. unfold capture_traceback.
  replace (Z.to_nat (d + 1)) with (S (Z.to_nat d)) by lia.
  rewrite seq_S, fold_left_app. cbn [fold_left Nat.add].
  replace (Z.of_nat (Z.to_nat d)) with d by lia. reflexivity.
Qed.

Lemma capture_traceback_spec l tb n :
  length (capture_traceback l (Z.of_nat n) tb) = length tb /\
  forall i, capture_traceback l (Z.of_nat n) tb !! i =
    if decide (i < n /\ i < length tb)%nat
    then Some (call_stack_at l (stack_depth l - 1 - Z.of_nat i))
    else tb !! i.
Proof.
  induction n as [|n [IHlen IH]].
  - split; [reflexivity|]. intros i. rewrite decide_False by lia. reflexivity.
  - replace (Z.of_nat (S n)) with (Z.of_nat n + 1) by lia.
    rewrite capture_traceback_S by lia. rewrite length_insert.
    split; [exact IHlen|]. intros i.
    replace (Z.to_nat (Z.of_nat n)) with n by lia.
    rewrite list_lookup_insert, IHlen, IH.
    destruct (decide (n = i /\ n < length tb)%nat) as [[Heq Hlt]|Hn];
      destruct (decide (i < S n /\ i < length tb)%nat) as [Hs|Hs];
      destruct (decide (i < n /\ i < length tb)%nat) as [Hi|Hi];
      try (subst; reflexivity); lia.
Qed.

(** What [handle_ref_create] stores for an object, given the calls that
    the worker has open. *)
Lemma capture_creation_open ty l :
  stack_in_bounds l ->
  let info := capture_creation ty l CreationInfo_zero in
  type_name_ref info = ty /\
  location info = default FrameInfo_zero (last (open_slots l)) /\
  traceback_depth info = Z.min (stack_depth l) MAX_TRACEBACK_DEPTH /\
  length (traceback info) = Z.to_nat MAX_TRACEBACK_DEPTH /\
  take (Z.to_nat (traceback_depth info)) (traceback info)
    = take (Z.to_nat MAX_TRACEBACK_DEPTH) (reverse (open_slots l)).
Proof.
  intros Hb. pose proof (open_slots_length l Hb) as Hlen.
  pose proof (top_of_stack_last l Hb) as Htop. unfold top_of_stack in Htop.
  cbv zeta. unfold capture_creation.
  destruct (0 <? stack_depth l) eqn:Hpos.
  - apply Z.ltb_lt in Hpos. cbn [type_name_ref location traceback_depth traceback].
    set (d := if stack_depth l <? MAX_TRACEBACK_DEPTH then stack_depth l
              else MAX_TRACEBACK_DEPTH).
    assert (Hd : d = Z.min (stack_depth l) MAX_TRACEBACK_DEPTH).
    { subst d. destruct (stack_depth l <? MAX_TRACEBACK_DEPTH) eqn:Hlt.
      - apply Z.ltb_lt in Hlt. lia.
      - apply Z.ltb_ge in Hlt. lia. }
    assert (Hd16 : 0 < d <= MAX_TRACEBACK_DEPTH) by (unfold MAX_TRACEBACK_DEPTH in *; lia).
    destruct (capture_traceback_spec l (traceback CreationInfo_zero) (Z.to_nat d))
      as [Hclen Hc].
    replace (Z.of_nat (Z.to_nat d)) with d in Hclen, Hc by lia.
    assert (Hzlen : length (traceback CreationInfo_zero) = Z.to_nat MAX_TRACEBACK_DEPTH).
    { cbn. rewrite length_replicate. reflexivity. }
    split; [reflexivity|]. split; [rewrite <- Htop; reflexivity|].
    split; [exact Hd|]. split; [rewrite Hclen; exact Hzlen|].
    apply list_eq. intros i.
    destruct (decide (i < Z.to_nat d)%nat) as [Hi|Hi].
    + rewrite lookup_take_lt by lia. rewrite Hc.
      rewrite decide_True by (split; [lia|rewrite Hzlen; lia]).
      rewrite lookup_take_lt by lia.
      rewrite reverse_lookup by (rewrite Hlen; lia). rewrite Hlen.
      replace (Z.to_nat (stack_depth l) - S i)%nat
        with (Z.to_nat (stack_depth l - 1 - Z.of_nat i)) by lia.
      rewrite call_stack_at_open by (assumption || lia). reflexivity.
    + rewrite lookup_take_ge by lia.
      destruct (decide (i < Z.to_nat MAX_TRACEBACK_DEPTH)%nat) as [Hi'|Hi'].
      * rewrite lookup_take_lt by lia. symmetry. apply lookup_ge_None_2.
        rewrite length_reverse, Hlen. lia.
      * rewrite lookup_take_ge by lia. reflexivity.
  - apply Z.ltb_ge in Hpos. destruct Hb as [Hd _].
    assert (H0 : stack_depth l = 0) by lia.
    unfold open_slots. rewrite H0. cbn. auto.
Qed.

(** X21.  The creation record names the calls that were open: when a
    CREATE notification is let in and the map takes the entry, the record
    stored for the object carries the type name, the location of the
    innermost open call of the worker, and a traceback of
    min(stack depth, 16) frames that lists the open calls from the
    innermost outwards. *)
Theorem creation_record_lists_the_open_calls obj ty g l h :
  accepting g l -> stack_in_bounds l -> fst (alloc h) = true ->
  exists g' h' info,
    ref_tracer_callback PyRefTracer_CREATE obj ty g l h = Ret (g', l, h') /\
    obj_creation_map g' !! obj = Some info /\
    type_name_ref info = ty /\
    location info = default FrameInfo_zero (last (open_slots l)) /\
    traceback_depth info = Z.min (stack_depth l) MAX_TRACEBACK_DEPTH /\
    take (Z.to_nat (traceback_depth info)) (traceback info)
      = take (Z.to_nat MAX_TRACEBACK_DEPTH) (reverse (open_slots l)).
Proof.
  intros Hacc Hb Halloc.
  destruct (ref_tracer_callback_spec PyRefTracer_CREATE obj ty g l h Hacc)
    as (g' & h' & Hrun & _ & _ & Hmap & _).
  rewrite Halloc in Hmap.
  destruct (capture_creation_open ty l Hb) as (Hty & Hloc & Hdepth & _ & Htb).
  exists g', h', (capture_creation ty l CreationInfo_zero).
  split; [exact Hrun|]. split.
  - rewrite Hmap. apply lookup_insert_eq.
  - split; [exact Hty|]. split; [exact Hloc|]. split; [exact Hdepth|exact Htb].
Qed.

Lemma accepting_sample_called : accepting (globals sample_called) (locals sample_called 0%nat).
Proof. vm_compute. repeat split; intros H; discriminate H. Qed.

Lemma in_bounds_sample_called : stack_in_bounds (locals sample_called 0%nat).
Proof. vm_compute. repeat split; intros H; discriminate H. Qed.

Lemma creation_record_lists_the_open_calls_witness :
  exists g' h' info,
    ref_tracer_callback PyRefTracer_CREATE 16 (Some "int"%string)
      (globals sample_called) (locals sample_called 0%nat) []
      = Ret (g', locals sample_called 0%nat, h') /\
    obj_creation_map g' !! 16 = Some info /\
    type_name_ref info = Some "int"%string /\
    location info = default FrameInfo_zero (last (open_slots (locals sample_called 0%nat))) /\
    traceback_depth info = Z.min (stack_depth (locals sample_called 0%nat)) MAX_TRACEBACK_DEPTH /\
    take (Z.to_nat (traceback_depth info)) (traceback info)
      = take (Z.to_nat MAX_TRACEBACK_DEPTH)
          (reverse (open_slots (locals sample_called 0%nat))).
Proof.
  apply (creation_record_lists_the_open_calls 16 (Some "int"%string)
           (globals sample_called) (locals sample_called 0%nat) []).
  - apply accepting_sample_called.
  - apply in_bounds_sample_called.
  - reflexivity.
Defined.

Lemma allocs_ok_after h : allocs_ok h -> allocs_ok (snd (alloc h)).
Proof. intros H. apply allocs_ok_alloc. exact H. Qed.

Lemma strdup_ok s h :
  allocs_ok h -> fst (strdup s h) = s /\ allocs_ok (snd (strdup s h)).
Proof.
  intros Hh. unfold strdup. destruct s as [s|]; [|auto].
  destruct (alloc h) as [ok h1] eqn:Ha.
  destruct (allocs_ok_step _ _ _ Ha Hh) as [-> Hh1]. auto.
Qed.

Lemma copy_frame_info_ok src dst h :
  allocs_ok h ->
  fst (copy_frame_info src dst h) = default dst src /\
  allocs_ok (snd (copy_frame_info src dst h)).
Proof.
  intros Hh. unfold copy_frame_info. destruct src as [[f n fn]|]; [|auto].
  cbn [Tracking.file Tracking.func Tracking.line].
  destruct (strdup_ok f h Hh) as [Hf Hh1].
  destruct (strdup f h) as [f' h1]. cbn [fst snd] in *. subst f'.
  destruct (strdup_ok fn h1 Hh1) as [Hfn Hh2].
  destruct (strdup fn h1) as [fn' h2]. cbn [fst snd] in *. subst fn'. auto.
Qed.

Lemma ensure_events_capacity_ok needed g h :
  allocs_ok h ->
  fst (fst (ensure_events_capacity needed g h)) = true /\
  allocs_ok (snd (ensure_events_capacity needed g h)).
Proof.
  intros Hh. rewrite ensure_events_capacity_grown.
  destruct (events_count g + needed <=? events_capacity g); [auto|].
  destruct (allocs_ok_alloc h Hh) as [-> Hh1]. auto.
Qed.

Lemma omap_length_le {A B} (f : A -> option B) (xs : list A) :
  (length (omap f xs) <= length xs)%nat.
Proof.
  induction xs as [|x xs IH]; [reflexivity|]. cbn. destruct (f x); cbn; lia.
Qed.

Lemma fill_call_event_allocs c top h :
  allocs_ok h -> allocs_ok (snd (fill_call_event c top h)).
Proof.
  intros Hh. unfold fill_call_event.
  destruct (copy_frame_info_ok top FrameInfo_zero h Hh) as [_ H].
  destruct (copy_frame_info top FrameInfo_zero h). exact H.
Qed.

Lemma fill_return_event_allocs saved res h :
  allocs_ok h -> allocs_ok (snd (fill_return_event saved res h)).
Proof.
  intros Hh. unfold fill_return_event.
  destruct (copy_frame_info_ok (Some saved) FrameInfo_zero h Hh) as [_ H].
  destruct (copy_frame_info (Some saved) FrameInfo_zero h). exact H.
Qed.

Lemma fill_create_event_allocs obj ty l h :
  allocs_ok h -> allocs_ok (snd (fill_create_event obj ty l h)).
Proof.
  intros Hh. unfold fill_create_event.
  destruct (copy_frame_info_ok (top_of_stack l) FrameInfo_zero h Hh) as [_ H].
  destruct (copy_frame_info (top_of_stack l) FrameInfo_zero h). exact H.
Qed.

Lemma fill_destroy_event_allocs obj ty l cc h :
  allocs_ok h -> allocs_ok (snd (fill_destroy_event obj ty l cc h)).
Proof.
  intros Hh. unfold fill_destroy_event.
  destruct (copy_frame_info_ok (top_of_stack l) FrameInfo_zero h Hh) as [_ H].
  destruct (copy_frame_info (top_of_stack l) FrameInfo_zero h). exact H.
Qed.

Lemma handle_ref_allocs event obj ty g l h :
  allocs_ok h -> allocs_ok (snd (handle_ref event obj ty g l h)).
Proof.
  intros Hh. destruct event; cbn [handle_ref].
  - unfold handle_ref_create, vt_insert.
    destruct (alloc h) as [ok1 h1] eqn:Ha.
    destruct (allocs_ok_step _ _ _ Ha Hh) as [-> Hh1].
    cbv beta iota zeta.
    match goal with |- context [ensure_events_capacity 1 ?g0 h1] =>
      destruct (ensure_events_capacity_ok 1 g0 h1 Hh1) as [_ Hh2];
      destruct (ensure_events_capacity 1 g0 h1) as [[ok g2] h2]
    end.
    cbn [snd] in Hh2. destruct ok; cbn [negb]; [|exact Hh2].
    pose proof (fill_create_event_allocs obj ty l h2 Hh2) as Hh3.
    destruct (fill_create_event obj ty l h2). exact Hh3.
  - unfold handle_ref_destroy.
    assert (Hcopy : forall info : option CreationInfo,
              allocs_ok (snd (match info with
                              | Some i => let '(ok, h0) := alloc h in
                                          (if ok then Some i else None, h0)
                              | None => (None, h)
                              end))).
    { intros [i|]; [|exact Hh]. destruct (alloc h) as [ok h0] eqn:Ha.
      apply (allocs_ok_step _ _ _ Ha Hh). }
    specialize (Hcopy (vt_get (obj_creation_map g) obj)).
    destruct (match vt_get (obj_creation_map g) obj with
              | Some i => let '(ok, h0) := alloc h in (if ok then Some i else None, h0)
              | None => (None, h)
              end) as [cc h1].
    cbn [snd] in Hcopy.
    destruct (ensure_events_capacity_ok 1 g h1 Hcopy) as [_ Hh2].
    destruct (ensure_events_capacity 1 g h1) as [[ok g2] h2]. cbn [snd] in Hh2.
    destruct ok.
    + pose proof (fill_destroy_event_allocs obj ty l cc h2 Hh2) as Hh3.
      destruct (fill_destroy_event obj ty l cc h2). exact Hh3.
    + exact Hh2.
Qed.

Lemma run_hook_allocs tid k p e p' :
  0 <= tl_callback_depth (locals p tid) ->
  allocs_ok (memory p) ->
  run_hook tid k p = Ret (e, p') ->
  allocs_ok (memory p').
Proof.
  intros Hd Hh. unfold run_hook.
  assert (Hor : forall h', h' = memory p \/ h' = snd (alloc (memory p)) -> allocs_ok h').
  { intros h' [->| ->]; [exact Hh|apply allocs_ok_after; exact Hh]. }
  destruct k as [code|saved res|event obj ty].
  - destruct (before_original_eval_shape code (globals p) (locals p tid) (memory p) Hd)
      as [(h' & -> & Hh' & _)|(c & h2 & _ & _ & Hh2 & ->)]; cbn [rbind];
      intros H; injection H as <- <-; cbn [memory]; [auto|].
    apply fill_call_event_allocs. auto.
  - destruct (after_original_eval_shape saved res (globals p) (locals p tid) (memory p) Hd)
      as [(h' & -> & Hh' & _)|(h2 & _ & _ & Hh2 & ->)]; cbn [rbind];
      intros H; injection H as <- <-; cbn [memory]; [auto|].
    apply fill_return_event_allocs. auto.
  - destruct (ref_tracer_callback_shape event obj ty (globals p) (locals p tid) (memory p) Hd)
      as [[_ ->]|(_ & ->)]; cbn [rbind];
      intros H; injection H as <- <-; cbn [memory]; [exact Hh|].
    apply handle_ref_allocs. exact Hh.
Qed.

Lemma run_hook_open tid k p e p' :
  session_open p ->
  run_hook tid k p = Ret (e, p') ->
  session_open p'.
Proof.
  intros Hopen Hrun. pose proof (Hopen tid) as (_ & _ & _ & Hd).
  destruct (run_hook_log tid k p Hd) as (e' & p1 & He & (Hb & Ha & _) & Hdep).
  rewrite He in Hrun. injection Hrun as <- <-.
  intros t. destruct (Hopen t) as (H1 & H2 & H3 & H4).
  unfold accepting. rewrite Hb, Ha, Hdep. auto.
Qed.

(** X23.  The creation map holds exactly the live objects: in a session
    that takes the hooks and does not run out of memory, after any run of
    hooks the identities with an entry in [obj_creation_map] are those
    for which CREATE was seen and no DESTROY since; frame hooks and the
    notifications of other objects leave an entry alone. *)
Theorem creation_map_holds_the_live_objects ks : forall p es p',
  session_open p -> allocs_ok (memory p) ->
  run_hooks ks p = Ret (es, p') ->
  dom (obj_creation_map (globals p'))
    = live_objects (dom (obj_creation_map (globals p))) ks.
Proof.
  induction ks as [|[tid k] ks IH]; intros p es p' Hopen Hh Hrun; cbn [run_hooks] in Hrun.
  - injection Hrun as <- <-. reflexivity.
  - destruct (run_hook tid k p) as [[e p1]|msg] eqn:Hk; cbn [rbind] in Hrun; [|discriminate].
    destruct (run_hooks ks p1) as [[es1 p2]|msg] eqn:Hks; cbn [rbind] in Hrun;
      [|discriminate].
    injection Hrun as <- <-.
    pose proof (Hopen tid) as Hacc. pose proof Hacc as (_ & _ & _ & Hd).
    rewrite (IH p1 es1 p2 (run_hook_open _ _ _ _ _ Hopen Hk)
               (run_hook_allocs _ _ _ _ _ Hd Hh Hk) Hks).
    destruct k as [code|saved res|event obj ty]; cbn [live_objects].
    + unfold run_hook in Hk.
      destruct (before_original_eval code (globals p) (locals p tid) (memory p))
        as [[[[e0 g'] l'] h']|msg] eqn:Hb; cbn [rbind] in Hk; [|discriminate].
      apply before_original_eval_frame in Hb as [Hm _].
      injection Hk as <- <-. cbn [globals]. rewrite Hm. reflexivity.
    + unfold run_hook in Hk.
      destruct (after_original_eval saved res (globals p) (locals p tid) (memory p))
        as [[[g' l'] h']|msg] eqn:Hb; cbn [rbind] in Hk; [|discriminate].
      apply after_original_eval_frame in Hb as [Hm _].
      injection Hk as <- <-. cbn [globals]. rewrite Hm. reflexivity.
    + unfold run_hook in Hk.
      destruct (ref_tracer_callback_spec event obj ty (globals p) (locals p tid)
                  (memory p) Hacc) as (g' & h' & Hr & _ & _ & Hmap & _).
      rewrite Hr in Hk. cbn [rbind] in Hk. injection Hk as <- <-. cbn [globals].
      rewrite Hmap. destruct event.
      * destruct (allocs_ok_alloc _ Hh) as [-> _]. rewrite dom_insert_L. reflexivity.
      * rewrite dom_delete_L. reflexivity.
Qed.

Lemma session_open_started h : session_open (started_process h).
Proof. intros t. apply accepting_started. Qed.

Lemma creation_map_holds_the_live_objects_witness :
  dom (obj_creation_map (globals sample_created))
    = live_objects (dom (obj_creation_map (globals (started_process []))))
        (take 2 sample_hooks).
Proof.
  apply (creation_map_holds_the_live_objects (take 2 sample_hooks) (started_process [])
           [Recorded {| file := Some "app.py"%string; line := 3; func := Some "f"%string |};
            Skipped]
           sample_created).
  - apply session_open_started.
  - apply allocs_ok_nil.
  - vm_compute. reflexivity.
Defined.

(** *** After the stop, around the frame, and from start to stop *)

(** ** The call stack points into the log *)

Lemma backed_more g g' l :
  (forall rec, rec ∈ events g -> rec ∈ events g') -> backed g l -> backed g' l.
Proof.
  intros Hsub Hb loc Hloc. destruct (Hb loc Hloc) as (rec & Hin & Hty & Hl).
  exists rec. auto.
Qed.

Lemma backed_popped g l : backed g l -> backed g (popped l).
Proof.
  intros Hb loc Hloc. apply Hb. unfold popped, open_slots in *.
  destruct (0 <? stack_depth l) eqn:Hlt; [|exact Hloc]. cbn in Hloc.
  apply elem_of_take in Hloc as (i & Hi & Hlt'). apply elem_of_take.
  exists i. split; [exact Hi|lia].
Qed.

Lemma backed_pushed g l ev :
  stack_in_bounds l -> ev ∈ events g -> type ev = EVENT_CALL ->
  backed g l -> backed g (pushed (ev_location ev) l).
Proof.
  intros Hib Hin Hty Hb loc Hloc.
  destruct (Z.ltb_spec (stack_depth l) MAX_STACK_DEPTH) as [Hlt|Hge].
  - destruct (pushed_open (ev_location ev) l Hib Hlt) as [Ho _]. rewrite Ho in Hloc.
    apply elem_of_app in Hloc as [Hloc|Hloc]; [apply Hb; exact Hloc|].
    apply list_elem_of_singleton in Hloc as ->. exists ev. auto.
  - unfold pushed in Hloc. rewrite (proj2 (Z.ltb_ge _ _) Hge) in Hloc.
    apply Hb. exact Hloc.
Qed.

Lemma run_hook_backed tid k p e p' :
  0 <= tl_callback_depth (locals p tid) ->
  (forall t, stack_in_bounds (locals p t)) ->
  run_hook tid k p = Ret (e, p') ->
  (forall t, backed (globals p) (locals p t)) ->
  forall t, backed (globals p') (locals p' t).
Proof.
  intros Hd Hib Hrun Hb t.
  destruct (run_hook_log tid k p Hd) as (e' & p1 & He & (_ & _ & Hev & _) & _).
  rewrite He in Hrun. injection Hrun as <- <-.
  assert (Hsub : forall rec, rec ∈ events (globals p) -> rec ∈ events (globals p1)).
  { destruct Hev as [->|[ev ->]]; [auto|]. intros rec Hin. apply elem_of_app. auto. }
  destruct (run_hook_stack _ _ _ _ _ Hd He) as [Hother Hself].
  destruct (Nat.eq_dec t tid) as [->|Hne];
    [|rewrite Hother by exact Hne; apply (backed_more _ _ _ Hsub), Hb].
  rewrite Hself. clear Hself Hother.
  destruct k as [code|saved res|event obj ty].
  - destruct e' as [loc|]; [|apply (backed_more _ _ _ Hsub), Hb].
    unfold run_hook in He.
    destruct (before_original_eval_shape code (globals p) (locals p tid) (memory p) Hd)
      as [(h' & Hbe & _)|(c & h2 & _ & _ & _ & Hbe)];
      rewrite Hbe in He; cbn [rbind] in He; injection He as Heq <-; [discriminate Heq|].
    subst loc. cbn [globals].
    apply backed_pushed.
    + apply Hib.
    + cbn. apply elem_of_app. right. apply list_elem_of_singleton. reflexivity.
    + unfold fill_call_event. destruct (copy_frame_info _ _ _). reflexivity.
    + apply (backed_more (globals p)); [|apply Hb].
      intros rec Hin. cbn. apply elem_of_app. auto.
  - apply backed_popped, (backed_more _ _ _ Hsub), Hb.
  - apply (backed_more _ _ _ Hsub), Hb.
Qed.

(** What holds of every state that hooks reach from a fresh start. *)
Lemma run_hooks_reached ks : forall p es p',
  session_open p ->
  (forall t, stack_in_bounds (locals p t)) ->
  (forall t, backed (globals p) (locals p t)) ->
  run_hooks ks p = Ret (es, p') ->
  session_open p' /\
  (forall t, stack_in_bounds (locals p' t)) /\
  (forall t, backed (globals p') (locals p' t)).
Proof.
  induction ks as [|[tid k] ks IH]; intros p es p' Hopen Hib Hb Hrun;
    cbn [run_hooks] in Hrun.
  - injection Hrun as <- <-. auto.
  - destruct (run_hook tid k p) as [[e p1]|msg] eqn:Hk; cbn [rbind] in Hrun; [|discriminate].
    destruct (run_hooks ks p1) as [[es1 p2]|msg] eqn:Hks; cbn [rbind] in Hrun;
      [|discriminate].
    injection Hrun as <- <-.
    pose proof (Hopen tid) as (_ & _ & _ & Hd).
    apply (IH p1 es1 p2); [| | |exact Hks].
    + eapply run_hook_open; eassumption.
    + eapply run_hook_in_bounds; eassumption.
    + eapply run_hook_backed; eassumption.
Qed.

Lemma backed_started h t : backed (globals (started_process h)) (locals (started_process h) t).
Proof. intros loc Hloc. cbn in Hloc. apply elem_of_nil in Hloc. contradiction. Qed.

(** X22.  A CALL record names the callee and its caller.  In a session
    that started with no tracked frame in flight, after any run of hooks,
    when no allocation fails: the frame hook of a worker appends one CALL
    record that carries the file, first line and qualified name of the
    code object, as caller a copy of the location of the innermost call
    that the worker has open (all zero when there is none), and the
    non-null ones of the first [MAX_ARGS] argument slots.  The caller's
    location is that of a CALL record which is in the log, so the strings
    copied are live.  The callee's location is pushed on the worker's
    call stack while fewer than [MAX_STACK_DEPTH] calls are open; at
    [MAX_STACK_DEPTH] the call stack is left as it is. *)
Theorem call_record_names_callee_and_caller ks h0 es p t c :
  run_hooks ks (started_process h0) = Ret (es, p) ->
  allocs_ok (memory p) ->
  exists ev g' h',
    before_original_eval (Some c) (globals p) (locals p t) (memory p)
      = Ret (Recorded (ev_location ev), g', pushed (ev_location ev) (locals p t), h') /\
    events g' = events (globals p) ++ [ev] /\
    type ev = EVENT_CALL /\
    ev_location ev = {| file := co_filename c; line := co_firstlineno c;
                        func := co_qualname c |} /\
    caller ev = default FrameInfo_zero (last (open_slots (locals p t))) /\
    (forall loc, last (open_slots (locals p t)) = Some loc ->
       exists rec, rec ∈ events (globals p) /\ type rec = EVENT_CALL /\
                   ev_location rec = loc) /\
    args ev = omap (fun a => a) (take MAX_ARGS (arg_slots c)) /\
    (length (args ev) <= MAX_ARGS)%nat /\
    open_slots (pushed (ev_location ev) (locals p t)) =
      (if stack_depth (locals p t) <? MAX_STACK_DEPTH
       then open_slots (locals p t) ++ [ev_location ev]
       else open_slots (locals p t)) /\
    allocs_ok h'.
Proof.
  intros Hrun Hh.
  destruct (run_hooks_reached ks _ _ _ (session_open_started h0)
              (in_bounds_started h0) (backed_started h0) Hrun) as (Hopen & Hib & Hbk).
  pose proof (Hopen t) as Hacc. pose proof (Hib t) as Hb. pose proof (Hbk t) as Hback.
  set (g := globals p) in *. set (l := locals p t) in *. set (h := memory p) in *.
  pose proof Hacc as (_ & _ & _ & Hd).
  destruct (ensure_events_capacity_ok 2 g h Hh) as [Hok _].
  destruct (before_original_eval_shape (Some c) g l h Hd)
    as [(h' & _ & _ & Hno)|(c' & h2 & Hc & _ & Hh2 & Hbe)].
  { rewrite Hno in Hok by (assumption || discriminate). discriminate. }
  injection Hc as <-.
  assert (Hh2ok : allocs_ok h2).
  { destruct Hh2 as [->| ->]; [exact Hh|apply allocs_ok_after; exact Hh]. }
  unfold fill_call_event in Hbe.
  destruct (copy_frame_info_ok (top_of_stack l) FrameInfo_zero h2 Hh2ok) as [Hcaller Hh3].
  destruct (copy_frame_info (top_of_stack l) FrameInfo_zero h2) as [cl h3].
  cbn [fst snd] in *. subst cl.
  eexists _, _, _. split; [exact Hbe|]. cbn [events set_events type ev_location caller args].
  split; [reflexivity|]. split; [reflexivity|]. split; [reflexivity|].
  split; [rewrite top_of_stack_last by exact Hb; reflexivity|].
  split.
  { intros loc Hlast. apply Hback. eapply last_Some_elem_of. exact Hlast. }
  split; [reflexivity|]. split.
  { etransitivity; [apply omap_length_le|]. rewrite length_take. unfold MAX_ARGS. lia. }
  split; [|exact Hh3].
  destruct (Z.ltb_spec (stack_depth l) MAX_STACK_DEPTH) as [Hlt|Hge].
  - apply pushed_open; assumption.
  - unfold pushed. rewrite (proj2 (Z.ltb_ge _ _) Hge). reflexivity.
Qed.

Lemma sample_called_reached :
  run_hooks (take 1 sample_hooks) (started_process [])
    = Ret ([Recorded {| file := Some "app.py"%string; line := 3;
                        func := Some "f"%string |}], sample_called).
Proof. vm_compute. reflexivity. Qed.

Lemma call_record_names_callee_and_caller_witness :
  exists ev g' h',
    before_original_eval (Some sample_call) (globals sample_called)
      (locals sample_called 0%nat) (memory sample_called)
      = Ret (Recorded (ev_location ev), g',
             pushed (ev_location ev) (locals sample_called 0%nat), h') /\
    events g' = events (globals sample_called) ++ [ev] /\
    type ev = EVENT_CALL /\
    ev_location ev = {| file := co_filename sample_call; line := co_firstlineno sample_call;
                        func := co_qualname sample_call |} /\
    caller ev = default FrameInfo_zero (last (open_slots (locals sample_called 0%nat))) /\
    (forall loc, last (open_slots (locals sample_called 0%nat)) = Some loc ->
       exists rec, rec ∈ events (globals sample_called) /\ type rec = EVENT_CALL /\
                   ev_location rec = loc) /\
    args ev = omap (fun a => a) (take MAX_ARGS (arg_slots sample_call)) /\
    (length (args ev) <= MAX_ARGS)%nat /\
    open_slots (pushed (ev_location ev) (locals sample_called 0%nat)) =
      (if stack_depth (locals sample_called 0%nat) <? MAX_STACK_DEPTH
       then open_slots (locals sample_called 0%nat) ++ [ev_location ev]
       else open_slots (locals sample_called 0%nat)) /\
    allocs_ok h'.
Proof.
  apply (call_record_names_callee_and_caller (take 1 sample_hooks) []
           [Recorded {| file := Some "app.py"%string; line := 3;
                        func := Some "f"%string |}] sample_called 0%nat sample_call).
  - exact sample_called_reached.
  - intros b Hb. vm_compute in Hb. apply elem_of_nil in Hb. contradiction.
Defined.

Lemma run_hook_stopped tid k p :
  tracking_active (globals p) = 0 ->
  Barrier.initialized (barrier (globals p)) = false ->
  exists l',
    run_hook tid k p =
      Ret (Skipped, {| globals := globals p; locals := set_locals tid l' (locals p);
                       memory := memory p |}).
Proof.
  intros Ha Hi. unfold run_hook. destruct k as [code|saved res|event obj ty].
  - unfold before_original_eval. rewrite Ha. cbn. eauto.
  - unfold after_original_eval.
    match goal with |- context [try_enter_barrier ?g ?l0] =>
      destruct (try_enter_barrier_cases g l0) as [(Hi' & _)|(_ & ->)]; [congruence|]
    end.
    cbn. eauto.
  - unfold ref_tracer_callback. rewrite Ha. cbn. eauto.
Qed.

(** X24.  After a stop the hooks touch nothing: once [py_stop] has
    returned its result (or failed for lack of memory while building it),
    the log and the creation map are empty, and every hook that still
    runs (say the return of a frame that was in flight) records nothing,
    allocates nothing and leaves the globals as [py_stop] left them. *)
Theorem hooks_after_stop_touch_nothing encoder_ok g l r g' ks : forall p,
  py_stop encoder_ok g l = (Returns r, g') ->
  (r = Py_NoMemory \/ exists handed_over, r = Py_Result handed_over) ->
  globals p = g' ->
  exists es p',
    run_hooks ks p = Ret (es, p') /\
    globals p' = g' /\ memory p' = memory p /\
    Forall (eq Skipped) es /\
    events g' = [] /\ events_capacity g' = 0 /\ obj_creation_map g' = ∅.
Proof.
  intros p Hstop Hr Hg.
  assert (Hg' : tracking_active g' = 0 /\ Barrier.initialized (barrier g') = false /\
                events g' = [] /\ events_capacity g' = 0 /\ obj_creation_map g' = ∅).
  { unfold py_stop in Hstop. destruct (tracking_active g =? 0).
    - injection Hstop as <- <-. destruct Hr as [Hr|[evs Hr]]; discriminate.
    - destruct (Barrier.barrier_stop (barrier (set_active 0 g)) (tl_callback_depth l))
        as [[[|]|] b]; [| |discriminate].
      + injection Hstop as <- <-. cbn.
        unfold Barrier.barrier_destroy. destruct (Barrier.initialized b) eqn:Hb; cbn; auto.
      + injection Hstop as <- <-. destruct Hr as [Hr|[evs Hr]]; discriminate. }
  destruct Hg' as (Ha & Hi & He & Hc & Hm). clear Hstop Hr.
  revert p Hg. induction ks as [|[tid k] ks IH]; intros p Hg; cbn [run_hooks].
  - exists [], p. auto 10.
  - destruct (run_hook_stopped tid k p) as [l' ->]; [rewrite Hg; assumption..|].
    cbn [rbind].
    match goal with |- context [run_hooks ks ?p1] =>
      destruct (IH p1 Hg) as (es & p' & -> & Hg1 & Hm1 & Hes & _)
    end.
    cbn [rbind]. exists (Skipped :: es), p'. cbn [memory] in Hm1. auto 10.
Qed.

Lemma hooks_after_stop_touch_nothing_witness :
  exists es p',
    run_hooks sample_hooks
      {| globals := snd (py_stop true started Locals_zero);
         locals := fun _ => Locals_zero; memory := [] |} = Ret (es, p') /\
    globals p' = snd (py_stop true started Locals_zero) /\ memory p' = [] /\
    Forall (eq Skipped) es /\
    events (snd (py_stop true started Locals_zero)) = [] /\
    events_capacity (snd (py_stop true started Locals_zero)) = 0 /\
    obj_creation_map (snd (py_stop true started Locals_zero)) = ∅.
Proof.
  apply (hooks_after_stop_touch_nothing true started Locals_zero (Py_Result [])
           (snd (py_stop true started Locals_zero)) sample_hooks
           {| globals := snd (py_stop true started Locals_zero);
              locals := fun _ => Locals_zero; memory := [] |}).
  - reflexivity.
  - right. exists []. reflexivity.
  - reflexivity.
Defined.



Lemma run_hooks_summary ks : forall p es p',
  depths_nonneg p ->
  run_hooks ks p = Ret (es, p') ->
  barrier (globals p') = barrier (globals p) /\
  tracking_active (globals p') = tracking_active (globals p) /\
  (forall t, tl_callback_depth (locals p' t) = tl_callback_depth (locals p t)) /\
  exists new, events (globals p') = events (globals p) ++ new /\
              (length new <= length ks)%nat.
Proof.
  induction ks as [|[tid k] ks IH]; intros p es p' Hp Hrun; cbn [run_hooks] in Hrun.
  - injection Hrun as <- <-. split; [reflexivity|]. split; [reflexivity|].
    split; [reflexivity|]. exists []. rewrite app_nil_r. auto.
  - destruct (run_hook_log tid k p (Hp tid)) as (e & p1 & He & (Hb & Ha & Hev & _) & Hd).
    rewrite He in Hrun. cbn [rbind] in Hrun.
    destruct (run_hooks ks p1) as [[es1 p2]|msg] eqn:Hks; cbn [rbind] in Hrun;
      [|discriminate].
    injection Hrun as <- <-.
    destruct (IH p1 es1 p2) as (Hb' & Ha' & Hd' & new & Hnew & Hlen); [|exact Hks|].
    { intros t. rewrite Hd. apply Hp. }
    split; [congruence|]. split; [congruence|].
    split; [intros t; rewrite Hd', Hd; reflexivity|].
    destruct Hev as [Hev|[ev Hev]].
    + exists new. rewrite Hnew, Hev. split; [reflexivity|cbn; lia].
    + exists (ev :: new). rewrite Hnew, Hev, <- app_assoc. split; [reflexivity|cbn; lia].
Qed.

(** X26.  A session hands over what its hooks recorded and leaves the
    module ready for the next one.  After a [py_start] that succeeded on
    a module whose barrier was not initialised, and any run of hooks,
    [py_stop] called by a worker outside every protected section does not
    wait: it returns the log, which holds at most one record per hook;
    afterwards tracking is inactive, the log and the creation map are
    empty, and [py_start] succeeds again. *)
Theorem session_hands_over_what_its_hooks_recorded g l g1 l1 p ks es p' t :
  Barrier.initialized (barrier g) = false ->
  py_start 0 0 0 g l = Ret (Py_None, g1, l1) ->
  globals p = g1 -> depths_nonneg p -> tl_callback_depth (locals p t) = 0 ->
  run_hooks ks p = Ret (es, p') ->
  exists g2,
    py_stop true (globals p') (locals p' t)
      = (Returns (Py_Result (events (globals p'))), g2) /\
    (length (events (globals p')) <= length ks)%nat /\
    py_count g2 = 0 /\ py_is_active g2 = false /\ obj_creation_map g2 = ∅ /\
    forall l2, exists g3 l3, py_start 0 0 0 g2 l2 = Ret (Py_None, g3, l3).
Proof.
  intros Hi Hstart Hg Hp Ht Hrun.
  unfold py_start in Hstart. destruct (tracking_active g =? 0) eqn:Hact;
    cbn [negb] in Hstart; [|discriminate].
  unfold Barrier.barrier_init in Hstart. cbn [barrier free_events set_events set_map] in Hstart.
  rewrite Hi in Hstart. cbn in Hstart. injection Hstart as <- <-.
  destruct (run_hooks_summary ks p es p' Hp Hrun)
    as (Hb & Ha & Hd & new & Hnew & Hlen).
  rewrite Hg in Hb, Ha, Hnew. cbn in Hb, Ha, Hnew.
  unfold py_stop. rewrite Ha. cbn [Z.eqb set_active barrier].
  rewrite Hb, Hd, Ht. cbn.
  eexists. split; [reflexivity|]. split; [rewrite Hnew; exact Hlen|].
  split; [reflexivity|]. split; [reflexivity|]. split; [reflexivity|].
  intros l2. unfold py_start. cbn. eauto.
Qed.

Lemma session_hands_over_what_its_hooks_recorded_witness :
  exists g2,
    py_stop true (globals (snd sample_run)) (locals (snd sample_run) 0%nat)
      = (Returns (Py_Result (events (globals (snd sample_run)))), g2) /\
    (length (events (globals (snd sample_run))) <= length sample_hooks)%nat /\
    py_count g2 = 0 /\ py_is_active g2 = false /\ obj_creation_map g2 = ∅ /\
    forall l2, exists g3 l3, py_start 0 0 0 g2 l2 = Ret (Py_None, g3, l3).
Proof.
  apply (session_hands_over_what_its_hooks_recorded Globals_zero Locals_zero
           started Locals_zero (started_process []) sample_hooks
           (fst sample_run) (snd sample_run) 0%nat).
  - reflexivity.
  - reflexivity.
  - reflexivity.
  - apply depths_nonneg_started.
  - reflexivity.
  - vm_compute. reflexivity.
Defined.

End TrackingLaws.

(* ---------------------------------------------------------------------- *)
(** ** context.c: the clock                                                 *)
(* ---------------------------------------------------------------------- *)

Module ContextLaws.
Import Context.

Local Open Scope Z_scope.

Lemma context_timestamp_ns_exact ts :
  reading ts -> context_timestamp_ns ts = tv_sec ts * NANOS_PER_SECOND + tv_nsec ts.
Proof.
  intros [Hs Hn]. unfold context_timestamp_ns, to_uint64, NANOS_PER_SECOND in *.
  rewrite (Z.mod_small (tv_sec ts)) by lia.
  rewrite (Z.mod_small (tv_nsec ts)) by lia.
  apply Z.mod_small. lia.
Qed.

(** X27.  The timestamp is faithful to the clock: for readings of the
    monotonic clock (nanoseconds below a second, at most some 584 years
    of seconds) [context_timestamp_ns] is seconds * 10^9 + nanoseconds
    without wrap-around, so the seconds and nanoseconds can be read back
    from it, and one timestamp is smaller than another exactly when its
    reading is the earlier one. *)
Theorem timestamp_keeps_the_order_of_the_clock a b :
  reading a -> reading b ->
  context_timestamp_ns a / NANOS_PER_SECOND = tv_sec a /\
  context_timestamp_ns a mod NANOS_PER_SECOND = tv_nsec a /\
  (context_timestamp_ns a < context_timestamp_ns b <-> earlier a b) /\
  (context_timestamp_ns a = context_timestamp_ns b <-> a = b).
Proof.
  intros Ha Hb.
  rewrite (context_timestamp_ns_exact a Ha), (context_timestamp_ns_exact b Hb).
  destruct Ha as [Has Han], Hb as [Hbs Hbn]. unfold earlier, NANOS_PER_SECOND in *.
  destruct a as [sa na], b as [sb nb]. cbn [tv_sec tv_nsec] in *.
  split; [|split; [|split]].
  - symmetry. apply (Z.div_unique _ _ sa na); lia.
  - symmetry. apply (Z.mod_unique _ _ sa na); lia.
  - split; [intros H|intros [H|[-> H]]; lia].
    destruct (Z.lt_trichotomy sa sb) as [Hlt|[->|Hgt]]; [left; exact Hlt| |lia].
    right. split; [reflexivity|lia].
  - split; [intros H|intros H; injection H as -> ->; reflexivity].
    assert (sa = sb) by lia. subst sb. assert (na = nb) by lia. subst nb. reflexivity.
Qed.

Lemma timestamp_keeps_the_order_of_the_clock_witness :
  let a := {| tv_sec := 5; tv_nsec := 999999999 |} in
  let b := {| tv_sec := 6; tv_nsec := 0 |} in
  context_timestamp_ns a / NANOS_PER_SECOND = tv_sec a /\
  context_timestamp_ns a mod NANOS_PER_SECOND = tv_nsec a /\
  (context_timestamp_ns a < context_timestamp_ns b <-> earlier a b) /\
  (context_timestamp_ns a = context_timestamp_ns b <-> a = b).
Proof.
  apply (timestamp_keeps_the_order_of_the_clock
           {| tv_sec := 5; tv_nsec := 999999999 |} {| tv_sec := 6; tv_nsec := 0 |});
    unfold reading, NANOS_PER_SECOND; cbn; lia.
Defined.

End ContextLaws.

(* ---------------------------------------------------------------------- *)
(** ** tracking/errors.h: captured errors                                   *)
(* ---------------------------------------------------------------------- *)

Module ErrorsLaws.
Import Tracking Errors.

Lemma truncate_length n : forall s, String.length (truncate n s) = Nat.min n (String.length s).
Proof.
  induction n as [|n IH]; intros s; [reflexivity|].
  destruct s as [|c s]; [reflexivity|]. cbn. rewrite IH. reflexivity.
Qed.

Lemma truncate_begins n : forall s, begins (truncate n s) s.
Proof.
  induction n as [|n IH]; intros s; [exists s; reflexivity|].
  destruct s as [|c s]; [exists EmptyString; reflexivity|].
  destruct (IH s) as [rest Hrest]. exists rest.
  change (String c s = String c (truncate n s ++ rest)). rewrite <- Hrest. reflexivity.
Qed.

Lemma truncate_short n s : (String.length s <= n)%nat -> truncate n s = s.
Proof.
  revert s. induction n as [|n IH]; intros s Hlen.
  - destruct s; [reflexivity|cbn in Hlen; lia].
  - destruct s as [|c s]; [reflexivity|]. cbn in *. f_equal. apply IH. lia.
Qed.

Lemma SAFE_STRCPY_fits size s :
  (0 < size)%nat -> (String.length (SAFE_STRCPY size s) < size)%nat.
Proof. intros Hs. unfold SAFE_STRCPY. rewrite truncate_length. lia. Qed.

(** One call of [capture_error] on an event. *)
Lemma capture_error_step ev field_name pending :
  exists ev' pending',
    capture_error (Some ev) field_name pending = (Some ev', pending') /\
    set_errors (errors ev) ev' = ev /\
    (errors ev' = errors ev \/
     exists err, errors ev' = errors ev ++ [err] /\ fits err /\
                 begins (field err) field_name) /\
    ((length (errors ev) <= MAX_FIELD_ERRORS)%nat ->
     (length (errors ev') <= MAX_FIELD_ERRORS)%nat).
Proof.
  unfold capture_error.
  destruct (MAX_FIELD_ERRORS <=? length (errors ev)) eqn:Hfull.
  - exists ev, pending. split; [reflexivity|]. split; [destruct ev; reflexivity|]. auto.
  - apply Nat.leb_gt in Hfull. destruct pending as [[tp_name value]|].
    + assert (Hfit : forall t m,
                (String.length t < ERROR_TYPE_LEN)%nat ->
                (String.length m < ERROR_MSG_LEN)%nat ->
                fits {| field := SAFE_STRCPY ERROR_FIELD_LEN field_name;
                        exc_type := t; exc_msg := m |}).
      { intros t m Ht Hm. unfold fits. cbn [field exc_type exc_msg]. split; [|auto].
        apply SAFE_STRCPY_fits. unfold ERROR_FIELD_LEN. lia. }
      assert (Hty : (String.length
                       match tp_name with
                       | Some name => SAFE_STRCPY ERROR_TYPE_LEN name
                       | None => EmptyString
                       end < ERROR_TYPE_LEN)%nat).
      { destruct tp_name; [apply SAFE_STRCPY_fits|cbn]; unfold ERROR_TYPE_LEN; lia. }
      destruct value as [[raised|msg|raised]|];
        eexists _, _; (split; [reflexivity|]);
        (split; [destruct ev; reflexivity|]);
        (split; [right; eexists; split; [reflexivity|]; split;
                 [apply Hfit; [exact Hty|]|apply truncate_begins]|
                 intros _; cbn [errors set_errors]; rewrite length_app;
                 cbn [length]; unfold MAX_FIELD_ERRORS in *; lia]).
      * cbn. unfold ERROR_MSG_LEN. lia.
      * apply SAFE_STRCPY_fits. unfold ERROR_MSG_LEN. lia.
      * cbn. unfold ERROR_MSG_LEN. lia.
      * cbn. unfold ERROR_MSG_LEN. lia.
    + exists ev, None. split; [reflexivity|]. split; [destruct ev; reflexivity|]. auto.
Qed.

(** X28.  Captured errors stay within their arrays: however many times
    [capture_error] runs on an event, with whatever exceptions pending,
    the event keeps its other fields and the errors it had, gains at most
    one error per call and never more than [MAX_FIELD_ERRORS] in all, and
    every error it gains fits the three fixed buffers of [FieldError]
    (field name, type name and message are cut to 31, 63 and 255
    bytes). *)
Theorem captured_errors_stay_within_their_arrays calls : forall ev,
  (length (errors ev) <= MAX_FIELD_ERRORS)%nat ->
  exists new,
    capture_all ev calls = set_errors (errors ev ++ new) ev /\
    (length new <= length calls)%nat /\
    (length (errors ev ++ new) <= MAX_FIELD_ERRORS)%nat /\
    Forall fits new.
Proof.
  induction calls as [|[field_name pending] calls IH]; intros ev Hlen; cbn [capture_all].
  - exists []. rewrite app_nil_r. split; [destruct ev; reflexivity|]. auto.
  - destruct (capture_error_step ev field_name pending)
      as (ev' & pending' & -> & Hsame & Hev & Hbound).
    destruct (IH ev' (Hbound Hlen)) as (new & Hrun & Hn & Hmax & Hfits).
    assert (Hset : forall errs, set_errors errs ev' = set_errors errs ev).
    { intros errs. rewrite <- Hsame. reflexivity. }
    destruct Hev as [Hev|(err & Hev & Hfit & _)].
    + exists new. rewrite Hrun, Hev, Hset in *. split; [reflexivity|].
      split; [cbn; lia|]. split; assumption.
    + exists (err :: new). rewrite Hrun, Hev, Hset, <- app_assoc in *.
      split; [reflexivity|]. split; [cbn; lia|]. split; [exact Hmax|].
      constructor; assumption.
Qed.

Lemma captured_errors_stay_within_their_arrays_witness :
  exists new,
    capture_all Event_zero (repeat ("file"%string, Some long_exception) 12)
      = set_errors (errors Event_zero ++ new) Event_zero /\
    (length new <= length (repeat ("file"%string, Some long_exception) 12))%nat /\
    (length (errors Event_zero ++ new) <= MAX_FIELD_ERRORS)%nat /\
    Forall fits new.
Proof.
  apply (captured_errors_stay_within_their_arrays
           (repeat ("file"%string, Some long_exception) 12) Event_zero).
  cbn. unfold MAX_FIELD_ERRORS. lia.
Defined.

End ErrorsLaws.

(* ---------------------------------------------------------------------- *)
(** ** tracking/output.h: what [stop] and [get_origin] hand to Python       *)
(* ---------------------------------------------------------------------- *)

Module OutputLaws.
Import Tracking Errors Output.

Local Open Scope string_scope.

Lemma bind_eq {A B : Type} (m : Out A) (k : A -> Out B) w a w' :
  m w = Some (a, w') -> out_bind m k w = k a w'.
Proof. intros H. unfold out_bind. rewrite H. reflexivity. Qed.

Lemma host_call_quiet w : quiet w -> host_call w = Some (true, w).
Proof. intros [Ha _]. unfold host_call. rewrite Ha. reflexivity. Qed.

Create HintDb quiet.
#[local] Hint Resolve host_call_quiet : quiet.

Ltac quiet_bind :=
  erewrite bind_eq by (eauto with quiet); cbv beta; cbn [negb].

Lemma PyDict_SetItemString_quiet d key v w :
  quiet w -> PyDict_SetItemString d key v w = Some (dict_store key v d, w).
Proof. intros Hq. unfold PyDict_SetItemString. quiet_bind. reflexivity. Qed.

#[local] Hint Resolve PyDict_SetItemString_quiet : quiet.

Lemma dict_set_string_quiet d key val ctx w :
  quiet w -> dict_set_string d key val ctx w = Some (dict_store key (py_string val) d, w).
Proof.
  intros Hq. unfold dict_set_string. destruct val as [text|]; cbn [py_string].
  - quiet_bind. auto with quiet.
  - auto with quiet.
Qed.

Lemma dict_set_long_quiet d key val w :
  quiet w -> dict_set_long d key val w = Some (dict_store key (PyLong val) d, w).
Proof. intros Hq. unfold dict_set_long. quiet_bind. auto with quiet. Qed.

Lemma dict_set_ulonglong_quiet d key val w :
  quiet w -> dict_set_ulonglong d key val w = Some (dict_store key (PyLong val) d, w).
Proof. intros Hq. unfold dict_set_ulonglong. quiet_bind. auto with quiet. Qed.

#[local] Hint Resolve dict_set_string_quiet dict_set_long_quiet dict_set_ulonglong_quiet
  : quiet.

Lemma frame_info_to_dict_quiet info prefix w :
  quiet w -> frame_info_to_dict info prefix w = Some (Some (frame_value info), w).
Proof.
  intros Hq. unfold frame_info_to_dict, frame_value.
  destruct (file info) as [f|], (func info) as [fn|];
    try (do 4 quiet_bind; reflexivity).
  destruct (line info =? 0)%Z; [reflexivity|].
  do 4 quiet_bind. reflexivity.
Qed.

#[local] Hint Resolve frame_info_to_dict_quiet : quiet.

Lemma traceback_list_quiet info prefix w n : forall i,
  quiet w -> (i + n <= length (traceback info))%nat ->
  traceback_list info prefix i n w
    = Some (map frame_value (take n (drop i (traceback info))), w).
Proof.
  induction n as [|n IH]; intros i Hq Hlen; [reflexivity|].
  cbn [traceback_list].
  destruct (lookup_lt_is_Some_2 (traceback info) i ltac:(lia)) as [slot Hslot].
  rewrite Hslot. quiet_bind.
  erewrite bind_eq by (apply IH; [exact Hq|lia]). cbv beta.
  rewrite (drop_S _ _ _ Hslot). reflexivity.
Qed.

Lemma creation_info_to_dict_quiet info prefix w :
  quiet w -> well_formed info ->
  creation_info_to_dict (Some info) prefix w = Some (Some (creation_value info), w).
Proof.
  intros Hq [Hpos Hlen]. unfold creation_info_to_dict, creation_value.
  do 5 quiet_bind.
  destruct (traceback_depth info <? 0)%Z eqn:Hneg; [apply Z.ltb_lt in Hneg; lia|].
  quiet_bind.
  erewrite bind_eq by (apply traceback_list_quiet; [exact Hq|cbn; lia]). cbv beta.
  quiet_bind. rewrite drop_0. reflexivity.
Qed.

Lemma args_list_quiet idx w arguments : forall j,
  quiet w -> args_list idx j arguments w = Some (map arg_value arguments, w).
Proof.
  induction arguments as [|arg arguments IH]; intros j Hq; [reflexivity|].
  cbn [args_list]. quiet_bind.
  erewrite bind_eq by (do 3 quiet_bind; reflexivity). cbv beta.
  erewrite bind_eq by (apply IH; exact Hq). reflexivity.
Qed.

Lemma errors_list_quiet idx w errs : forall j,
  quiet w -> errors_list idx j errs w = Some (map error_value errs, w).
Proof.
  induction errs as [|err errs IH]; intros j Hq; [reflexivity|].
  cbn [errors_list]. quiet_bind.
  erewrite bind_eq by (cbv zeta; do 3 quiet_bind; reflexivity). cbv beta.
  erewrite bind_eq by (apply IH; exact Hq). reflexivity.
Qed.

Lemma serialize_event_base_quiet evt idx w :
  quiet w ->
  serialize_event_base [] evt idx w
    = Some ([("event", PyUnicode (event_type_name (type evt)));
             ("file", py_string (file (ev_location evt)));
             ("line", PyLong (line (ev_location evt)));
             ("func", py_string (func (ev_location evt)))], w).
Proof.
  intros Hq. unfold serialize_event_base. do 3 quiet_bind.
  rewrite dict_set_string_quiet by exact Hq. reflexivity.
Qed.

Lemma serialize_lifecycle_fields_quiet entry evt idx w :
  quiet w -> carries_well_formed evt ->
  serialize_lifecycle_fields entry evt idx w
    = Some (let entry := dict_store "type" (py_string (ev_type_name_ref evt))
                           (dict_store "id" (PyLong (obj_id evt)) entry) in
            match type evt, creation_info evt with
            | EVENT_DESTROY, Some info => dict_store "creation" (creation_value info) entry
            | _, _ => entry
            end, w).
Proof.
  intros Hq Hwf. unfold serialize_lifecycle_fields. do 2 quiet_bind. cbv zeta.
  destruct (type evt); try reflexivity.
  destruct (creation_info evt) as [info|] eqn:Hinfo; [|reflexivity].
  erewrite bind_eq by (apply creation_info_to_dict_quiet; [exact Hq|apply Hwf; exact Hinfo]).
  cbv beta iota. auto with quiet.
Qed.

Lemma serialize_call_fields_quiet entry evt idx w :
  quiet w ->
  serialize_call_fields entry evt idx w
    = Some (let entry :=
              match func (caller evt) with
              | Some _ =>
                  dict_store "caller_func" (py_string (func (caller evt)))
                    (dict_store "caller_line" (PyLong (line (caller evt)))
                       (dict_store "caller_file" (py_string (file (caller evt))) entry))
              | None => entry
              end in
            match args evt with
            | [] => entry
            | arguments => dict_store "args" (PyList (map arg_value arguments)) entry
            end, w).
Proof.
  intros Hq. unfold serialize_call_fields. cbv zeta.
  destruct (func (caller evt)) as [fn|];
    [erewrite bind_eq by (do 2 quiet_bind; auto with quiet)
    |erewrite bind_eq by reflexivity];
    cbv beta;
    (destruct (args evt) as [|arg arguments]; [reflexivity|]);
    quiet_bind;
    (erewrite bind_eq by (apply args_list_quiet; exact Hq));
    cbv beta; auto with quiet.
Qed.

Lemma serialize_return_fields_quiet entry evt idx w :
  quiet w ->
  serialize_return_fields entry evt idx w
    = Some (if (obj_id evt =? 0)%Z then entry
            else dict_store "return_type" (py_string (ev_type_name_ref evt))
                   (dict_store "return_id" (PyLong (obj_id evt)) entry), w).
Proof.
  intros Hq. unfold serialize_return_fields.
  destruct (obj_id evt =? 0)%Z; [reflexivity|]. quiet_bind. auto with quiet.
Qed.

Lemma serialize_event_errors_quiet entry evt idx w :
  quiet w ->
  serialize_event_errors entry evt idx w
    = Some (match errors evt with
            | [] => entry
            | errs => dict_store "errors" (PyList (map error_value errs)) entry
            end, w).
Proof.
  intros Hq. unfold serialize_event_errors.
  destruct (errors evt) as [|err errs]; [reflexivity|]. quiet_bind.
  erewrite bind_eq by (apply errors_list_quiet; exact Hq). cbv beta. auto with quiet.
Qed.

(** One event in a quiet interpreter. *)
Lemma serialize_event_quiet evt idx w :
  quiet w -> carries_well_formed evt ->
  exists entry, serialize_event evt idx w = Some (Some entry, w) /\ describes evt entry.
Proof.
  intros Hq Hwf. unfold serialize_event. quiet_bind.
  erewrite bind_eq by (apply serialize_event_base_quiet; exact Hq). cbv beta.
  unfold describes.
  destruct (type evt) eqn:Hty.
  - erewrite bind_eq by (apply serialize_call_fields_quiet; exact Hq). cbv beta zeta.
    erewrite bind_eq by (apply serialize_event_errors_quiet; exact Hq). cbv beta.
    eexists. split; [reflexivity|]. eexists. split; [reflexivity|].
    destruct (func (caller evt)), (args evt), (errors evt); cbn; repeat split; reflexivity.
  - erewrite bind_eq by (apply serialize_return_fields_quiet; exact Hq). cbv beta.
    erewrite bind_eq by (apply serialize_event_errors_quiet; exact Hq). cbv beta.
    eexists. split; [reflexivity|]. eexists. split; [reflexivity|].
    destruct (obj_id evt =? 0)%Z, (errors evt); cbn; repeat split; reflexivity.
  - erewrite bind_eq by (apply serialize_lifecycle_fields_quiet; assumption).
    cbv beta zeta. rewrite Hty.
    erewrite bind_eq by (apply serialize_event_errors_quiet; exact Hq). cbv beta.
    eexists. split; [reflexivity|]. eexists. split; [reflexivity|].
    destruct (errors evt); cbn; repeat split; reflexivity.
  - erewrite bind_eq by (apply serialize_lifecycle_fields_quiet; assumption).
    cbv beta zeta. rewrite Hty.
    erewrite bind_eq by (apply serialize_event_errors_quiet; exact Hq). cbv beta.
    eexists. split; [reflexivity|]. eexists. split; [reflexivity|].
    destruct (creation_info evt), (errors evt); cbn; repeat split; reflexivity.
Qed.

Lemma append_events_quiet w evs : forall i events_list,
  quiet w -> Forall carries_well_formed evs ->
  exists entries,
    append_events i evs events_list w = Some ((events_list ++ entries)%list, w) /\
    Forall2 describes evs entries.
Proof.
  induction evs as [|evt evs IH]; intros i events_list Hq Hwf.
  - exists []. rewrite app_nil_r. split; [reflexivity|constructor].
  - inversion Hwf as [|? ? Hevt Hrest]; subst.
    destruct (serialize_event_quiet evt i w Hq Hevt) as (entry & Hser & Hdesc).
    destruct (IH (S i) (events_list ++ [entry])%list Hq Hrest) as (entries & Hrun & Hall).
    exists (entry :: entries). cbn [append_events].
    erewrite bind_eq by exact Hser. cbv beta.
    erewrite bind_eq by (quiet_bind; reflexivity). cbv beta.
    rewrite Hrun, <- app_assoc. split; [reflexivity|]. constructor; assumption.
Qed.

(** X29.  [stop] hands over one dict per recorded event, in the order of
    recording: when the interpreter fails no call, the result of
    [py_stop] is a dict with the single key "events" (and no
    "output_errors"), whose list has for every recorded event, at the
    same position, a dict with its "event", "file", "line" and "func",
    the fields of its type ("caller_func" and "args" of a call,
    "return_id" of a return, "id", "type" and for a destruction
    "creation" of an object), and "errors" exactly when field errors
    were captured; nothing is raised. *)
Theorem stop_hands_over_one_dict_per_event evs w :
  quiet w -> Forall carries_well_formed evs ->
  exists entries w',
    py_stop_result evs w = Some (Some (PyDict [("events", PyList entries)]), w') /\
    Forall2 describes evs entries /\
    quiet w' /\ output_errors w' = [].
Proof.
  intros Hq Hwf. unfold py_stop_result.
  set (w0 := {| answers := answers w; pending := pending w; output_errors := [] |}).
  assert (Hq0 : quiet w0) by exact Hq.
  destruct (append_events_quiet w0 evs 0 [] Hq0 Hwf) as (entries & Hrun & Hall).
  exists entries, w0.
  erewrite bind_eq by reflexivity. cbv beta. fold w0.
  do 2 quiet_bind.
  erewrite bind_eq by exact Hrun. cbv beta.
  quiet_bind. unfold out_bind. cbn [output_errors w0 dict_store app].
  repeat split; try assumption; apply Hq.
Qed.

Lemma stop_hands_over_one_dict_per_event_witness :
  exists entries w',
    py_stop_result sample_events calm
      = Some (Some (PyDict [("events", PyList entries)]), w') /\
    Forall2 describes sample_events entries /\
    quiet w' /\ output_errors w' = [].
Proof.
  apply (stop_hands_over_one_dict_per_event sample_events calm).
  - split; reflexivity.
  - constructor; [|constructor; [|constructor]];
      intros info Hinfo; [discriminate Hinfo|].
    injection Hinfo as <-. split; cbn; lia.
Defined.

(** X30.  [get_origin] tells tracked objects from the others: when the
    interpreter fails no call, [py_get_origin] raises RuntimeError
    "Tracking not active" while tracking is off; while it is on, it
    returns None for an object that has no creation record, and for an
    object that has one it returns the record as a dict: file, line and
    function of the creating frame, the type name, and the traceback with
    one entry per captured frame, innermost first.  In the last two cases
    nothing is raised. *)
Theorem get_origin_tells_tracked_objects_from_others obj g w :
  quiet w ->
  (forall info, obj_creation_map g !! obj = Some info -> well_formed info) ->
  exists w',
    py_get_origin obj g w
      = Some (if (tracking_active g =? 0)%Z then None
              else Some match obj_creation_map g !! obj with
                        | Some info => creation_value info
                        | None => Py_None
                        end, w') /\
    answers w' = [] /\
    pending w' =
      (if (tracking_active g =? 0)%Z
       then Some (Exc (Some "RuntimeError") (Some (StrDecodes "Tracking not active")))
       else None).
Proof.
  intros Hq Hwf. unfold py_get_origin. quiet_bind.
  destruct (tracking_active g =? 0)%Z.
  - eexists. split; [reflexivity|]. split; [apply Hq|reflexivity].
  - unfold vt_get. destruct (obj_creation_map g !! obj) as [info|] eqn:Hinfo.
    + set (w0 := {| answers := answers w; pending := pending w; output_errors := [] |}).
      assert (Hq0 : quiet w0) by exact Hq.
      exists w0. erewrite bind_eq by reflexivity. cbv beta. fold w0.
      rewrite (creation_info_to_dict_quiet info _ w0 Hq0 (Hwf info eq_refl)).
      split; [reflexivity|]. exact Hq0.
    + exists w. split; [reflexivity|]. exact Hq.
Qed.

Lemma get_origin_tells_tracked_objects_from_others_witness :
  exists w',
    py_get_origin 8192 sample_tracking calm
      = Some (if (tracking_active sample_tracking =? 0)%Z then None
              else Some match obj_creation_map sample_tracking !! 8192%Z with
                        | Some info => creation_value info
                        | None => Py_None
                        end, w') /\
    answers w' = [] /\
    pending w' =
      (if (tracking_active sample_tracking =? 0)%Z
       then Some (Exc (Some "RuntimeError") (Some (StrDecodes "Tracking not active")))
       else None).
Proof.
  apply (get_origin_tells_tracked_objects_from_others 8192 sample_tracking calm).
  - split; reflexivity.
  - intros info Hinfo. unfold sample_tracking, set_map in Hinfo.
    cbn [obj_creation_map] in Hinfo. rewrite lookup_insert_eq in Hinfo.
    injection Hinfo as <-. split; cbn; lia.
Defined.

End OutputLaws.

